(** * The pthread thread pool of Galois (src/ThreadPool_pthread.cpp)

    The pool is a fixed set of OS threads that park on one semaphore each
    and are woken, for every call of [runInternal], by a binary cascade
    started from the calling thread.  The development has three parts:

    - the small classes of the file ([Semaphore], [ThinBarrier]) and the
      thread initialisation, as functions;
    - the pool itself, as an interleaving transition system: one atomic step
      per access to shared memory, a schedule chooses which thread moves;
    - the invariants of that system and the properties they give. *)

From Stdlib Require Import String.
From Stdlib Require Import ZArith List Bool Lia Arith.
Import ListNotations.
Open Scope Z_scope.

(** ** Machine integers *)

(** [unsigned] is 32 bits wide, [int] is its two's complement reading. *)
Definition wrap32 (x : Z) : Z := x mod 2 ^ 32.
Definition sint32 (x : Z) : Z := (x + 2 ^ 31) mod 2 ^ 32 - 2 ^ 31.

Definition upd {A : Type} (f : Z -> A) (k : Z) (v : A) : Z -> A :=
  fun x => if x =? k then v else f x.

(** The addresses [b, b+1, ..., b+n-1]. *)
Definition seqZ (b : Z) (n : nat) : list Z :=
  map (fun i => b + Z.of_nat i) (seq 0 n).

(** How often an id occurs. *)
Definition cnt (l : list Z) (t : Z) : nat := count_occ Z.eq_dec l t.

(** ** GALOIS_DIE and the results of OS primitives *)

Module OS.

(** The primitives of libpthread the file calls. *)
Inductive primitive :=
| sem_init | sem_destroy | sem_post | sem_wait | pthread_create | pthread_join.

Record diagnostic := Diag { at_line : Z; text : string }.

Inductive outcome (A : Type) :=
| Ok (a : A)               (* the call returned *)
| Die (d : diagnostic)     (* the process was terminated *)
| Blocked.                 (* the OS has not answered yet *)
Arguments Ok {A} a.
Arguments Die {A} d.
Arguments Blocked {A}.

(** Modelled from the spec: the macro GALOIS_DIE of Galois/Runtime/ll/gio.h
    (not among the sources).  It terminates the process at once with a
    diagnostic; the diagnostic carries the text handed to the macro and the
    line of the expansion, which is what tells the failing primitive. *)
Definition GALOIS_DIE {A : Type} (line : Z) (msg : string) : outcome A :=
  Die (Diag line msg).

Definition bind {A B : Type} (m : outcome A) (k : A -> outcome B) : outcome B :=
  match m with
  | Ok a => k a
  | Die d => Die d
  | Blocked => Blocked
  end.

(** The outcome with its result changed by [f]. *)
Definition map {A B : Type} (f : A -> B) (m : outcome A) : outcome B :=
  match m with
  | Ok a => Ok (f a)
  | Die d => Die d
  | Blocked => Blocked
  end.

(** What one call of a primitive reports: its return code and [errno]. *)
Record reply := Reply { rc : Z; errno : Z }.

Definition EINTR : Z := 4.

(** The line of the GALOIS_DIE that guards each primitive. *)
Definition die_line (p : primitive) : Z :=
  match p with
  | sem_init => 58
  | sem_destroy => 63
  | sem_post => 70
  | sem_wait => 80
  | pthread_create => 180
  | pthread_join => 193
  end.

End OS.

Notation "x <- m ;; k" := (OS.bind m (fun x => k))
  (at level 61, m at next level, right associativity).

(** ** class Semaphore

    Every method is a function of the replies the OS gives to the calls it
    makes, in order; it returns the replies it has not consumed. *)

Module Semaphore.
Import OS.

(** [explicit Semaphore(int val = 0)] *)
Definition ctor (os : list reply) : outcome (list reply) :=
  match os with
  | [] => Blocked
  | r :: os' => if rc r =? 0 then Ok os' else GALOIS_DIE 58 "PTHREAD"
  end.

(** [~Semaphore()] *)
Definition dtor (os : list reply) : outcome (list reply) :=
  match os with
  | [] => Blocked
  | r :: os' => if rc r =? 0 then Ok os' else GALOIS_DIE 63 "PTHREAD"
  end.

(** How often the body of [while (n) { --n; ... }] is entered for an
    [int n]: [n] times for [n >= 0]; a negative [n] is never zero on its
    way down, wraps at the least [int] and comes to zero after [2^32 + n]
    rounds. *)
Definition rounds (n : Z) : nat := Z.to_nat (if n <? 0 then n + 2 ^ 32 else n).

(** [void release(int n = 1)]: [while (n) { --n; if (sem_post(&sem)) die; }] *)
Fixpoint release_loop (n : nat) (os : list reply) : outcome (list reply) :=
  match n with
  | O => Ok os
  | S n' =>
      match os with
      | [] => Blocked
      | r :: os' =>
          if rc r =? 0 then release_loop n' os' else GALOIS_DIE 70 "PTHREAD"
      end
  end.

Definition release (n : Z) (os : list reply) : outcome (list reply) :=
  release_loop (rounds n) os.

(** The test of the inner loop of [acquire]:
    [((rc = sem_wait(&sem)) < 0) && (errno == EINTR)]. *)
Definition interrupted (r : reply) : bool := (rc r <? 0) && (errno r =? EINTR).

(** [while (((rc = sem_wait(&sem)) < 0) && (errno == EINTR)) { }]: the
    value of [rc] when the loop is left, and the replies left over. *)
Fixpoint wait_retry (os : list reply) : outcome (Z * list reply) :=
  match os with
  | [] => Blocked
  | r :: os' => if interrupted r then wait_retry os' else Ok (rc r, os')
  end.

(** [void acquire(int n = 1)] *)
Fixpoint acquire_loop (n : nat) (os : list reply) : outcome (list reply) :=
  match n with
  | O => Ok os
  | S n' =>
      r <- wait_retry os ;;
      if fst r =? 0 then acquire_loop n' (snd r) else GALOIS_DIE 80 "PTHREAD"
  end.

Definition acquire (n : Z) (os : list reply) : outcome (list reply) :=
  acquire_loop (rounds n) os.

End Semaphore.

(** ** The calls of libpthread in the constructor and the destructor of the
    pool, as functions of the replies of the OS *)

Module Lifecycle.
Import OS.

(** [new Semaphore[n]]: the constructor of each element in turn. *)
Fixpoint new_semaphores (n : nat) (os : list reply) : outcome (list reply) :=
  match n with
  | O => Ok os
  | S n' => os' <- Semaphore.ctor os ;; new_semaphores n' os'
  end.

(** [delete [] starts]: the destructor of each element in turn. *)
Fixpoint delete_semaphores (n : nat) (os : list reply) : outcome (list reply) :=
  match n with
  | O => Ok os
  | S n' => os' <- Semaphore.dtor os ;; delete_semaphores n' os'
  end.

(** [for (i = 1; i < maxThreads; ++i)
       if (pthread_create(&threads[i], 0, &slaunch, this)) GALOIS_DIE("PTHREAD");]
    with [n] iterations left. *)
Fixpoint create_loop (n : nat) (os : list reply) : outcome (list reply) :=
  match n with
  | O => Ok os
  | S n' =>
      match os with
      | [] => Blocked
      | r :: os' =>
          if rc r =? 0 then create_loop n' os' else GALOIS_DIE 180 "PTHREAD"
      end
  end.

(** [for (i = 1; i < maxThreads; ++i) starts[i].release();] *)
Fixpoint release_all (n : nat) (os : list reply) : outcome (list reply) :=
  match n with
  | O => Ok os
  | S n' => os' <- Semaphore.release 1 os ;; release_all n' os'
  end.

(** [for (i = 1; i < maxThreads; ++i)
       if (pthread_join(threads[i], NULL)) GALOIS_DIE("PTHREAD");] *)
Fixpoint join_loop (n : nat) (os : list reply) : outcome (list reply) :=
  match n with
  | O => Ok os
  | S n' =>
      match os with
      | [] => Blocked
      | r :: os' =>
          if rc r =? 0 then join_loop n' os' else GALOIS_DIE 193 "PTHREAD"
      end
  end.

(** The calls of [ThreadPool_pthread()], in order. *)
Definition ctor (maxThreads : Z) (os : list reply) : outcome (list reply) :=
  os1 <- new_semaphores (Z.to_nat maxThreads) os ;;
  create_loop (Z.to_nat (maxThreads - 1)) os1.

(** The calls of [~ThreadPool_pthread()], in order. *)
Definition dtor (maxThreads : Z) (os : list reply) : outcome (list reply) :=
  os1 <- release_all (Z.to_nat (maxThreads - 1)) os ;;
  os2 <- join_loop (Z.to_nat (maxThreads - 1)) os1 ;;
  delete_semaphores (Z.to_nat maxThreads) os2.

(** A reply that reports success. *)
Definition fine (r : reply) : Prop := rc r = 0.


End Lifecycle.

(** ** class ThinBarrier *)

Module ThinBarrier.

Record t := Make { started : Z }.

(** [ThinBarrier(int v) { }]: the body is empty and there is no member
    initialiser, so the object keeps what its storage held. *)
Definition ctor (storage : t) (v : Z) : t := storage.

(** [__sync_fetch_and_add(&started, 1)]; the argument [n] is not used. *)
Definition release (b : t) (n : Z) : t := Make (sint32 (started b + 1)).

(** [while (started < n) { }]: the loop is left when the test fails. *)
Definition passes (b : t) (n : Z) : bool := negb (started b <? n).

(** [started = 0] *)
Definition reset (b : t) : t := Make 0.

End ThinBarrier.

(** ** The pool as a transition system *)

(** What the threads do that can be seen from outside; the newest event is
    at the head of a trace. *)
Inductive event :=
| EvInitTID (tid : Z)            (* LL::initTID(tid) *)
| EvInitPTS (tid : Z)            (* initPTS() *)
| EvBind (tid proc : Z)          (* LL::bindThreadToProcessor(proc) *)
| EvReady (tid : Z)              (* started.release() of initThread *)
| EvCreate (i : Z)               (* pthread_create(&threads[i], ...) *)
| EvAssign (i tid : Z)           (* __sync_add_and_fetch(&next, 1) in slot i *)
| EvStoreStarting (k : Z)        (* starting = num *)
| EvStoreBegin (p : Z)           (* workBegin = ... *)
| EvStoreEnd (p : Z)             (* workEnd = ... *)
| EvFence                        (* __sync_synchronize() *)
| EvReset                        (* started.reset() *)
| EvPost (tid n : Z)             (* starts[n].release() in cascade(tid) *)
| EvWake (tid : Z)               (* starts[tid].acquire() has returned *)
| EvBeginSampling (tid : Z)
| EvEndSampling (tid : Z)
| EvExec (tid ptr : Z)           (* the call of the work item at ptr *)
| EvDone (tid : Z)               (* started.release() of launch *)
| EvShutdown                     (* shutdown = true *)
| EvKick (i : Z)                 (* starts[i].release() of the destructor *)
| EvJoin (i : Z).                (* pthread_join(threads[i], NULL) *)

(** The arguments of one [runInternal], [num] already sanitized. *)
Record call := Call { num : Z; wbegin : Z; wend : Z }.

(** Where a thread stands inside [doWork]. *)
Inductive work_pc :=
| WReadBegin                     (* workPtr = workBegin *)
| WReadEnd (workPtr : Z)         (* workEndL = workEnd *)
| WLoop (workPtr workEndL : Z).  (* while (workPtr != workEndL) *)

(** Where a spawned thread stands, from [slaunch] on. *)
Inductive thread_pc :=
| TNone                          (* not created yet *)
| TStart                         (* slaunch: about to draw its id *)
| TInit (tid : Z)                (* initThread: initTID, initPTS, binding *)
| TReady (tid : Z)               (* initThread: started.release() *)
| TLoop (tid : Z)                (* launch: while (!shutdown) *)
| TAcquire (tid : Z)             (* starts[tid].acquire() *)
| TCascade (tid i : Z)           (* cascade(tid), iteration i *)
| TPrefix (tid : Z)              (* prefixThreadWork(tid) *)
| TWork (tid : Z) (w : work_pc)  (* doWork() *)
| TSuffix (tid : Z)              (* suffixThreadWork(tid) *)
| TSignal (tid : Z)              (* started.release() *)
| TExit.                         (* slaunch has returned *)

(** Where the main thread stands inside [runInternal]. *)
Inductive run_pc :=
| RStoreStarting | RStoreBegin | RStoreEnd | RFence | RReset
| RCascade (i : Z)
| RWork (w : work_pc)
| RWait
| RClearEnd | RClearBegin.

(** ... and inside the destructor. *)
Inductive dtor_pc :=
| DShutdown | DClearEnd | DClearBegin | DFence
| DRelease (i : Z)
| DJoin (i : Z).

Inductive main_pc :=
| MCtor                          (* the member initialisers *)
| MInit | MReady                 (* initThread(0) *)
| MAlloc                         (* new Semaphore[], new pthread_t[] *)
| MCreate (i : Z)                (* the pthread_create loop *)
| MWaitReady                     (* started.acquire(maxThreads) *)
| MIdle (last : option call)     (* outside the pool's code *)
| MRun (c : call) (pc : run_pc)
| MDtor (pc : dtor_pc)
| MDead.                         (* the pool is destroyed *)

Record pool := Pool {
  next : Z;                      (* static unsigned next of slaunch *)
  started : ThinBarrier.t;
  shutdown : bool;
  starting : Z;
  workBegin : Z;
  workEnd : Z;
  starts : Z -> nat;             (* the value of each semaphore *)
  mainpc : main_pc;
  thr : Z -> thread_pc;          (* threads[i] *)
  trace : list event
}.

Definition set_next v s := Pool v (started s) (shutdown s) (starting s)
  (workBegin s) (workEnd s) (starts s) (mainpc s) (thr s) (trace s).
Definition set_started v s := Pool (next s) v (shutdown s) (starting s)
  (workBegin s) (workEnd s) (starts s) (mainpc s) (thr s) (trace s).
Definition set_shutdown v s := Pool (next s) (started s) v (starting s)
  (workBegin s) (workEnd s) (starts s) (mainpc s) (thr s) (trace s).
Definition set_starting v s := Pool (next s) (started s) (shutdown s) v
  (workBegin s) (workEnd s) (starts s) (mainpc s) (thr s) (trace s).
Definition set_workBegin v s := Pool (next s) (started s) (shutdown s)
  (starting s) v (workEnd s) (starts s) (mainpc s) (thr s) (trace s).
Definition set_workEnd v s := Pool (next s) (started s) (shutdown s)
  (starting s) (workBegin s) v (starts s) (mainpc s) (thr s) (trace s).
Definition set_starts v s := Pool (next s) (started s) (shutdown s)
  (starting s) (workBegin s) (workEnd s) v (mainpc s) (thr s) (trace s).
Definition set_mainpc v s := Pool (next s) (started s) (shutdown s)
  (starting s) (workBegin s) (workEnd s) (starts s) v (thr s) (trace s).
Definition set_thr v s := Pool (next s) (started s) (shutdown s)
  (starting s) (workBegin s) (workEnd s) (starts s) (mainpc s) v (trace s).
Definition set_trace v s := Pool (next s) (started s) (shutdown s)
  (starting s) (workBegin s) (workEnd s) (starts s) (mainpc s) (thr s) v.

Definition emit (e : event) (s : pool) : pool := set_trace (e :: trace s) s.
Definition emits (es : list event) (s : pool) : pool :=
  set_trace (rev es ++ trace s) s.
Definition goto (j : Z) (pc : thread_pc) (s : pool) : pool :=
  set_thr (upd (thr s) j pc) s.

(** What a schedule is made of: the main thread enters [runInternal] or
    the destructor, the main thread takes its next step, or the thread of
    slot [j] takes its next step. *)
Inductive action :=
| ACall (n b e : Z)
| ADestroy
| AMain
| AThread (j : Z).

(** ** Projections of a trace *)

(** The semaphores posted by the cascade. *)
Fixpoint posts (tr : list event) : list Z :=
  match tr with
  | [] => []
  | EvPost _ n :: tr' => n :: posts tr'
  | _ :: tr' => posts tr'
  end.

(** The workers woken from their semaphore. *)
Fixpoint wakes (tr : list event) : list Z :=
  match tr with
  | [] => []
  | EvWake t :: tr' => t :: wakes tr'
  | _ :: tr' => wakes tr'
  end.

(** The workers that signalled the end of their round on the barrier. *)
Fixpoint dones (tr : list event) : list Z :=
  match tr with
  | [] => []
  | EvDone t :: tr' => t :: dones tr'
  | _ :: tr' => dones tr'
  end.

(** The workers that signalled ready on the barrier. *)
Fixpoint readies (tr : list event) : list Z :=
  match tr with
  | [] => []
  | EvReady t :: tr' => t :: readies tr'
  | _ :: tr' => readies tr'
  end.

(** The work items worker [t] has called, the last one first. *)
Fixpoint execs (t : Z) (tr : list event) : list Z :=
  match tr with
  | [] => []
  | EvExec t' p :: tr' => if t' =? t then p :: execs t tr' else execs t tr'
  | _ :: tr' => execs t tr'
  end.

(** The slots whose thread was created, and those whose thread has drawn
    its id. *)
Fixpoint creates (tr : list event) : list Z :=
  match tr with
  | [] => []
  | EvCreate i :: tr' => i :: creates tr'
  | _ :: tr' => creates tr'
  end.

Fixpoint assigns (tr : list event) : list Z :=
  match tr with
  | [] => []
  | EvAssign i _ :: tr' => i :: assigns tr'
  | _ :: tr' => assigns tr'
  end.

(** The semaphores posted by the destructor and the slots it has joined. *)
Fixpoint kicks (tr : list event) : list Z :=
  match tr with
  | [] => []
  | EvKick i :: tr' => i :: kicks tr'
  | _ :: tr' => kicks tr'
  end.

Fixpoint joins (tr : list event) : list Z :=
  match tr with
  | [] => []
  | EvJoin i :: tr' => i :: joins tr'
  | _ :: tr' => joins tr'
  end.

(** The events of worker [t] during its initialisation, the last first. *)
Fixpoint inits (t : Z) (tr : list event) : list event :=
  match tr with
  | [] => []
  | e :: tr' =>
      match e with
      | EvInitTID t' | EvInitPTS t' | EvBind t' _ | EvReady t' =>
          if t' =? t then e :: inits t tr' else inits t tr'
      | _ => inits t tr'
      end
  end.

Definition tid_of (pc : thread_pc) : option Z :=
  match pc with
  | TNone | TStart | TExit => None
  | TInit t | TReady t | TLoop t | TAcquire t | TCascade t _
  | TPrefix t | TWork t _ | TSuffix t | TSignal t => Some t
  end.

Definition parked (pc : thread_pc) : bool :=
  match pc with
  | TLoop _ | TAcquire _ => true
  | _ => false
  end.

Definition starting_up (pc : thread_pc) : bool :=
  match pc with
  | TNone | TStart | TInit _ | TReady _ | TLoop _ | TAcquire _ => true
  | _ => false
  end.

(** A step taken inside the pool's code: by the main thread or by a
    spawned thread, not a new call and not the destructor. *)
Definition inner (a : action) : Prop :=
  match a with
  | AMain | AThread _ => True
  | _ => False
  end.

(** ** Schedules that exercise the pool

    A pool of one thread is built and runs an empty round; a pool of three
    threads is built (slot 1 draws id 2, slot 2 draws id 1), runs the items
    10 and 11 on two workers, and is destroyed. *)

Module Demo.

Definition env : string -> bool := fun _ => false.

Definition build1 : list action := repeat AMain 6.

Definition round1 : list action := build1 ++ [ACall 1 0 0] ++ repeat AMain 13.

Definition build3 : list action :=
  repeat AMain 7 ++
  [AThread 2; AThread 1; AThread 1; AThread 2; AThread 1; AThread 2;
   AMain; AThread 1; AThread 2].


Definition round3 : list action :=
  build3 ++ [ACall 2 10 12] ++ repeat AMain 7 ++ repeat (AThread 2) 12 ++
  repeat AMain 8.

Definition waiting3 : list action :=
  build3 ++ [ACall 2 10 12] ++ repeat AMain 12.

Definition destroy3 : list action := round3 ++ [ADestroy] ++ repeat AMain 7.

Definition end3 : list action :=
  destroy3 ++ repeat (AThread 1) 10 ++ repeat (AThread 2) 10 ++
  repeat AMain 3.

(** A pool of four threads, every slot with the id of its number, and a
    round of four workers on the items 10 and 11: [mid4] stops when worker 1
    has left its cascade, [round4] at the return. *)
Definition build4 : list action :=
  repeat AMain 8 ++ repeat (AThread 1) 3 ++ repeat (AThread 2) 3 ++
  repeat (AThread 3) 3 ++ [AMain; AThread 1; AThread 2; AThread 3].

Definition mid4 : list action :=
  build4 ++ [ACall 4 10 12] ++ repeat AMain 12 ++ repeat (AThread 1) 4.

Definition round4 : list action :=
  build4 ++ [ACall 4 10 12] ++ repeat AMain 12 ++ repeat (AThread 1) 12 ++
  repeat (AThread 2) 12 ++ repeat (AThread 3) 12 ++ repeat AMain 3.

End Demo.

Section ThreadPool.

(** [LL::getMaxThreads()], kept by the base class as [maxThreads]. *)
Variable maxThreads : Z.
(** [LL::EnvCheck]: is the variable set. *)
Variable EnvCheck : string -> bool.

(** The events of [initThread(tid)] before its [started.release()]. *)
Definition initThread (tid : Z) : list event :=
  [EvInitTID tid; EvInitPTS tid] ++
  (if negb (EnvCheck "GALOIS_DO_NOT_BIND_THREADS") then
     if negb (tid =? 0) || negb (EnvCheck "GALOIS_DO_NOT_BIND_MAIN_THREAD")
     then [EvBind tid tid] else []
   else []).

(** [unsigned n = tid * multiple + i], with [multiple = 2]. *)
Definition child (tid i : Z) : Z := wrap32 (wrap32 (tid * 2) + i).

(** One iteration of the loop of [cascade(tid)]. *)
Definition cascade (tid i : Z) (s : pool) : pool :=
  let n := child tid i in
  if n <? starting s
  then emit (EvPost tid n) (set_starts (upd (starts s) n (S (starts s n))) s)
  else s.

(** [++i; i <= multiple]: the next iteration, if there is one. *)
Definition cascade_next (i : Z) : option Z :=
  if wrap32 (i + 1) <=? 2 then Some (wrap32 (i + 1)) else None.

(** One step of [doWork] by worker [tid]; [None] when it returns. *)
Definition doWork (tid : Z) (w : work_pc) (s : pool) : pool * option work_pc :=
  match w with
  | WReadBegin => (s, Some (WReadEnd (workBegin s)))
  | WReadEnd p => (s, Some (WLoop p (workEnd s)))
  | WLoop p e =>
      if p =? e then (s, None)
      else (emit (EvExec tid p) s, Some (WLoop (p + 1) e))
  end.

Definition barrier_release (s : pool) : pool :=
  set_started (ThinBarrier.release (started s) 1) s.

(** [num = std::min(std::max(num, 1U), maxThreads)] *)
Definition sanitize (n : Z) : Z := Z.min (Z.max n 1) maxThreads.

(** The next step of the thread in slot [j]. *)
Definition step_thread (j : Z) (s : pool) : option pool :=
  match thr s j with
  | TNone => None
  | TStart =>
      let tid := wrap32 (next s + 1) in
      Some (goto j (TInit tid) (emit (EvAssign j tid) (set_next tid s)))
  | TInit tid => Some (goto j (TReady tid) (emits (initThread tid) s))
  | TReady tid => Some (goto j (TLoop tid) (emit (EvReady tid) (barrier_release s)))
  | TLoop tid =>
      Some (goto j (if shutdown s then TExit else TAcquire tid) s)
  | TAcquire tid =>
      match starts s tid with
      | O => None
      | S v =>
          Some (goto j (TCascade tid 1)
                  (emit (EvWake tid) (set_starts (upd (starts s) tid v) s)))
      end
  | TCascade tid i =>
      Some (goto j (match cascade_next i with
                    | Some i' => TCascade tid i'
                    | None => TPrefix tid
                    end) (cascade tid i s))
  | TPrefix tid =>
      Some (goto j (TWork tid WReadBegin)
              (if tid =? 0 then s else emit (EvBeginSampling tid) s))
  | TWork tid w =>
      let (s', w') := doWork tid w s in
      Some (goto j (match w' with
                    | Some w'' => TWork tid w''
                    | None => TSuffix tid
                    end) s')
  | TSuffix tid =>
      Some (goto j (TSignal tid)
              (if tid =? 0 then s else emit (EvEndSampling tid) s))
  | TSignal tid => Some (goto j (TLoop tid) (emit (EvDone tid) (barrier_release s)))
  | TExit => None
  end.

(** The next step of the main thread inside [runInternal]. *)
Definition step_run (c : call) (pc : run_pc) (s : pool) : option pool :=
  let at_ pc' s' := Some (set_mainpc (MRun c pc') s') in
  match pc with
  | RStoreStarting => at_ RStoreBegin (emit (EvStoreStarting (num c)) (set_starting (num c) s))
  | RStoreBegin => at_ RStoreEnd (emit (EvStoreBegin (wbegin c)) (set_workBegin (wbegin c) s))
  | RStoreEnd => at_ RFence (emit (EvStoreEnd (wend c)) (set_workEnd (wend c) s))
  | RFence => at_ RReset (emit EvFence s)
  | RReset => at_ (RCascade 1) (emit EvReset (set_started (ThinBarrier.reset (started s)) s))
  | RCascade i =>
      at_ (match cascade_next i with
           | Some i' => RCascade i'
           | None => RWork WReadBegin
           end) (cascade 0 i s)
  | RWork w =>
      let (s', w') := doWork 0 w s in
      at_ (match w' with
           | Some w'' => RWork w''
           | None => RWait
           end) s'
  | RWait =>
      if ThinBarrier.passes (started s) (sint32 (wrap32 (num c - 1)))
      then at_ RClearEnd s else None
  | RClearEnd => at_ RClearBegin (emit (EvStoreEnd 0) (set_workEnd 0 s))
  | RClearBegin =>
      Some (set_mainpc (MIdle (Some c))
              (emit (EvStoreBegin (workEnd s)) (set_workBegin (workEnd s) s)))
  end.

(** The next step of the main thread inside the destructor. *)
Definition step_dtor (pc : dtor_pc) (s : pool) : option pool :=
  let at_ pc' s' := Some (set_mainpc (MDtor pc') s') in
  match pc with
  | DShutdown => at_ DClearEnd (emit EvShutdown (set_shutdown true s))
  | DClearEnd => at_ DClearBegin (emit (EvStoreEnd 0) (set_workEnd 0 s))
  | DClearBegin => at_ DFence (emit (EvStoreBegin (workEnd s)) (set_workBegin (workEnd s) s))
  | DFence => at_ (DRelease 1) (emit EvFence s)
  | DRelease i =>
      if i <? maxThreads
      then at_ (DRelease (wrap32 (i + 1)))
             (emit (EvKick i) (set_starts (upd (starts s) i (S (starts s i))) s))
      else at_ (DJoin 1) s
  | DJoin i =>
      if i <? maxThreads
      then match thr s i with
           | TExit => at_ (DJoin (wrap32 (i + 1))) (emit (EvJoin i) s)
           | _ => None
           end
      else Some (set_mainpc MDead s)
  end.

(** The next step of the main thread. *)
Definition step_main (s : pool) : option pool :=
  match mainpc s with
  | MCtor =>
      Some (set_mainpc MInit
              (set_workEnd 0 (set_workBegin 0 (set_shutdown false
                 (set_started (ThinBarrier.ctor (started s) 0) s)))))
  | MInit => Some (set_mainpc MReady (emits (initThread 0) s))
  | MReady => Some (set_mainpc MAlloc (emit (EvReady 0) (barrier_release s)))
  | MAlloc => Some (set_mainpc (MCreate 1) (set_starts (fun _ => O) s))
  | MCreate i =>
      if i <? maxThreads
      then Some (set_mainpc (MCreate (wrap32 (i + 1)))
                   (goto i TStart (emit (EvCreate i) s)))
      else Some (set_mainpc MWaitReady s)
  | MWaitReady =>
      if ThinBarrier.passes (started s) (sint32 maxThreads)
      then Some (set_mainpc (MIdle None) s) else None
  | MIdle _ => None
  | MRun c pc => step_run c pc s
  | MDtor pc => step_dtor pc s
  | MDead => None
  end.

Definition is_unsigned (n : Z) : bool := (0 <=? n) && (n <? 2 ^ 32).

Definition step (a : action) (s : pool) : option pool :=
  match a with
  | ACall n b e =>
      match mainpc s with
      | MIdle _ =>
          if is_unsigned n
          then Some (set_mainpc (MRun (Call (sanitize n) b e) RStoreStarting)
                       (set_trace [] s))
          else None
      | _ => None
      end
  | ADestroy =>
      match mainpc s with
      | MIdle _ => Some (set_mainpc (MDtor DShutdown) (set_trace [] s))
      | _ => None
      end
  | AMain => step_main s
  | AThread j => step_thread j s
  end.

Fixpoint exec (sched : list action) (s : pool) : option pool :=
  match sched with
  | [] => Some s
  | a :: rest =>
      match step a s with
      | Some s' => exec rest s'
      | None => None
      end
  end.

(** The storage of the pool before its constructor runs.  [started] and
    [starting] are the members no initialiser writes. *)
Definition storage (started0 starting0 : Z) : pool :=
  Pool 0 (ThinBarrier.Make started0) false starting0 0 0 (fun _ => O)
       MCtor (fun _ => TNone) [].

(** [getSystemThreadPool]: the pool is a static object of the function, so
    its storage is zero-initialised before the constructor runs. *)
Definition getSystemThreadPool : pool := storage 0 0.

Definition reachable (s : pool) : Prop :=
  exists sched, exec sched getSystemThreadPool = Some s.

(** ** Invariants of the pool *)

(** The semaphore of worker [n] was posted that often by the cascade. *)
Definition posted (s : pool) (n : Z) : nat := cnt (posts (trace s)) n.

(** The work items of a call, the last one first. *)
Definition full (c : call) : list Z :=
  rev (seqZ (wbegin c) (Z.to_nat (wend c - wbegin c))).

(** Worker [t] stands before iteration [i] of its cascade: the children of
    the earlier iterations are posted if they are below [k], the others are
    not. *)
Definition kids (k t i : Z) (s : pool) : Prop :=
  posted s (2 * t + 1) = (if (1 <? i) && (2 * t + 1 <? k) then 1%nat else 0%nat) /\
  posted s (2 * t + 2) = (if (2 <? i) && (2 * t + 2 <? k) then 1%nat else 0%nat).

(** What a worker inside [doWork] has called so far. *)
Definition work_ok (c : call) (w : work_pc) (ex : list Z) : Prop :=
  match w with
  | WReadBegin => ex = []
  | WReadEnd p => ex = [] /\ p = wbegin c
  | WLoop p e =>
      e = wend c /\ wbegin c <= p /\
      ex = rev (seqZ (wbegin c) (Z.to_nat (p - wbegin c)))
  end.

(** How often worker [t] was woken, and how often it has signalled the end
    of its round. *)
Definition woken (s : pool) (t : Z) : nat := cnt (wakes (trace s)) t.
Definition signalled (s : pool) (t : Z) : nat := cnt (dones (trace s)) t.

(** Worker [t] was woken in this round and has not signalled yet. *)
Definition active (s : pool) (t : Z) : Prop :=
  signalled s t = O /\ starts s t = O /\ posted s t = 1%nat /\
  woken s t = 1%nat.

(** What the place of a spawned thread says during a round. *)
Definition slot_ok (c : call) (s : pool) (pc : thread_pc) : Prop :=
  match pc with
  | TNone => True
  | TLoop t | TAcquire t =>
      signalled s t = 1%nat \/
      (signalled s t = O /\ woken s t = O /\ execs t (trace s) = [] /\
       kids (num c) t 1 s)
  | TCascade t i =>
      (i = 1 \/ i = 2) /\ active s t /\ execs t (trace s) = [] /\
      kids (num c) t i s
  | TPrefix t =>
      active s t /\ execs t (trace s) = [] /\ kids (num c) t 3 s
  | TWork t w =>
      active s t /\ kids (num c) t 3 s /\ work_ok c w (execs t (trace s))
  | TSuffix t | TSignal t =>
      active s t /\ kids (num c) t 3 s /\ execs t (trace s) = full c
  | TStart | TInit _ | TReady _ | TExit => False
  end.

(** Every slot holds a thread, every thread has an id of its own. *)
Record Tids (s : pool) : Prop := {
  tids_slots : forall j, thr s j <> TNone <-> 1 <= j < maxThreads;
  tids_range : forall j t, tid_of (thr s j) = Some t -> 1 <= t < maxThreads;
  tids_inj : forall j j' t,
      tid_of (thr s j) = Some t -> tid_of (thr s j') = Some t -> j = j'
}.

(** The semaphores and the barrier during a round of [k = num c] workers. *)
Record Gates (c : call) (s : pool) : Prop := {
  g_wake : forall t, (woken s t + starts s t = posted s t)%nat;
  g_once : forall t, (posted s t <= 1)%nat;
  g_range : forall t, posted s t = 1%nat -> 1 <= t < num c;
  g_nodup : forall t, (signalled s t <= 1)%nat;
  g_done : forall t, signalled s t = 1%nat ->
      posted s t = 1%nat /\ starts s t = O /\ execs t (trace s) = full c;
  g_idle : forall t, t <> 0 -> woken s t = O -> execs t (trace s) = []
}.

(** The descriptor, by the place of the main thread; [None] stands for
    the return of [runInternal]. *)
Definition desc_ok (c : call) (pc : option run_pc) (s : pool) : Prop :=
  match pc with
  | Some RStoreStarting | Some RStoreBegin | None =>
      workBegin s = 0 /\ workEnd s = 0
  | Some RStoreEnd | Some RClearBegin =>
      workBegin s = wbegin c /\ workEnd s = 0
  | Some _ => workBegin s = wbegin c /\ workEnd s = wend c
  end.

Definition silent (s : pool) : Prop :=
  posts (trace s) = [] /\ dones (trace s) = [] /\ wakes (trace s) = [] /\
  forall t, execs t (trace s) = [].

Definition counted (s : pool) : Prop :=
  ThinBarrier.started (started s) = Z.of_nat (length (dones (trace s))).

Definition all_done (c : call) (s : pool) : Prop :=
  forall t, 1 <= t < num c -> signalled s t = 1%nat.

(** What the place of the main thread says during a round. *)
Definition main_ok (c : call) (pc : option run_pc) (s : pool) : Prop :=
  match pc with
  | Some RStoreStarting => silent s
  | Some RStoreBegin | Some RStoreEnd | Some RFence | Some RReset =>
      silent s /\ starting s = num c
  | Some (RCascade i) =>
      (i = 1 \/ i = 2) /\ kids (num c) 0 i s /\ execs 0 (trace s) = [] /\
      starting s = num c /\ counted s
  | Some (RWork w) =>
      kids (num c) 0 3 s /\ work_ok c w (execs 0 (trace s)) /\
      starting s = num c /\ counted s
  | Some RWait =>
      kids (num c) 0 3 s /\ execs 0 (trace s) = full c /\
      starting s = num c /\ counted s
  | Some RClearEnd | Some RClearBegin | None =>
      kids (num c) 0 3 s /\ execs 0 (trace s) = full c /\
      starting s = num c /\ counted s /\ all_done c s
  end.

(** Is a woken worker possible at this place of the main thread. *)
Definition running (pc : option run_pc) : bool :=
  match pc with
  | Some (RCascade _) | Some (RWork _) | Some RWait => true
  | _ => false
  end.

Record InvRun (c : call) (pc : option run_pc) (s : pool) : Prop := {
  ir_num : 1 <= num c <= maxThreads;
  ir_tids : Tids s;
  ir_shutdown : shutdown s = false;
  ir_desc : desc_ok c pc s;
  ir_gates : Gates c s;
  ir_slots : forall j, slot_ok c s (thr s j);
  ir_main : main_ok c pc s
}.

(** During construction: the slots below [cb] are created, [main_ready]
    tells whether worker 0 has signalled. *)
Record InvCtor (cb : Z) (main_ready : bool) (s : pool) : Prop := {
  ic_cb : 1 <= cb <= maxThreads;
  ic_slots : forall j, thr s j <> TNone <-> 1 <= j < cb;
  ic_pcs : forall j, starting_up (thr s j) = true;
  ic_tids : forall j t, tid_of (thr s j) = Some t -> 1 <= t <= next s;
  ic_inj : forall j j' t,
      tid_of (thr s j) = Some t -> tid_of (thr s j') = Some t -> j = j';
  ic_next : next s = Z.of_nat (length (assigns (trace s)));
  ic_assigns_nodup : NoDup (assigns (trace s));
  ic_assigns : forall j, In j (assigns (trace s)) ->
      1 <= j < cb /\ thr s j <> TStart;
  ic_started :
      ThinBarrier.started (started s) = Z.of_nat (length (readies (trace s)));
  ic_readies_nodup : NoDup (readies (trace s));
  ic_readies : forall t, In t (readies (trace s)) ->
      0 <= t <= next s /\ (t = 0 -> main_ready = true) /\
      rev (inits t (trace s)) = initThread t ++ [EvReady t] /\
      forall j, thr s j <> TInit t /\ thr s j <> TReady t;
  ic_fresh : forall t, next s < t -> inits t (trace s) = [];
  ic_init : forall j t, thr s j = TInit t -> inits t (trace s) = [];
  ic_ready : forall j t,
      thr s j = TReady t -> rev (inits t (trace s)) = initThread t;
  ic_creates : creates (trace s) = rev (seqZ 1 (Z.to_nat (cb - 1)));
  ic_starts : forall t, starts s t = O;
  ic_shutdown : shutdown s = false;
  ic_work : workBegin s = 0 /\ workEnd s = 0
}.

(** The pool at rest: every thread is parked, every semaphore is zero. *)
Record Quiet (s : pool) : Prop := {
  q_tids : Tids s;
  q_parked : forall j, 1 <= j < maxThreads -> parked (thr s j) = true;
  q_starts : forall t, starts s t = O;
  q_shutdown : shutdown s = false;
  q_work : workBegin s = 0 /\ workEnd s = 0
}.

(** What the constructor has achieved when it returns. *)
Record Constructed (s : pool) : Prop := {
  co_started : ThinBarrier.started (started s) = maxThreads;
  co_nodup : NoDup (readies (trace s));
  co_readies : forall t, In t (readies (trace s)) <-> 0 <= t < maxThreads;
  co_inits : forall t, 0 <= t < maxThreads ->
      rev (inits t (trace s)) = initThread t ++ [EvReady t];
  co_creates : creates (trace s) = rev (seqZ 1 (Z.to_nat (maxThreads - 1)))
}.

(** The events of the destructor itself, the last one first. *)
Fixpoint dtor_events (tr : list event) : list event :=
  match tr with
  | [] => []
  | e :: tr' =>
      match e with
      | EvShutdown | EvStoreBegin _ | EvStoreEnd _ | EvFence
      | EvKick _ | EvJoin _ => e :: dtor_events tr'
      | _ => dtor_events tr'
      end
  end.

(** What the destructor does, in order, up to its place [pc]; [None]
    stands for its end. *)
Definition dtor_script (pc : option dtor_pc) : list event :=
  let head := [EvShutdown; EvStoreEnd 0; EvStoreBegin 0; EvFence] in
  let upto i := seqZ 1 (Z.to_nat (i - 1)) in
  match pc with
  | Some DShutdown => []
  | Some DClearEnd => [EvShutdown]
  | Some DClearBegin => [EvShutdown; EvStoreEnd 0]
  | Some DFence => [EvShutdown; EvStoreEnd 0; EvStoreBegin 0]
  | Some (DRelease i) => head ++ map EvKick (upto i)
  | Some (DJoin i) =>
      head ++ map EvKick (upto maxThreads) ++ map EvJoin (upto i)
  | None =>
      head ++ map EvKick (upto maxThreads) ++ map EvJoin (upto maxThreads)
  end.

(** Has the destructor posted the semaphore of worker [t]. *)
Definition kicked (pc : option dtor_pc) (t : Z) : Prop :=
  match pc with
  | Some (DRelease i) => t < i
  | Some (DJoin _) | None => True
  | _ => False
  end.

Definition dtor_index (pc : option dtor_pc) : Prop :=
  match pc with
  | Some (DRelease i) | Some (DJoin i) => 1 <= i <= maxThreads
  | _ => True
  end.

Definition joined (pc : option dtor_pc) (j : Z) : Prop :=
  match pc with
  | Some (DJoin i) => j < i
  | None => True
  | _ => False
  end.

(** What the place of a spawned thread says during destruction. *)
Definition dslot_ok (pc : option dtor_pc) (s : pool) (tpc : thread_pc) : Prop :=
  match tpc with
  | TNone | TExit | TLoop _ => True
  | TAcquire t => kicked pc t -> (1 <= starts s t)%nat
  | TCascade _ i => (i = 1 \/ i = 2) /\ shutdown s = true
  | TWork _ WReadBegin => shutdown s = true
  | TWork _ (WReadEnd p) => p = 0 /\ shutdown s = true
  | TWork _ (WLoop p e) => p = 0 /\ e = 0 /\ shutdown s = true
  | TPrefix _ | TSuffix _ | TSignal _ => shutdown s = true
  | TStart | TInit _ | TReady _ => False
  end.

Record InvDtor (pc : option dtor_pc) (s : pool) : Prop := {
  id_slots : forall j, thr s j <> TNone <-> 1 <= j < maxThreads;
  id_range : forall j t, tid_of (thr s j) = Some t -> 1 <= t < maxThreads;
  id_inj : forall j j' t,
      tid_of (thr s j) = Some t -> tid_of (thr s j') = Some t -> j = j';
  id_shutdown : pc <> Some DShutdown -> shutdown s = true;
  id_starts : shutdown s = false -> forall t, starts s t = O;
  id_work : workBegin s = 0 /\ workEnd s = 0;
  id_index : dtor_index pc;
  id_ok : forall j, dslot_ok pc s (thr s j);
  id_joined : forall j, 1 <= j < maxThreads -> joined pc j -> thr s j = TExit;
  id_script : rev (dtor_events (trace s)) = dtor_script pc
}.

Definition Inv (s : pool) : Prop :=
  match mainpc s with
  | MCtor | MInit => InvCtor 1 false s /\ inits 0 (trace s) = []
  | MReady => InvCtor 1 false s /\ rev (inits 0 (trace s)) = initThread 0
  | MAlloc => InvCtor 1 true s
  | MCreate i => InvCtor i true s
  | MWaitReady => InvCtor maxThreads true s
  | MIdle None => Quiet s /\ Constructed s
  | MIdle (Some c) => InvRun c None s
  | MRun c pc => InvRun c (Some pc) s
  | MDtor pc => InvDtor (Some pc) s
  | MDead => InvDtor None s
  end.

Definition in_ctor (pc : main_pc) : bool :=
  match pc with
  | MCtor | MInit | MReady | MAlloc | MCreate _ | MWaitReady => true
  | _ => false
  end.

(** The main thread is inside the call [c] of [runInternal], or has just
    returned from it. *)
Definition in_round (c : call) (s : pool) : Prop :=
  (exists pc, mainpc s = MRun c pc) \/ mainpc s = MIdle (Some c).

Definition returned (c : call) (s : pool) : Prop := mainpc s = MIdle (Some c).

(** How many steps the thread at [pc] can still take once the destructor
    has started ([sd] is the shutdown flag), and how many the destructor
    can. *)
Definition thread_left (sd : bool) (pc : thread_pc) : nat :=
  match pc with
  | TNone | TExit | TStart | TInit _ | TReady _ => 0
  | TLoop _ => if sd then 1 else 12
  | TAcquire _ => 11
  | TCascade _ i => if i =? 1 then 10 else 9
  | TPrefix _ => 8
  | TWork _ WReadBegin => 7
  | TWork _ (WReadEnd _) => 6
  | TWork _ (WLoop _ _) => 5
  | TSuffix _ => 4
  | TSignal _ => 3
  end.

Definition main_left (pc : option dtor_pc) : nat :=
  let m := Z.to_nat maxThreads in
  match pc with
  | Some DShutdown => 2 * m + 7
  | Some DClearEnd => 2 * m + 6
  | Some DClearBegin => 2 * m + 5
  | Some DFence => 2 * m + 4
  | Some (DRelease i) => Z.to_nat (maxThreads - i) + m + 3
  | Some (DJoin i) => Z.to_nat (maxThreads - i) + 1
  | None => 0
  end.

Definition threads_left (s : pool) : nat :=
  list_sum (map (fun j => thread_left (shutdown s) (thr s j))
              (seqZ 1 (Z.to_nat (maxThreads - 1)))).

Definition dtor_place (s : pool) : option (option dtor_pc) :=
  match mainpc s with
  | MDtor pc => Some (Some pc)
  | MDead => Some None
  | _ => None
  end.

Definition dtor_left (s : pool) : nat :=
  match dtor_place s with
  | Some pc => main_left pc + threads_left s
  | None => 0
  end.

(** ** The way to the end of a round *)

(** The children of worker [t] below [num c] are posted, the others not. *)
Definition children_posted (c : call) (s : pool) (t : Z) : Prop :=
  posted s (2 * t + 1) = (if 2 * t + 1 <? num c then 1%nat else 0%nat) /\
  posted s (2 * t + 2) = (if 2 * t + 2 <? num c then 1%nat else 0%nat).

(** The thread has left [cascade] and not yet signalled. *)
Definition past_cascade (pc : thread_pc) : bool :=
  match pc with
  | TPrefix _ | TWork _ _ | TSuffix _ | TSignal _ => true
  | _ => false
  end.

(** The main thread has left [cascade(0)]. *)
Definition after_cascade (pc : run_pc) : bool :=
  match pc with
  | RWork _ | RWait | RClearEnd | RClearBegin => true
  | _ => false
  end.

(** The loop of [doWork] has not passed the end of the range. *)
Definition bounded (c : call) (w : work_pc) : Prop :=
  match w with
  | WLoop p _ => p <= wend c
  | _ => True
  end.

(** The place inside [doWork] that one step leads to from [w0], [we]
    being the value of [workEnd]. *)
Definition work_step (we : Z) (w0 w : work_pc) : Prop :=
  match w with
  | WReadBegin => False
  | WReadEnd _ => w0 = WReadBegin
  | WLoop p e =>
      (w0 = WReadEnd p /\ e = we) \/
      (exists p0, w0 = WLoop p0 e /\ p = p0 + 1 /\ p0 <> e)
  end.

(** What is kept during a round besides [InvRun]: a worker that has
    signalled has posted its children, and on a range with
    [wbegin c <= wend c] no loop of [doWork] is beyond the end. *)
Record Extra (c : call) (s : pool) : Prop := {
  x_kids : forall t, signalled s t = 1%nat -> children_posted c s t;
  x_thr : wbegin c <= wend c ->
          forall j t w, thr s j = TWork t w -> bounded c w;
  x_main : wbegin c <= wend c ->
           forall w, mainpc s = MRun c (RWork w) -> bounded c w
}.

Definition Inv2 (s : pool) : Prop :=
  match mainpc s with
  | MRun c _ => Extra c s
  | _ => True
  end.

(** The steps [doWork] still takes. *)
Definition work_left (c : call) (w : work_pc) : nat :=
  match w with
  | WReadBegin => Z.to_nat (wend c - wbegin c) + 3
  | WReadEnd _ => Z.to_nat (wend c - wbegin c) + 2
  | WLoop p e => Z.to_nat (e - p) + 1
  end.

(** The steps a worker that has not signalled takes until it has, and
    those the main thread takes until [runInternal] returns. *)
Definition thread_path (c : call) (pc : thread_pc) : nat :=
  match pc with
  | TLoop _ => Z.to_nat (wend c - wbegin c) + 11
  | TAcquire _ => Z.to_nat (wend c - wbegin c) + 10
  | TCascade _ i =>
      if i =? 1 then Z.to_nat (wend c - wbegin c) + 9
      else Z.to_nat (wend c - wbegin c) + 8
  | TPrefix _ => Z.to_nat (wend c - wbegin c) + 7
  | TWork _ w => work_left c w + 3
  | TSuffix _ => 3
  | TSignal _ => 2
  | _ => 0
  end.

Definition thread_todo (c : call) (s : pool) (pc : thread_pc) : nat :=
  match tid_of pc with
  | Some t =>
      match signalled s t with
      | O => thread_path c pc
      | S _ => O
      end
  | None => O
  end.

Definition run_path (c : call) (pc : run_pc) : nat :=
  match pc with
  | RStoreStarting => Z.to_nat (wend c - wbegin c) + 14
  | RStoreBegin => Z.to_nat (wend c - wbegin c) + 13
  | RStoreEnd => Z.to_nat (wend c - wbegin c) + 12
  | RFence => Z.to_nat (wend c - wbegin c) + 11
  | RReset => Z.to_nat (wend c - wbegin c) + 10
  | RCascade i =>
      if i =? 1 then Z.to_nat (wend c - wbegin c) + 9
      else Z.to_nat (wend c - wbegin c) + 8
  | RWork w => work_left c w + 4
  | RWait => 4
  | RClearEnd => 3
  | RClearBegin => 2
  end.

Definition round_left (c : call) (s : pool) : nat :=
  match mainpc s with
  | MRun _ pc =>
      run_path c pc +
      list_sum (map (fun j => thread_todo c s (thr s j))
                    (seqZ 1 (Z.to_nat (maxThreads - 1))))
  | _ => O
  end.

(** ** Marks of the proof automation

    Each is the true proposition; a hypothesis of one of these forms tells
    the tactics what they have already looked at. *)

Definition skip (x : Z) : Prop := True.
Definition slotv (x : Z) : Prop := True.
Definition inst_mark {A B : Type} (h : A) (q : B) : Prop := True.
Definition tried {A : Type} (h : A) : Prop := True.

(** ** Lists of addresses and ids *)

Lemma seqZ_length b n : length (seqZ b n) = n.
Proof. unfold seqZ. now rewrite length_map, length_seq. Qed.

Lemma seqZ_In b n x : In x (seqZ b n) <-> b <= x < b + Z.of_nat n.
Proof.
  unfold seqZ. rewrite in_map_iff. split.
  - intros [i [<- Hi]]. apply in_seq in Hi. lia.
  - intros Hx. exists (Z.to_nat (x - b)). split; [lia|].
    apply in_seq. lia.
Qed.

Lemma seqZ_NoDup b n : NoDup (seqZ b n).
Proof.
  unfold seqZ. apply NoDup_map_NoDup_ForallPairs.
  - intros i j _ _ Hij. lia.
  - apply seq_NoDup.
Qed.

Lemma seqZ_snoc b n : seqZ b (S n) = seqZ b n ++ [b + Z.of_nat n].
Proof. unfold seqZ. rewrite seq_S, map_app. reflexivity. Qed.

Lemma seqZ_step b p :
  b <= p ->
  rev (seqZ b (Z.to_nat (p + 1 - b))) = p :: rev (seqZ b (Z.to_nat (p - b))).
Proof.
  intros Hp. replace (Z.to_nat (p + 1 - b)) with (S (Z.to_nat (p - b))) by lia.
  rewrite seqZ_snoc, rev_app_distr. simpl. f_equal. lia.
Qed.

(** A duplicate-free list of ids drawn from [a, b) has at most [b - a]
    members, and has them all when it has that many. *)
Lemma NoDup_range_length (l : list Z) a b :
  NoDup l -> (forall x, In x l -> a <= x < b) ->
  Z.of_nat (length l) <= Z.max 0 (b - a).
Proof.
  intros Hnd Hin.
  assert (Hle : (length l <= length (seqZ a (Z.to_nat (b - a))))%nat).
  { apply NoDup_incl_length; [assumption|].
    intros x Hx. apply seqZ_In. specialize (Hin x Hx). lia. }
  rewrite seqZ_length in Hle. lia.
Qed.

Lemma NoDup_range_full (l : list Z) a b :
  NoDup l -> (forall x, In x l -> a <= x < b) ->
  b - a <= Z.of_nat (length l) ->
  forall x, a <= x < b -> In x l.
Proof.
  intros Hnd Hin Hlen x Hx.
  assert (Hincl : incl (seqZ a (Z.to_nat (b - a))) l).
  { apply NoDup_length_incl; [assumption| |].
    - rewrite seqZ_length. lia.
    - intros y Hy. apply seqZ_In. specialize (Hin y Hy). lia. }
  apply Hincl, seqZ_In. lia.
Qed.

Lemma cnt_cons l x t :
  cnt (x :: l) t = if x =? t then S (cnt l t) else cnt l t.
Proof.
  unfold cnt. simpl. destruct (Z.eq_dec x t) as [->|Hne].
  - now rewrite Z.eqb_refl.
  - apply Z.eqb_neq in Hne. now rewrite Hne.
Qed.

Lemma cnt_nil t : cnt [] t = O.
Proof. reflexivity. Qed.

Lemma cnt_In l t : In t l <-> (0 < cnt l t)%nat.
Proof. unfold cnt. apply count_occ_In. Qed.

Lemma cnt_NoDup l : (forall t, (cnt l t <= 1)%nat) -> NoDup l.
Proof. intros H. apply (NoDup_count_occ Z.eq_dec). exact H. Qed.

Lemma wrap32_small x : 0 <= x < 2 ^ 32 -> wrap32 x = x.
Proof. intros H. unfold wrap32. now apply Z.mod_small. Qed.

Lemma sint32_small x : - 2 ^ 31 <= x < 2 ^ 31 -> sint32 x = x.
Proof. intros H. unfold sint32. rewrite Z.mod_small; lia. Qed.

Lemma upd_same {A} (f : Z -> A) k v : upd f k v k = v.
Proof. unfold upd. now rewrite Z.eqb_refl. Qed.

Lemma upd_other {A} (f : Z -> A) k v x : x <> k -> upd f k v x = f x.
Proof. unfold upd. intros H. apply Z.eqb_neq in H. now rewrite H. Qed.

Ltac inv_step H :=
  repeat match type of H with
  | Some _ = Some _ => injection H as H; subst
  | None = Some _ => discriminate H
  | (if ?b then _ else _) = Some _ => destruct b eqn:?
  | (match ?x with _ => _ end) = Some _ => destruct x eqn:?
  | (let (_, _) := ?x in _) = Some _ => destruct x eqn:?
  end.

(** ** The steps of the pool, by thread *)

Hypothesis maxThreads_range : 1 <= maxThreads < 2 ^ 31.

Lemma initThread_readies t tr : readies (rev (initThread t) ++ tr) = readies tr.
Proof.
  unfold initThread.
  destruct (EnvCheck "GALOIS_DO_NOT_BIND_THREADS"),
    (EnvCheck "GALOIS_DO_NOT_BIND_MAIN_THREAD"), (t =? 0); reflexivity.
Qed.

Lemma initThread_assigns t tr : assigns (rev (initThread t) ++ tr) = assigns tr.
Proof.
  unfold initThread.
  destruct (EnvCheck "GALOIS_DO_NOT_BIND_THREADS"),
    (EnvCheck "GALOIS_DO_NOT_BIND_MAIN_THREAD"), (t =? 0); reflexivity.
Qed.

Lemma initThread_creates t tr : creates (rev (initThread t) ++ tr) = creates tr.
Proof.
  unfold initThread.
  destruct (EnvCheck "GALOIS_DO_NOT_BIND_THREADS"),
    (EnvCheck "GALOIS_DO_NOT_BIND_MAIN_THREAD"), (t =? 0); reflexivity.
Qed.

Lemma initThread_inits t tr t' :
  inits t' (rev (initThread t) ++ tr) =
  if t' =? t then rev (initThread t) ++ inits t' tr else inits t' tr.
Proof.
  unfold initThread.
  destruct (EnvCheck "GALOIS_DO_NOT_BIND_THREADS"),
    (EnvCheck "GALOIS_DO_NOT_BIND_MAIN_THREAD"), (t =? 0); simpl;
    rewrite (Z.eqb_sym t' t); destruct (t =? t'); reflexivity.
Qed.

Create Rewrite HintDb tracedb.
Hint Rewrite initThread_readies initThread_assigns initThread_creates
  initThread_inits app_nil_r rev_involutive cnt_cons cnt_nil : tracedb.

Lemma ctor_next_bound cb mr s :
  InvCtor cb mr s -> 0 <= next s <= cb - 1.
Proof.
  intros H. rewrite (ic_next _ _ _ H).
  pose proof (NoDup_range_length (assigns (trace s)) 1 cb
                (ic_assigns_nodup _ _ _ H)) as Hlen.
  pose proof (ic_cb _ _ _ H).
  assert (forall x, In x (assigns (trace s)) -> 1 <= x < cb)
    by (intros x Hx; apply (ic_assigns _ _ _ H x Hx)).
  specialize (Hlen H1). lia.
Qed.

Ltac psimpl :=
  cbn [next started shutdown starting workBegin workEnd starts mainpc thr
       trace set_next set_started set_shutdown set_starting set_workBegin
       set_workEnd set_starts set_mainpc set_thr set_trace emit emits goto
       barrier_release
       posts wakes dones readies execs creates assigns kicks joins inits
       dtor_events tid_of parked starting_up length In
       slot_ok main_ok desc_ok running dslot_ok kicked joined dtor_index
       Z.ltb Z.compare Pos.compare Pos.compare_cont andb
       ThinBarrier.started ThinBarrier.release ThinBarrier.reset
       ThinBarrier.ctor num wbegin wend] in *.

Ltac upd_cases :=
  unfold upd in *;
  repeat match goal with
  | |- context [?x =? ?y] => destruct (Z.eqb_spec x y); subst
  | H : context [?x =? ?y] |- _ => destruct (Z.eqb_spec x y); subst
  | |- context [?x <? ?y] => destruct (Z.ltb_spec x y)
  | H : context [?x <? ?y] |- _ => destruct (Z.ltb_spec x y)
  end.

(** Mark the variables that name a slot. *)
Ltac mark_slot q :=
  is_var q;
  lazymatch goal with
  | _ : slotv q |- _ => fail
  | _ => pose proof (I : slotv q)
  end.

Ltac mark_slots :=
  repeat match goal with
  | |- context [thr _ ?q] => mark_slot q
  | _ : context [thr _ ?q] |- _ => mark_slot q
  | _ : context [In ?q (assigns _)] |- _ => mark_slot q
  | |- context [In ?q (assigns _)] => mark_slot q
  end.

(** Instantiate the quantified hypotheses: those about slots at the slots
    of the context, the others at its ids. *)
Ltac sat1 :=
  match goal with
  | H : forall x : Z, _, q : Z |- _ =>
      lazymatch goal with
      | _ : skip q |- _ => fail
      | _ : inst_mark H q |- _ => fail
      | _ => idtac
      end;
      let T := type of (H q) in
      lazymatch goal with
      | _ : slotv q |- _ =>
          lazymatch T with
          | context [thr _ q] => idtac
          end
      | _ =>
          lazymatch T with
          | context [thr _ q] => fail
          | _ => idtac
          end
      end;
      pose proof (H q); pose proof (I : inst_mark H q)
  end.
(** ... and at the terms a hypothesis of the context asks for. *)
Ltac sat2 :=
  match goal with
  | H : forall x : Z, In _ _ -> _, Hp : In _ _ |- _ =>
      lazymatch goal with
      | _ : inst_mark H Hp |- _ => fail
      | _ => idtac
      end;
      pose proof (H _ Hp); pose proof (I : inst_mark H Hp)
  end.

Ltac sat := repeat sat1; repeat sat2.

Ltac thr_rewrite :=
  repeat match goal with
  | E : thr ?s ?j = _ |- _ => progress (rewrite E in * )
  end.

Ltac arith A :=
  lazymatch A with
  | _ /\ _ => idtac
  | (_ <= _)%Z => idtac
  | (_ < _)%Z => idtac
  | (_ <= _)%nat => idtac
  | (_ < _)%nat => idtac
  | @eq Z _ _ => idtac
  | @eq nat _ _ => idtac
  | not (@eq Z _ _) => idtac
  | not (@eq nat _ _) => idtac
  end.

(** Linear arithmetic over the plain facts of the context. *)
Ltac lia_atoms :=
  repeat match goal with
  | H : ?T |- _ =>
      lazymatch T with
      | forall _, _ => clear H
      end
  end;
  lia.

Ltac quick A :=
  first [ assumption | reflexivity
        | lazymatch A with _ <> _ => discriminate end
        | arith A; solve [lia_atoms] ].

Ltac head t :=
  lazymatch t with
  | ?f _ => head f
  | _ => t
  end.

Ltac clash x y :=
  let hx := head x in
  let hy := head y in
  is_constructor hx; is_constructor hy;
  lazymatch hx with
  | hy => fail
  | _ => idtac
  end.

(** Take conjunctions, equivalences and equations of constructors apart. *)
Ltac fwd_light :=
  repeat match goal with
  | H : _ /\ _ |- _ =>
      let H1 := fresh in
      let H2 := fresh in
      pose proof (proj1 H) as H1; pose proof (proj2 H) as H2; clear H
  | H : _ <-> _ |- _ =>
      let H1 := fresh in
      let H2 := fresh in
      pose proof (proj1 H) as H1; pose proof (proj2 H) as H2; clear H
  | H : exists _, _ |- _ => destruct H
  | H : ?x = ?y |- _ =>
      let hx := head x in
      let hy := head y in
      is_constructor hx; is_constructor hy;
      first [discriminate H | inversion H; subst; clear H]
  | H : ?x = ?y -> _ |- _ => clash x y; clear H
  end.

(** ... and use every implication whose premise holds, each tried once. *)
Ltac fwd_mp :=
  repeat match goal with
  | H : ?A -> ?B |- _ =>
      lazymatch type of A with
      | Prop => idtac
      end;
      lazymatch goal with
      | _ : tried H |- _ => fail
      | _ => idtac
      end;
      first [ let HA := fresh in
              assert (HA : A) by quick A; specialize (H HA); clear HA
            | pose proof (I : tried H) ]
  end;
  repeat match goal with
  | T : tried _ |- _ => clear T
  end.

Ltac fwd :=
  fwd_light;
  repeat (progress fwd_mp; fwd_light);
  repeat match goal with
  | H : _ \/ _ |- _ => destruct H
  end.

Ltac nil_rewrite :=
  repeat match goal with
  | E : inits _ _ = [] |- _ => progress (rewrite E in * )
  | E : execs _ _ = [] |- _ => progress (rewrite E in * )
  end.

Ltac splits :=
  repeat match goal with
  | |- _ /\ _ => split
  | |- _ <-> _ => split
  | |- ~ _ => intro
  | |- _ <> _ => intro
  end.

Ltac finish :=
  solve [assumption | reflexivity | lia_atoms | discriminate | contradiction
        | constructor; assumption
        | timeout 2 eauto | timeout 2 congruence | timeout 2 tauto].

Ltac ltb_rewrite :=
  repeat match goal with
  | E : (?x <? ?y) = true |- _ => apply Z.ltb_lt in E
  | E : (?x <? ?y) = false |- _ => apply Z.ltb_ge in E
  end.

Ltac run_unfold :=
  unfold active, kids, posted, woken, signalled, counted, silent, all_done,
    work_ok, full in *.

Ltac tsimpl :=
  run_unfold; ltb_rewrite; psimpl; nil_rewrite;
  autorewrite with tracedb in *.

Ltac crush0 :=
  repeat (intros; tsimpl; upd_cases; splits); try finish.

Ltac crush :=
  crush0;
  mark_slots; sat; thr_rewrite; tsimpl; fwd_light; upd_cases;
  try solve [lia_atoms];
  repeat (progress (fwd; mark_slots; sat; thr_rewrite; tsimpl; upd_cases));
  try finish.

Lemma ctor_thread_step cb mr s j s' :
  InvCtor cb mr s -> step_thread j s = Some s' ->
  InvCtor cb mr s' /\ mainpc s' = mainpc s /\
  inits 0 (trace s') = inits 0 (trace s).
Proof.
  intros H Hs. pose proof (ctor_next_bound _ _ _ H) as Hn.
  pose proof (ic_pcs _ _ _ H j) as Hpc.
  pose proof (I : skip maxThreads). pose proof (I : skip cb).
  destruct H as [Hcb Hslots Hpcs Htids Hinj Hnext Hand Hass Hst Hrnd Hr
                 Hfresh Hinit Hready Hcr Hstarts Hsd Hwork].
  unfold step_thread in Hs.
  destruct (thr s j) eqn:Hj; try discriminate Hpc; inv_step Hs.
  - (* TStart *)
    assert (Hjr : 1 <= j < cb) by (apply Hslots; congruence).
    assert (Hnj : ~ In j (assigns (trace s))).
    { intros Hin. apply Hass in Hin. tauto. }
    assert (Hlen : Z.of_nat (length (j :: assigns (trace s))) <= Z.max 0 (cb - 1)).
    { apply NoDup_range_length.
      - constructor; assumption.
      - intros x [<-|Hx]; [lia|]. apply Hass in Hx. lia. }
    cbn [length] in Hlen.
    rewrite wrap32_small by lia.
    split; [|split; reflexivity].
    constructor; crush.
  - (* TInit *)
    assert (Ht : 1 <= tid <= next s) by (apply (Htids j); rewrite Hj; reflexivity).
    assert (Hi : inits tid (trace s) = []) by (eapply Hinit; eauto).
    split; [|split; [reflexivity|]].
    + constructor; crush.
    + crush.
  - (* TReady *)
    assert (Ht : 1 <= tid <= next s) by (apply (Htids j); rewrite Hj; reflexivity).
    assert (Hnr : ~ In tid (readies (trace s))).
    { intros Hin. apply Hr in Hin. destruct Hin as (_ & _ & _ & Hin).
      apply (Hin j). assumption. }
    assert (Hlen : Z.of_nat (length (tid :: readies (trace s))) <= Z.max 0 (maxThreads - 0)).
    { apply NoDup_range_length.
      - constructor; assumption.
      - intros x [<-|Hx]; [lia|]. apply Hr in Hx. lia. }
    cbn [length] in Hlen.
    pose proof (Hready _ _ Hj) as Hrd.
    split; [|split; [reflexivity|]].
    + constructor; crush.
      * rewrite sint32_small; lia.
      * simpl. rewrite Hrd. reflexivity.
    + crush.
  - (* TLoop *)
    rewrite Hsd. split; [|split; reflexivity].
    constructor; crush.
  - (* TAcquire *)
    rewrite Hstarts in Heqn. discriminate.
Qed.

Lemma ctor_main_step s s' :
  Inv s -> in_ctor (mainpc s) = true -> step_main s = Some s' -> Inv s'.
Proof.
  unfold Inv, step_main. intros H Hc Hs.
  pose proof (I : skip maxThreads).
  destruct (mainpc s) eqn:Hm; try discriminate Hc; clear Hc.
  - (* MCtor *)
    inv_step Hs. destruct H as [H Hi]. psimpl. split; [|assumption].
    destruct H. constructor; crush.
  - (* MInit *)
    inv_step Hs. destruct H as [H Hi]. psimpl. split; [|crush].
    pose proof (ctor_next_bound _ _ _ H) as Hn.
    destruct H. constructor; crush.
  - (* MReady *)
    inv_step Hs. destruct H as [H Hi]. psimpl.
    pose proof (ctor_next_bound _ _ _ H) as Hn.
    assert (Hnr : ~ In 0 (readies (trace s))).
    { intros Hin. apply (ic_readies _ _ _ H) in Hin.
      destruct Hin as (_ & Hin & _). specialize (Hin eq_refl). discriminate. }
    assert (Hlen : Z.of_nat (length (0 :: readies (trace s))) <= Z.max 0 (maxThreads - 0)).
    { apply NoDup_range_length.
      - constructor; [assumption|apply (ic_readies_nodup _ _ _ H)].
      - intros x [<-|Hx]; [lia|]. apply (ic_readies _ _ _ H) in Hx. lia. }
    cbn [length] in Hlen.
    destruct H. constructor; crush.
    + rewrite sint32_small; lia.
    + simpl. rewrite Hi. reflexivity.
  - (* MAlloc *)
    inv_step Hs. psimpl. destruct H. constructor; crush.
  - (* MCreate *)
    pose proof (ctor_next_bound _ _ _ H) as Hn.
    pose proof (ic_cb _ _ _ H) as Hcb.
    inv_step Hs; psimpl.
    + apply Z.ltb_lt in Heqb. rewrite wrap32_small by lia.
      assert (Hni : thr s i = TNone).
      { destruct (thr s i) eqn:E; try reflexivity;
          assert (thr s i <> TNone) as Hx by congruence;
          apply (ic_slots _ _ _ H) in Hx; lia. }
      destruct H. constructor; crush.
      rewrite seqZ_step by lia. congruence.
    + apply Z.ltb_ge in Heqb. assert (i = maxThreads) by lia. subst i.
      destruct H. constructor; assumption.
  - (* MWaitReady *)
    inv_step Hs. psimpl.
    pose proof (ctor_next_bound _ _ _ H) as Hn.
    unfold ThinBarrier.passes in Heqb.
    rewrite sint32_small in Heqb by lia.
    apply negb_true_iff, Z.ltb_ge in Heqb.
    rewrite (ic_started _ _ _ H) in Heqb.
    assert (Hrange : forall x, In x (readies (trace s)) -> 0 <= x < maxThreads).
    { intros x Hx. apply (ic_readies _ _ _ H) in Hx. lia. }
    pose proof (NoDup_range_length _ 0 maxThreads (ic_readies_nodup _ _ _ H) Hrange) as Hle.
    assert (Hall : forall t, 0 <= t < maxThreads -> In t (readies (trace s))).
    { apply NoDup_range_full; [apply (ic_readies_nodup _ _ _ H)|assumption|lia]. }
    assert (Hnext : next s = maxThreads - 1).
    { pose proof (Hall (maxThreads - 1)) as Hl.
      assert (Hl' : In (maxThreads - 1) (readies (trace s))) by (apply Hl; lia).
      apply (ic_readies _ _ _ H) in Hl'. lia. }
    assert (Hass : forall j, 1 <= j < maxThreads -> In j (assigns (trace s))).
    { apply NoDup_range_full; [apply (ic_assigns_nodup _ _ _ H)| |].
      - intros x Hx. apply (ic_assigns _ _ _ H) in Hx. lia.
      - rewrite <- (ic_next _ _ _ H). lia. }
    assert (Hpark : forall j, 1 <= j < maxThreads -> parked (thr s j) = true).
    { intros j Hj. pose proof (ic_pcs _ _ _ H j) as Hp.
      pose proof (proj2 (ic_slots _ _ _ H j) Hj) as Hnn.
      pose proof (proj2 (ic_assigns _ _ _ H j (Hass j Hj))) as Hns.
      destruct (thr s j) eqn:E; try discriminate Hp; try reflexivity;
        try congruence.
      - assert (Ht : 1 <= tid <= next s)
          by (apply (ic_tids _ _ _ H j); rewrite E; reflexivity).
        assert (Hin : In tid (readies (trace s))) by (apply Hall; lia).
        apply (ic_readies _ _ _ H) in Hin.
        destruct Hin as (_ & _ & _ & Hin). destruct (Hin j). congruence.
      - assert (Ht : 1 <= tid <= next s)
          by (apply (ic_tids _ _ _ H j); rewrite E; reflexivity).
        assert (Hin : In tid (readies (trace s))) by (apply Hall; lia).
        apply (ic_readies _ _ _ H) in Hin.
        destruct Hin as (_ & _ & _ & Hin). destruct (Hin j). congruence. }
    split.
    + constructor; [constructor| | | |]; psimpl; try apply H; try assumption.
      * intros j t Hj. apply (ic_tids _ _ _ H) in Hj. lia.
    + constructor; psimpl.
      * rewrite (ic_started _ _ _ H). lia.
      * apply H.
      * intros t. split; [apply Hrange|apply Hall].
      * intros t Ht. apply (ic_readies _ _ _ H). apply Hall. assumption.
      * apply H.
Qed.

Lemma child_small t i :
  0 <= t < maxThreads -> i = 1 \/ i = 2 -> child t i = 2 * t + i.
Proof.
  intros Ht Hi. unfold child.
  rewrite (wrap32_small (t * 2)) by lia. rewrite wrap32_small; lia.
Qed.

Lemma cascade_next_1 : cascade_next 1 = Some 2.
Proof. reflexivity. Qed.

Lemma cascade_next_2 : cascade_next 2 = None.
Proof. reflexivity. Qed.

(** The place of another thread keeps what it says when a step leaves the
    data of its worker alone. *)
Lemma slot_frame c s s' pc t :
  tid_of pc = Some t ->
  signalled s' t = signalled s t ->
  woken s' t = woken s t ->
  execs t (trace s') = execs t (trace s) ->
  posted s' (2 * t + 1) = posted s (2 * t + 1) ->
  posted s' (2 * t + 2) = posted s (2 * t + 2) ->
  (woken s t = 1%nat -> starts s' t = starts s t /\ posted s' t = posted s t) ->
  slot_ok c s pc -> slot_ok c s' pc.
Proof.
  intros Ht Hd Hw He H1 H2 Hg Hok.
  destruct pc; cbn [tid_of] in Ht; try discriminate Ht; injection Ht as ->;
    cbn [slot_ok] in *; unfold active, kids in *;
    rewrite ?Hd, ?Hw, ?He, ?H1, ?H2; try assumption.
  all: try (destruct Hok as (Hi & (Ha1 & Ha2 & Ha3 & Ha4) & Hrest);
            destruct (Hg Ha4) as [-> ->]; tauto).
  all: try (destruct Hok as ((Ha1 & Ha2 & Ha3 & Ha4) & Hrest);
            destruct (Hg Ha4) as [-> ->]; tauto).
Qed.

Lemma tids_goto s s' j pc' :
  Tids s -> (forall x, thr s' x = upd (thr s) j pc' x) ->
  tid_of pc' = tid_of (thr s j) -> tid_of pc' <> None ->
  Tids s'.
Proof.
  intros [H1 H2 H3] Hthr Ht Hn.
  assert (Hj : thr s j <> TNone).
  { intros E. rewrite E in Ht. simpl in Ht. congruence. }
  assert (Hp : pc' <> TNone).
  { intros E. rewrite E in Hn. simpl in Hn. congruence. }
  constructor.
  - intros x. rewrite Hthr. unfold upd. destruct (Z.eqb_spec x j) as [->|Hne].
    + split; [intros _; apply H1; assumption|intros _; assumption].
    + apply H1.
  - intros x t. rewrite Hthr. unfold upd.
    destruct (Z.eqb_spec x j) as [->|Hne].
    + rewrite Ht. apply H2.
    + apply H2.
  - intros x y t. rewrite !Hthr. unfold upd.
    destruct (Z.eqb_spec x j) as [->|Hx], (Z.eqb_spec y j) as [->|Hy];
      rewrite ?Ht; try apply H3; try reflexivity.
Qed.

Lemma slots_goto c s s' j t pc' :
  Tids s -> tid_of (thr s j) = Some t ->
  (forall x, thr s' x = upd (thr s) j pc' x) ->
  (forall x, slot_ok c s (thr s x)) ->
  slot_ok c s' pc' ->
  (forall t0, t0 <> t -> 1 <= t0 < maxThreads ->
     signalled s' t0 = signalled s t0 /\
     woken s' t0 = woken s t0 /\
     execs t0 (trace s') = execs t0 (trace s) /\
     posted s' (2 * t0 + 1) = posted s (2 * t0 + 1) /\
     posted s' (2 * t0 + 2) = posted s (2 * t0 + 2) /\
     (woken s t0 = 1%nat ->
      starts s' t0 = starts s t0 /\ posted s' t0 = posted s t0)) ->
  forall x, slot_ok c s' (thr s' x).
Proof.
  intros [H1 H2 H3] Hj Hthr Hok Hown Hfr x.
  rewrite Hthr. unfold upd. destruct (Z.eqb_spec x j) as [->|Hne].
  - assumption.
  - specialize (Hok x). destruct (tid_of (thr s x)) as [t0|] eqn:Et.
    + assert (Hne' : t0 <> t).
      { intros ->. apply Hne. apply (H3 x j t); assumption. }
      destruct (Hfr t0 Hne' (H2 x t0 Et)) as (F1 & F2 & F3 & F4 & F5 & F6).
      apply (slot_frame c s s' (thr s x) t0); assumption.
    + destruct (thr s x); try discriminate Et; try contradiction; exact I.
Qed.

Lemma silent_posted s t : silent s -> posted s t = O.
Proof. intros (Hs & _). unfold posted. rewrite Hs. reflexivity. Qed.

Lemma active_running c pc s t :
  InvRun c pc s -> posted s t = 1%nat -> signalled s t = O ->
  running pc = true.
Proof.
  intros [Hnum Htids Hsd Hdesc Hg Hslots Hmain] Hp Hd.
  assert (Hns : ~ silent s).
  { intros Hs. rewrite (silent_posted s t Hs) in Hp. discriminate Hp. }
  assert (Hna : ~ all_done c s).
  { intros Ha. specialize (Ha t (g_range _ _ Hg t Hp)). congruence. }
  destruct pc as [[]|]; try reflexivity; cbn [main_ok] in Hmain; tauto.
Qed.

Lemma main_frame c pc s s' :
  running pc = true ->
  posted s' 1 = posted s 1 -> posted s' 2 = posted s 2 ->
  execs 0 (trace s') = execs 0 (trace s) ->
  starting s' = starting s ->
  (counted s -> counted s') ->
  main_ok c pc s -> main_ok c pc s'.
Proof.
  intros Hr H1 H2 He Hs Hc Hm.
  destruct pc as [[]|]; try discriminate Hr; cbn [main_ok] in *;
    unfold kids in *; cbn [Z.mul Z.add Pos.mul Pos.add] in *;
    rewrite ?H1, ?H2, ?He, ?Hs; tauto.
Qed.

Ltac reframe H := destruct H; constructor; assumption.

Lemma running_main c pc s :
  running pc = true -> main_ok c pc s ->
  starting s = num c /\ counted s.
Proof.
  intros Hr Hm.
  destruct pc as [[]|]; try discriminate Hr; cbn [main_ok] in Hm; tauto.
Qed.

Lemma running_desc c pc s :
  running pc = true -> desc_ok c pc s ->
  workBegin s = wbegin c /\ workEnd s = wend c.
Proof.
  intros Hr Hm.
  destruct pc as [[]|]; try discriminate Hr; exact Hm.
Qed.

Lemma dones_length c s :
  1 <= num c -> Gates c s ->
  Z.of_nat (length (dones (trace s))) <= num c - 1.
Proof.
  intros Hk Hg.
  pose proof (NoDup_range_length (dones (trace s)) 1 (num c)) as H.
  assert (Hnd : NoDup (dones (trace s))) by (apply cnt_NoDup, (g_nodup _ _ Hg)).
  assert (Hr : forall x, In x (dones (trace s)) -> 1 <= x < num c).
  { intros x Hx. apply cnt_In in Hx. apply (g_range _ _ Hg).
    apply (g_done _ _ Hg). pose proof (g_nodup _ _ Hg x).
    unfold signalled in *. lia. }
  specialize (H Hnd Hr). lia.
Qed.

Ltac gates_at Hg n :=
  pose proof (g_wake _ _ Hg n);
  pose proof (g_once _ _ Hg n);
  pose proof (g_range _ _ Hg n);
  pose proof (g_nodup _ _ Hg n);
  pose proof (g_done _ _ Hg n);
  pose proof (g_idle _ _ Hg n).

Ltac clear_run :=
  repeat match goal with
  | H : forall j : Z, slot_ok _ _ _ |- _ => clear H
  | H : main_ok _ _ _ |- _ => clear H
  | H : desc_ok _ _ _ |- _ => clear H
  | H : forall t : Z, _ -> _ -> running _ = true |- _ => clear H
  | H : Tids _ |- _ => clear H
  | H : thr _ _ = _ |- _ => clear H
  end.

Ltac run_goal Htids Hj Hg tid :=
  lazymatch goal with
  | |- Tids _ =>
      eapply tids_goto;
      [eassumption|reflexivity|rewrite Hj; reflexivity|discriminate]
  | |- Gates _ _ => clear_run; destruct Hg; constructor; crush
  | |- forall x, slot_ok _ _ _ =>
      eapply slots_goto with (t := tid); try eassumption;
      [rewrite Hj; reflexivity|reflexivity| |];
      clear_run; clear Hg; crush
  | |- main_ok _ _ _ =>
      eapply main_frame; try eassumption; clear_run; clear Hg; crush
  | |- _ => idtac
  end.

Ltac run_case Htids Hj Hg tid :=
  constructor; try assumption; run_goal Htids Hj Hg tid.

(** What every step of a woken worker starts from. *)
Ltac run_prelude H Hj :=
  let Hown := fresh "Hown" in
  let Hrun := fresh "Hrun" in
  match type of H with
  | InvRun ?c ?pc ?s =>
      match type of Hj with
      | thr _ ?j = _ =>
          pose proof (ir_slots _ _ _ H j) as Hown;
          pose proof (fun t => active_running c pc s t H) as Hrun;
          pose proof (I : skip maxThreads);
          rewrite Hj in Hown; cbn [slot_ok] in Hown
      end
  end.

Lemma run_thread_loop c pc s j tid :
  InvRun c pc s -> thr s j = TLoop tid ->
  InvRun c pc (goto j (TAcquire tid) s).
Proof.
  intros H Hj. run_prelude H Hj.
  destruct H as [Hnum Htids Hsd Hdesc Hg Hslots Hmain].
  constructor; try assumption.
  - eapply tids_goto; [eassumption|reflexivity|rewrite Hj; reflexivity|discriminate].
  - reframe Hg.
  - eapply slots_goto with (t := tid); try eassumption;
      [rewrite Hj; reflexivity|reflexivity|exact Hown
      |intros; repeat split; reflexivity].
Qed.

Lemma run_thread_acquire c pc s j tid n :
  InvRun c pc s -> thr s j = TAcquire tid -> starts s tid = S n ->
  InvRun c pc (goto j (TCascade tid 1)
                 (emit (EvWake tid) (set_starts (upd (starts s) tid n) s))).
Proof.
  intros H Hj Heqn. run_prelude H Hj.
  destruct H as [Hnum Htids Hsd Hdesc Hg Hslots Hmain].
  assert (Ht : 1 <= tid < maxThreads)
    by (apply (tids_range _ Htids j); rewrite Hj; reflexivity).
  pose proof (g_wake _ _ Hg tid) as Hw.
  pose proof (g_once _ _ Hg tid) as Ho.
  pose proof (g_done _ _ Hg tid) as Hd.
  assert (Hfresh : signalled s tid = O /\ woken s tid = O /\
                   execs tid (trace s) = [] /\ kids (num c) tid 1 s).
  { destruct Hown as [Hx|Hx]; [|assumption].
    apply Hd in Hx. lia. }
  destruct Hfresh as (Hf1 & Hf2 & Hf3 & Hf4).
  assert (Hp : posted s tid = 1%nat) by lia.
  assert (n = O) by lia. subst n.
  specialize (Hrun tid Hp Hf1).
  run_case Htids Hj Hg tid.
Qed.

Lemma run_thread_cascade c pc s j tid i :
  InvRun c pc s -> thr s j = TCascade tid i ->
  InvRun c pc (goto j (match cascade_next i with
                       | Some i' => TCascade tid i'
                       | None => TPrefix tid
                       end) (cascade tid i s)).
Proof.
  intros H Hj. run_prelude H Hj.
  destruct H as [Hnum Htids Hsd Hdesc Hg Hslots Hmain].
  assert (Ht : 1 <= tid < maxThreads)
    by (apply (tids_range _ Htids j); rewrite Hj; reflexivity).
  destruct Hown as (Hi & Hact & Hex & Hkids).
  assert (Hr : running pc = true) by (apply (Hrun tid); apply Hact).
  destruct (running_main _ _ _ Hr Hmain) as (Hst & Hcnt).
  unfold cascade. rewrite child_small by (assumption || lia). rewrite Hst.
  gates_at Hg (2 * tid + i). gates_at Hg tid.
  destruct Hi as [-> | ->]; rewrite ?cascade_next_1, ?cascade_next_2;
    destruct (2 * tid + _ <? num c) eqn:Hlt; run_case Htids Hj Hg tid.
Qed.

Lemma gates_frame c s s' :
  posts (trace s') = posts (trace s) ->
  wakes (trace s') = wakes (trace s) ->
  dones (trace s') = dones (trace s) ->
  (forall t, execs t (trace s') = execs t (trace s)) ->
  (forall t, starts s' t = starts s t) ->
  Gates c s -> Gates c s'.
Proof.
  intros Hp Hw Hd He Hs [G1 G2 G3 G4 G5 G6].
  constructor; unfold posted, woken, signalled in *; intros t;
    rewrite ?Hp, ?Hw, ?Hd, ?He, ?Hs; auto.
Qed.

(** A step that changes the place of its thread and nothing else that the
    invariant of a round looks at. *)
Ltac run_same Htids Hj Hg tid :=
  constructor; try assumption;
  lazymatch goal with
  | |- Tids _ =>
      eapply tids_goto;
      [eassumption|reflexivity|rewrite Hj; reflexivity|discriminate]
  | |- Gates _ _ =>
      eapply gates_frame; [..|eassumption]; intros; reflexivity
  | |- forall x, slot_ok _ _ _ =>
      eapply slots_goto with (t := tid); try eassumption;
      [rewrite Hj; reflexivity|reflexivity|
      |intros; repeat split; reflexivity]
  | |- _ => idtac
  end.

Lemma run_thread_prefix c pc s j tid :
  InvRun c pc s -> thr s j = TPrefix tid ->
  InvRun c pc (goto j (TWork tid WReadBegin)
                 (if tid =? 0 then s else emit (EvBeginSampling tid) s)).
Proof.
  intros H Hj. run_prelude H Hj.
  destruct H as [Hnum Htids Hsd Hdesc Hg Hslots Hmain].
  assert (Ht : 1 <= tid < maxThreads)
    by (apply (tids_range _ Htids j); rewrite Hj; reflexivity).
  destruct (Z.eqb_spec tid 0) as [->|_]; [lia|].
  destruct Hown as (Hact & Hex & Hkids).
  run_same Htids Hj Hg tid.
  psimpl. cbn [work_ok]. tauto.
Qed.

Lemma run_thread_work c pc s j tid w s1 w' :
  InvRun c pc s -> thr s j = TWork tid w -> doWork tid w s = (s1, w') ->
  InvRun c pc (goto j (match w' with
                       | Some w'' => TWork tid w''
                       | None => TSuffix tid
                       end) s1).
Proof.
  intros H Hj Hw. run_prelude H Hj.
  destruct H as [Hnum Htids Hsd Hdesc Hg Hslots Hmain].
  assert (Ht : 1 <= tid < maxThreads)
    by (apply (tids_range _ Htids j); rewrite Hj; reflexivity).
  destruct Hown as (Hact & Hkids & Hwk).
  assert (Hr : running pc = true) by (apply (Hrun tid); apply Hact).
  destruct (running_desc _ _ _ Hr Hdesc) as (Hb & He).
  destruct w as [|p|p e]; cbn [doWork work_ok] in *.
  - injection Hw as <- <-. run_same Htids Hj Hg tid.
    psimpl. cbn [work_ok]. rewrite Hb. tauto.
  - injection Hw as <- <-. run_same Htids Hj Hg tid.
    psimpl. cbn [work_ok]. destruct Hwk as [Hex ->].
    rewrite Hex, He, Z.sub_diag. repeat split; try apply Hact; try apply Hkids; lia.
  - destruct Hwk as (-> & Hbp & Hex).
    destruct (Z.eqb_spec p (wend c)) as [->|Hne]; injection Hw as <- <-.
    + run_same Htids Hj Hg tid. psimpl. unfold full. tauto.
    + pose proof (seqZ_step (wbegin c) p Hbp) as Hstep. gates_at Hg tid.
      run_case Htids Hj Hg tid.
Qed.

Lemma run_thread_suffix c pc s j tid :
  InvRun c pc s -> thr s j = TSuffix tid ->
  InvRun c pc (goto j (TSignal tid)
                 (if tid =? 0 then s else emit (EvEndSampling tid) s)).
Proof.
  intros H Hj. run_prelude H Hj.
  destruct H as [Hnum Htids Hsd Hdesc Hg Hslots Hmain].
  assert (Ht : 1 <= tid < maxThreads)
    by (apply (tids_range _ Htids j); rewrite Hj; reflexivity).
  destruct (Z.eqb_spec tid 0) as [->|_]; [lia|].
  run_same Htids Hj Hg tid.
  psimpl. exact Hown.
Qed.

Lemma run_thread_signal c pc s j tid :
  InvRun c pc s -> thr s j = TSignal tid ->
  InvRun c pc (goto j (TLoop tid) (emit (EvDone tid) (barrier_release s))).
Proof.
  intros H Hj. run_prelude H Hj.
  destruct H as [Hnum Htids Hsd Hdesc Hg Hslots Hmain].
  assert (Ht : 1 <= tid < maxThreads)
    by (apply (tids_range _ Htids j); rewrite Hj; reflexivity).
  destruct Hown as (Hact & Hkids & Hex).
  assert (Hr : running pc = true) by (apply (Hrun tid); apply Hact).
  destruct (running_main _ _ _ Hr Hmain) as (Hst & Hcnt).
  pose proof (dones_length c s (proj1 Hnum) Hg) as Hlen.
  assert (Hcnt' : counted s ->
            counted (goto j (TLoop tid) (emit (EvDone tid) (barrier_release s)))).
  { unfold counted. psimpl. intros ->. rewrite sint32_small; lia. }
  gates_at Hg tid.
  run_case Htids Hj Hg tid.
Qed.

Lemma run_thread_step c pc s j s' :
  InvRun c pc s -> step_thread j s = Some s' -> InvRun c pc s'.
Proof.
  intros H Hs.
  pose proof (ir_slots _ _ _ H j) as Hown.
  unfold step_thread in Hs.
  destruct (thr s j) eqn:Hj; cbn [slot_ok] in Hown; try contradiction.
  - discriminate Hs.
  - rewrite (ir_shutdown _ _ _ H) in Hs. injection Hs as <-.
    apply run_thread_loop; assumption.
  - destruct (starts s tid) eqn:Hst; [discriminate Hs|]. injection Hs as <-.
    apply run_thread_acquire; assumption.
  - injection Hs as <-. apply run_thread_cascade; assumption.
  - injection Hs as <-. apply run_thread_prefix; assumption.
  - destruct (doWork tid w s) as [s1 w'] eqn:Hw. injection Hs as <-.
    eapply run_thread_work; eassumption.
  - injection Hs as <-. apply run_thread_suffix; assumption.
  - injection Hs as <-. apply run_thread_signal; assumption.
Qed.

Lemma step_thread_mainpc j s s' :
  step_thread j s = Some s' -> mainpc s' = mainpc s.
Proof.
  unfold step_thread, cascade. intros Hs.
  destruct (thr s j) as [| | | | | | | |tid w| | |]; try discriminate Hs;
    try (destruct w as [|p|p e]; cbn [doWork] in Hs; try destruct (p =? e));
    repeat match type of Hs with
    | context [match ?x with _ => _ end] => destruct x
    | context [if ?b then _ else _] => destruct b
    end;
    try discriminate Hs; injection Hs as <-; reflexivity.
Qed.

(** At rest a thread can only go from the test of its loop to its
    semaphore. *)
Lemma quiet_thread_step s j s' :
  Quiet s -> step_thread j s = Some s' ->
  Quiet s' /\ trace s' = trace s /\ started s' = started s.
Proof.
  intros [Htids Hp Hst Hsd Hw] Hs. unfold step_thread in Hs.
  assert (Hj : thr s j = TNone \/ 1 <= j < maxThreads).
  { destruct (thr s j) eqn:E; [left; reflexivity|..]; right;
      apply (tids_slots _ Htids); congruence. }
  destruct Hj as [Hj|Hj]; [rewrite Hj in Hs; discriminate Hs|].
  pose proof (Hp j Hj) as Hpj.
  destruct (thr s j) eqn:E; try discriminate Hpj.
  - rewrite Hsd in Hs. injection Hs as <-.
    split; [constructor; try assumption|split; reflexivity].
    + eapply tids_goto; [eassumption|reflexivity|rewrite E; reflexivity|discriminate].
    + intros x Hx. psimpl. unfold upd. destruct (x =? j); [reflexivity|auto].
  - rewrite Hst in Hs. discriminate Hs.
Qed.

Lemma slots_main c s s' :
  Tids s ->
  (forall x, thr s' x = thr s x) ->
  (forall x, slot_ok c s (thr s x)) ->
  (forall t0, 1 <= t0 < maxThreads ->
     signalled s' t0 = signalled s t0 /\
     woken s' t0 = woken s t0 /\
     execs t0 (trace s') = execs t0 (trace s) /\
     posted s' (2 * t0 + 1) = posted s (2 * t0 + 1) /\
     posted s' (2 * t0 + 2) = posted s (2 * t0 + 2) /\
     (woken s t0 = 1%nat ->
      starts s' t0 = starts s t0 /\ posted s' t0 = posted s t0)) ->
  forall x, slot_ok c s' (thr s' x).
Proof.
  intros [H1 H2 H3] Hthr Hok Hfr x.
  rewrite Hthr. specialize (Hok x).
  destruct (tid_of (thr s x)) as [t0|] eqn:Et.
  - destruct (Hfr t0 (H2 x t0 Et)) as (F1 & F2 & F3 & F4 & F5 & F6).
    apply (slot_frame c s s' (thr s x) t0); assumption.
  - destruct (thr s x); try discriminate Et; try contradiction; exact I.
Qed.

Lemma tids_same s s' :
  (forall x, thr s' x = thr s x) -> Tids s -> Tids s'.
Proof.
  intros Hthr [H1 H2 H3]. constructor; intros; rewrite ?Hthr in *; eauto.
Qed.

(** A step of the main thread that leaves the threads, the semaphores and
    the counted events alone. *)
Lemma run_main_frame c pc pc' s s' :
  InvRun c pc s ->
  (forall x, thr s' x = thr s x) ->
  posts (trace s') = posts (trace s) ->
  wakes (trace s') = wakes (trace s) ->
  dones (trace s') = dones (trace s) ->
  (forall t, execs t (trace s') = execs t (trace s)) ->
  (forall t, starts s' t = starts s t) ->
  shutdown s' = shutdown s ->
  desc_ok c pc' s' -> main_ok c pc' s' ->
  InvRun c pc' s'.
Proof.
  intros [Hnum Htids Hsd Hdesc Hg Hslots Hmain] Hthr Hp Hw Hd He Hs Hsh
    Hdesc' Hmain'.
  constructor; try assumption.
  - eapply tids_same; eassumption.
  - congruence.
  - eapply gates_frame; eassumption.
  - eapply slots_main; try eassumption.
    intros t0 _. unfold signalled, woken, posted.
    rewrite Hp, Hw, Hd, He, Hs. repeat split; reflexivity.
Qed.

Ltac run_main H :=
  eapply run_main_frame; [exact H|intros; reflexivity..| |].

Lemma run_main_stores c pc s s' :
  InvRun c (Some pc) s ->
  match pc with
  | RStoreStarting | RStoreBegin | RStoreEnd | RFence | RReset
  | RClearEnd | RClearBegin => True
  | _ => False
  end ->
  step_run c pc s = Some s' -> Inv s'.
Proof.
  intros H Hpc Hs. unfold Inv.
  pose proof (ir_desc _ _ _ H) as Hd. pose proof (ir_main _ _ _ H) as Hm.
  destruct pc; try contradiction; cbn [step_run] in Hs; injection Hs as <-;
    psimpl; run_main H; psimpl; unfold silent, counted, kids in *; psimpl.
  all: try tauto.
  destruct Hm as ((Hp & Hdn & Hw & He) & Hst).
  unfold posted. psimpl. rewrite Hp, Hdn, He. cbn. tauto.
Qed.

Ltac main_goal Hg :=
  lazymatch goal with
  | |- Tids _ => eapply tids_same; [|eassumption]; reflexivity
  | |- Gates _ _ => clear_run; destruct Hg; constructor; crush
  | |- forall x, slot_ok _ _ _ =>
      eapply slots_main; try eassumption; [reflexivity|];
      clear_run; clear Hg; crush
  | |- _ => clear_run; clear Hg; crush
  end.

Lemma run_main_cascade c i s :
  InvRun c (Some (RCascade i)) s ->
  InvRun c (Some (match cascade_next i with
                  | Some i' => RCascade i'
                  | None => RWork WReadBegin
                  end)) (set_mainpc (MRun c (match cascade_next i with
                  | Some i' => RCascade i'
                  | None => RWork WReadBegin
                  end)) (cascade 0 i s)).
Proof.
  intros H. pose proof (I : skip maxThreads).
  destruct H as [Hnum Htids Hsd Hdesc Hg Hslots Hmain].
  cbn [main_ok] in Hmain. destruct Hmain as (Hi & Hkids & Hex & Hst & Hcnt).
  unfold cascade. rewrite child_small by lia. rewrite Hst.
  gates_at Hg (2 * 0 + i).
  destruct Hi as [-> | ->]; rewrite ?cascade_next_1, ?cascade_next_2;
    destruct (2 * 0 + _ <? num c) eqn:Hlt;
    constructor; try assumption; main_goal Hg.
Qed.

Lemma run_main_work c w s s1 w' :
  InvRun c (Some (RWork w)) s -> doWork 0 w s = (s1, w') ->
  InvRun c (Some (match w' with
                  | Some w'' => RWork w''
                  | None => RWait
                  end)) (set_mainpc (MRun c (match w' with
                  | Some w'' => RWork w''
                  | None => RWait
                  end)) s1).
Proof.
  intros H Hw. pose proof (I : skip maxThreads).
  pose proof (ir_desc _ _ _ H) as Hdesc. pose proof (ir_main _ _ _ H) as Hmain.
  cbn [main_ok desc_ok] in *.
  destruct Hmain as (Hkids & Hwk & Hst & Hcnt). destruct Hdesc as (Hb & He).
  destruct w as [|p|p e]; cbn [doWork work_ok] in *.
  - injection Hw as <- <-. run_main H; psimpl; cbn [work_ok]; try tauto.
  - injection Hw as <- <-. destruct Hwk as [Hex ->].
    run_main H; psimpl; cbn [work_ok]; rewrite ?Hex, ?He, ?Z.sub_diag;
      repeat split; try tauto; try lia; apply Hkids.
  - destruct Hwk as (-> & Hbp & Hex).
    destruct (Z.eqb_spec p (wend c)) as [->|Hne]; injection Hw as <- <-.
    + run_main H; psimpl; unfold full; tauto.
    + pose proof (seqZ_step (wbegin c) p Hbp) as Hstep. gates_at (ir_gates _ _ _ H) 0.
      destruct H as [Hnum Htids Hsd Hdesc Hg Hslots Hmain].
      constructor; try assumption; main_goal Hg.
Qed.

Lemma run_main_wait c s :
  InvRun c (Some RWait) s ->
  ThinBarrier.passes (started s) (sint32 (wrap32 (num c - 1))) = true ->
  InvRun c (Some RClearEnd) (set_mainpc (MRun c RClearEnd) s).
Proof.
  intros H Hpass.
  pose proof (ir_num _ _ _ H) as Hnum. pose proof (ir_gates _ _ _ H) as Hg.
  pose proof (ir_main _ _ _ H) as Hmain. cbn [main_ok] in Hmain.
  destruct Hmain as (Hkids & Hex & Hst & Hcnt).
  unfold ThinBarrier.passes in Hpass.
  rewrite wrap32_small, sint32_small in Hpass by lia.
  apply negb_true_iff, Z.ltb_ge in Hpass. rewrite Hcnt in Hpass.
  assert (Hnd : NoDup (dones (trace s))) by (apply cnt_NoDup, (g_nodup _ _ Hg)).
  assert (Hr : forall x, In x (dones (trace s)) -> 1 <= x < num c).
  { intros x Hx. apply cnt_In in Hx. apply (g_range _ _ Hg).
    apply (g_done _ _ Hg). pose proof (g_nodup _ _ Hg x).
    unfold signalled in *. lia. }
  assert (Hall : all_done c s).
  { intros t Ht.
    assert (Hin : In t (dones (trace s)))
      by (apply (NoDup_range_full _ 1 (num c)); try assumption; lia).
    apply cnt_In in Hin. pose proof (g_nodup _ _ Hg t).
    unfold signalled in *. lia. }
  run_main H.
  - exact (ir_desc _ _ _ H).
  - cbn [main_ok]. repeat split; try assumption; apply Hkids.
Qed.

Lemma run_main_step c pc s s' :
  InvRun c (Some pc) s -> step_run c pc s = Some s' -> Inv s'.
Proof.
  intros H Hs.
  destruct pc;
    try (eapply run_main_stores; [exact H|exact I|exact Hs]);
    cbn [step_run] in Hs.
  - injection Hs as <-. unfold Inv. psimpl. apply run_main_cascade. exact H.
  - destruct (doWork 0 w s) as [s1 w'] eqn:Hw. injection Hs as <-.
    unfold Inv. psimpl. eapply run_main_work; eassumption.
  - destruct (ThinBarrier.passes _ _) eqn:Hp; [|discriminate Hs].
    injection Hs as <-. unfold Inv. psimpl. apply run_main_wait; assumption.
Qed.

(** Entering [runInternal] from rest. *)
Lemma quiet_call c s :
  Quiet s -> 1 <= num c <= maxThreads ->
  InvRun c (Some RStoreStarting)
    (set_mainpc (MRun c RStoreStarting) (set_trace [] s)).
Proof.
  intros [Htids Hp Hst Hsd Hw] Hnum.
  constructor; try assumption.
  - eapply tids_same; [|eassumption]; reflexivity.
  - constructor; unfold woken, posted, signalled; psimpl; intros;
      rewrite ?cnt_nil, ?Hst; try reflexivity; try lia; discriminate.
  - intros j. psimpl.
    destruct (thr s j) eqn:E; cbn [slot_ok]; try exact I;
      try (right; unfold signalled, woken, kids, posted; psimpl;
           rewrite ?cnt_nil; repeat split; reflexivity).
    all: assert (Hj : 1 <= j < maxThreads)
           by (apply (tids_slots _ Htids); congruence);
         specialize (Hp j Hj); rewrite E in Hp; discriminate Hp.
  - cbn [main_ok]. unfold silent. psimpl. repeat split; reflexivity.
Qed.

Lemma slot_active c s pc :
  slot_ok c s pc -> parked pc = false -> pc <> TNone ->
  exists t, tid_of pc = Some t /\ active s t.
Proof.
  intros Hok Hp Hn.
  destruct pc; cbn [slot_ok parked] in *; try contradiction;
    try discriminate Hp; try congruence;
    eexists; (split; [reflexivity|tauto]).
Qed.

Lemma run_quiet c s :
  InvRun c None s -> Quiet s.
Proof.
  intros [Hnum Htids Hsd Hdesc Hg Hslots Hmain].
  cbn [main_ok desc_ok] in *.
  destruct Hmain as (Hkids & Hex & Hst & Hcnt & Hall).
  assert (Hz : forall t, starts s t = O).
  { intros t. pose proof (g_wake _ _ Hg t). pose proof (g_once _ _ Hg t).
    destruct (posted s t) eqn:Ep; [lia|].
    assert (Hp1 : posted s t = 1%nat) by lia.
    pose proof (g_range _ _ Hg t Hp1) as Hr.
    apply (g_done _ _ Hg t). apply Hall. assumption. }
  constructor; try assumption.
  intros j Hj. specialize (Hslots j).
  assert (Hn : thr s j <> TNone) by (apply (tids_slots _ Htids); assumption).
  destruct (parked (thr s j)) eqn:Ep; [reflexivity|exfalso].
  destruct (slot_active _ _ _ Hslots Ep Hn) as (t & _ & Ha1 & Ha2 & Ha3 & Ha4).
  pose proof (Hall t (g_range _ _ Hg t Ha3)). congruence.
Qed.

Lemma dslot_frame pc s s' tpc :
  shutdown s' = shutdown s ->
  (forall t, tid_of tpc = Some t -> (starts s t <= starts s' t)%nat) ->
  dslot_ok pc s tpc -> dslot_ok pc s' tpc.
Proof.
  intros Hsh Hst Hok.
  destruct tpc as [| | | | | | | |t w| | |]; cbn [dslot_ok] in *;
    try destruct w; rewrite ?Hsh; try assumption.
  intros Hk. specialize (Hok Hk). specialize (Hst tid eq_refl). lia.
Qed.

Lemma dslots_goto pc s s' j t pc' :
  (forall x y u,
      tid_of (thr s x) = Some u -> tid_of (thr s y) = Some u -> x = y) ->
  tid_of (thr s j) = Some t ->
  (forall x, thr s' x = upd (thr s) j pc' x) ->
  (forall x, dslot_ok pc s (thr s x)) ->
  dslot_ok pc s' pc' ->
  shutdown s' = shutdown s ->
  (forall t0, t0 <> t -> (starts s t0 <= starts s' t0)%nat) ->
  forall x, dslot_ok pc s' (thr s' x).
Proof.
  intros Hinj Hj Hthr Hok Hown Hsh Hst x.
  rewrite Hthr. unfold upd. destruct (Z.eqb_spec x j) as [->|Hne].
  - assumption.
  - apply (dslot_frame pc s s'); [assumption| |apply Hok].
    intros t0 Et. apply Hst. intros ->. apply Hne.
    apply (Hinj x j t); assumption.
Qed.

Lemma dtor_events_initThread t tr :
  dtor_events (rev (initThread t) ++ tr) = dtor_events tr.
Proof.
  unfold initThread.
  destruct (EnvCheck "GALOIS_DO_NOT_BIND_THREADS"),
    (EnvCheck "GALOIS_DO_NOT_BIND_MAIN_THREAD"), (t =? 0); reflexivity.
Qed.

Ltac dtor_goal Hinj Hj Hok tid :=
  lazymatch goal with
  | |- forall x, dslot_ok _ _ _ =>
      eapply dslots_goto with (t := tid);
      [exact Hinj|rewrite Hj; reflexivity|reflexivity|exact Hok
      | |reflexivity| ]; crush
  | |- _ => crush
  end.

Lemma dtor_thread_step pc s j s' :
  InvDtor pc s -> step_thread j s = Some s' -> InvDtor pc s'.
Proof.
  intros H Hs.
  pose proof (id_ok _ _ H j) as Hown.
  pose proof (I : skip maxThreads).
  destruct H as [Hslots Hrange Hinj Hsd Hst Hwork Hidx Hok Hjoin Hscr].
  unfold step_thread in Hs.
  destruct (thr s j) eqn:Hj; cbn [dslot_ok] in Hown; try contradiction;
    try discriminate Hs.
  - (* TLoop *)
    injection Hs as <-.
    destruct (shutdown s) eqn:Hsh.
    + constructor; dtor_goal Hinj Hj Hok tid.
    + assert (pc = Some DShutdown).
      { destruct pc as [[]|]; try reflexivity;
          (assert (false = true) by (apply Hsd; discriminate)); discriminate. }
      subst pc. constructor; dtor_goal Hinj Hj Hok tid.
  - (* TAcquire *)
    destruct (starts s tid) eqn:Hn; [discriminate Hs|]. injection Hs as <-.
    assert (Hsh : shutdown s = true).
    { destruct (shutdown s) eqn:E; [reflexivity|].
      rewrite (Hst eq_refl tid) in Hn. discriminate Hn. }
    constructor; dtor_goal Hinj Hj Hok tid.
  - (* TCascade *)
    injection Hs as <-. destruct Hown as [Hi Hsh].
    unfold cascade.
    destruct Hi as [-> | ->]; rewrite ?cascade_next_1, ?cascade_next_2;
      destruct (child tid _ <? starting s); constructor;
      dtor_goal Hinj Hj Hok tid.
  - (* TPrefix *)
    injection Hs as <-.
    destruct (tid =? 0); constructor; dtor_goal Hinj Hj Hok tid.
  - (* TWork *)
    destruct Hwork as [Hb He].
    destruct w as [|p|p e]; cbn [doWork] in Hs.
    + injection Hs as <-. rewrite Hb. constructor; dtor_goal Hinj Hj Hok tid.
    + injection Hs as <-. rewrite He. destruct Hown as [-> Hsh].
      constructor; dtor_goal Hinj Hj Hok tid.
    + destruct Hown as (-> & -> & Hsh). cbn in Hs. injection Hs as <-.
      constructor; dtor_goal Hinj Hj Hok tid.
  - (* TSuffix *)
    injection Hs as <-.
    destruct (tid =? 0); constructor; dtor_goal Hinj Hj Hok tid.
  - (* TSignal *)
    injection Hs as <-. constructor; dtor_goal Hinj Hj Hok tid.
Qed.

Lemma dslot_main pc pc' s s' tpc :
  (shutdown s = true -> shutdown s' = true) ->
  (forall t, tid_of tpc = Some t -> 1 <= t < maxThreads ->
     kicked pc' t -> (kicked pc t /\ (starts s t <= starts s' t)%nat) \/
                     (1 <= starts s' t)%nat) ->
  (forall t, tid_of tpc = Some t -> 1 <= t < maxThreads) ->
  dslot_ok pc s tpc -> dslot_ok pc' s' tpc.
Proof.
  intros Hsh Hk Hr Hok.
  destruct tpc as [| | | | | | | |t w| | |]; cbn [dslot_ok] in *;
    try destruct w; try assumption; try tauto.
  intros Hk'. destruct (Hk tid eq_refl (Hr tid eq_refl) Hk') as [[Hk0 Hle]|Hge].
  - specialize (Hok Hk0). lia.
  - assumption.
Qed.

Lemma dtor_script_release i :
  1 <= i ->
  dtor_script (Some (DRelease i)) ++ [EvKick i] =
  dtor_script (Some (DRelease (i + 1))).
Proof.
  intros Hi. unfold dtor_script.
  replace (Z.to_nat (i + 1 - 1)) with (S (Z.to_nat (i - 1))) by lia.
  rewrite seqZ_snoc, map_app. cbn [map].
  replace (1 + Z.of_nat (Z.to_nat (i - 1))) with i by lia.
  rewrite <- !app_assoc. reflexivity.
Qed.

Lemma dtor_script_join i :
  1 <= i ->
  dtor_script (Some (DJoin i)) ++ [EvJoin i] =
  dtor_script (Some (DJoin (i + 1))).
Proof.
  intros Hi. unfold dtor_script.
  replace (Z.to_nat (i + 1 - 1)) with (S (Z.to_nat (i - 1))) by lia.
  rewrite seqZ_snoc, map_app. cbn [map].
  replace (1 + Z.of_nat (Z.to_nat (i - 1))) with i by lia.
  rewrite <- !app_assoc. reflexivity.
Qed.

Lemma dtor_main_step pc s s' :
  InvDtor (Some pc) s -> step_dtor pc s = Some s' -> Inv s'.
Proof.
  intros H Hs. unfold Inv.
  pose proof (I : skip maxThreads).
  destruct H as [Hslots Hrange Hinj Hsd Hst Hwork Hidx Hok Hjoin Hscr].
  destruct Hwork as [Hb He].
  assert (Hfr : forall pc' s',
             (forall x, thr s' x = thr s x) ->
             (shutdown s = true -> shutdown s' = true) ->
             (forall t, 1 <= t < maxThreads ->
                kicked pc' t ->
                (kicked (Some pc) t /\ (starts s t <= starts s' t)%nat) \/
                (1 <= starts s' t)%nat) ->
             forall x, dslot_ok pc' s' (thr s' x)).
  { intros pc' s1 Hthr Hsh Hk x. rewrite Hthr.
    apply (dslot_main (Some pc) pc' s s1); auto.
    intros t Et. apply (Hrange x). assumption. }
  destruct pc; cbn [step_dtor] in Hs.
  - (* DShutdown *)
    injection Hs as <-. psimpl. constructor; try apply Hfr; crush.
    cbn [rev]. rewrite Hscr. reflexivity.
  - (* DClearEnd *)
    injection Hs as <-. psimpl. constructor; try apply Hfr; crush.
    cbn [rev]. rewrite Hscr. reflexivity.
  - (* DClearBegin *)
    injection Hs as <-. psimpl. rewrite He. constructor; try apply Hfr; crush.
    cbn [rev]. rewrite Hscr. reflexivity.
  - (* DFence *)
    injection Hs as <-. psimpl. constructor; try apply Hfr; crush.
    cbn [rev]. rewrite Hscr. reflexivity.
  - (* DRelease *)
    cbn [dtor_index] in Hidx.
    destruct (Z.ltb_spec i maxThreads); injection Hs as <-; psimpl.
    + rewrite wrap32_small by lia.
      constructor; try apply Hfr; crush.
      cbn [rev]. rewrite Hscr. apply dtor_script_release. lia.
    + assert (i = maxThreads) by lia. subst i.
      constructor; try apply Hfr; crush.
      rewrite Hscr. unfold dtor_script. cbn. rewrite app_nil_r. reflexivity.
  - (* DJoin *)
    cbn [dtor_index] in Hidx.
    destruct (Z.ltb_spec i maxThreads).
    + destruct (thr s i) eqn:Hi; try discriminate Hs. injection Hs as <-.
      psimpl. rewrite wrap32_small by lia.
      constructor; try apply Hfr; crush.
      * destruct (Z.eq_dec j i); [subst; assumption|]. apply Hjoin; lia.
      * cbn [rev]. rewrite Hscr. apply dtor_script_join. lia.
    + injection Hs as <-. psimpl.
      assert (i = maxThreads) by lia. subst i.
      constructor; try apply Hfr; crush.
Qed.

Lemma quiet_destroy s :
  Quiet s ->
  InvDtor (Some DShutdown) (set_mainpc (MDtor DShutdown) (set_trace [] s)).
Proof.
  intros [[H1 H2 H3] Hp Hst Hsd Hw].
  constructor; psimpl; try assumption; try reflexivity;
    try (intros _; assumption); try (intros; tauto); try (intros; contradiction).
  intros j. destruct (thr s j) eqn:E; cbn [dslot_ok kicked]; try exact I;
    try tauto;
    assert (Hj : 1 <= j < maxThreads) by (apply H1; congruence);
    specialize (Hp j Hj); rewrite E in Hp; discriminate Hp.
Qed.

Lemma sanitize_range n : 1 <= sanitize n <= maxThreads.
Proof. unfold sanitize. lia. Qed.

Lemma idle_quiet s o : Inv s -> mainpc s = MIdle o -> Quiet s.
Proof.
  unfold Inv. intros H Hm. rewrite Hm in H. destruct o as [c|].
  - eapply run_quiet; eassumption.
  - apply H.
Qed.

Lemma Inv_thread j s s' : Inv s -> step_thread j s = Some s' -> Inv s'.
Proof.
  intros H Hs. pose proof (step_thread_mainpc _ _ _ Hs) as Hm.
  unfold Inv in *. rewrite Hm.
  destruct (mainpc s) as [| | | | | |[c|]| | |] eqn:E.
  - destruct H as [H Hi].
    destruct (ctor_thread_step _ _ _ _ _ H Hs) as (H' & _ & Hi').
    split; [assumption|congruence].
  - destruct H as [H Hi].
    destruct (ctor_thread_step _ _ _ _ _ H Hs) as (H' & _ & Hi').
    split; [assumption|congruence].
  - destruct H as [H Hi].
    destruct (ctor_thread_step _ _ _ _ _ H Hs) as (H' & _ & Hi').
    split; [assumption|congruence].
  - apply (ctor_thread_step _ _ _ _ _ H Hs).
  - apply (ctor_thread_step _ _ _ _ _ H Hs).
  - apply (ctor_thread_step _ _ _ _ _ H Hs).
  - eapply run_thread_step; eassumption.
  - destruct H as [Hq Hc].
    destruct (quiet_thread_step _ _ _ Hq Hs) as (Hq' & Ht & Hst).
    split; [assumption|].
    destruct Hc. constructor; rewrite ?Ht, ?Hst; assumption.
  - eapply run_thread_step; eassumption.
  - eapply dtor_thread_step; eassumption.
  - eapply dtor_thread_step; eassumption.
Qed.

Lemma Inv_main s s' : Inv s -> step_main s = Some s' -> Inv s'.
Proof.
  intros H Hs.
  destruct (in_ctor (mainpc s)) eqn:Ec.
  - eapply ctor_main_step; eassumption.
  - unfold step_main in Hs. unfold Inv in H.
    destruct (mainpc s) eqn:E; try discriminate Ec; try discriminate Hs.
    + eapply run_main_step; eassumption.
    + eapply dtor_main_step; eassumption.
Qed.

Lemma Inv_init : Inv getSystemThreadPool.
Proof.
  unfold Inv, getSystemThreadPool, storage. psimpl.
  split; [|reflexivity].
  constructor; psimpl; try reflexivity; try (intros; discriminate);
    try (intros; contradiction); try constructor; try lia.
  intros Hx. exfalso. apply Hx. reflexivity.
Qed.

Theorem Inv_step a s s' : Inv s -> step a s = Some s' -> Inv s'.
Proof.
  intros H Hs. destruct a as [n b e| | |j]; cbn [step] in Hs.
  - destruct (mainpc s) eqn:E; try discriminate Hs.
    destruct (is_unsigned n); [|discriminate Hs]. injection Hs as <-.
    unfold Inv. psimpl. apply quiet_call.
    + eapply idle_quiet; eassumption.
    + apply sanitize_range.
  - destruct (mainpc s) eqn:E; try discriminate Hs. injection Hs as <-.
    unfold Inv. psimpl. apply quiet_destroy. eapply idle_quiet; eassumption.
  - eapply Inv_main; eassumption.
  - eapply Inv_thread; eassumption.
Qed.

Theorem Inv_exec sched : forall s s',
  Inv s -> exec sched s = Some s' -> Inv s'.
Proof.
  induction sched as [|a rest IH]; intros s s' H Hs; cbn [exec] in Hs.
  - injection Hs as <-. assumption.
  - destruct (step a s) as [s1|] eqn:E; [|discriminate Hs].
    eapply IH; [|eassumption]. eapply Inv_step; eassumption.
Qed.

Theorem Inv_reachable s : reachable s -> Inv s.
Proof.
  intros [sched Hs]. eapply Inv_exec; [apply Inv_init|eassumption].
Qed.

(** ** What the invariants give *)

Lemma cnt_all_zero l : (forall t, cnt l t = O) -> l = [].
Proof.
  destruct l as [|x l]; [reflexivity|]. intros H. specialize (H x).
  rewrite cnt_cons, Z.eqb_refl in H. discriminate H.
Qed.

Lemma round_inv sched s c :
  exec sched getSystemThreadPool = Some s -> in_round c s ->
  exists pc, InvRun c pc s.
Proof.
  intros Hs Hr. assert (H : Inv s) by (apply Inv_reachable; eexists; eassumption).
  unfold Inv in H. destruct Hr as [[pc Hm]|Hm]; rewrite Hm in H; eauto.
Qed.

Lemma return_inv sched s c :
  exec sched getSystemThreadPool = Some s -> returned c s -> InvRun c None s.
Proof.
  intros Hs Hr. assert (H : Inv s) by (apply Inv_reachable; eexists; eassumption).
  unfold Inv in H. unfold returned in Hr. rewrite Hr in H. assumption.
Qed.

Lemma cascade_posts t i st :
  posts (trace (cascade t i st)) =
  if child t i <? starting st then child t i :: posts (trace st)
  else posts (trace st).
Proof. unfold cascade. destruct (child t i <? starting st); reflexivity. Qed.

(** C2: when [runInternal] returns from the call [c], every worker below
    [num c] has called the work items of [wbegin c, wend c) in order, each
    once, the workers outside have called none, and the descriptor is
    cleared. *)
Theorem run_executes_all sched s c :
  exec sched getSystemThreadPool = Some s -> returned c s ->
  starting s = num c /\ 1 <= num c <= maxThreads /\
  (forall t, 0 <= t < num c ->
     rev (execs t (trace s)) =
     seqZ (wbegin c) (Z.to_nat (wend c - wbegin c))) /\
  (forall t, ~ 0 <= t < num c -> execs t (trace s) = []) /\
  workBegin s = 0 /\ workEnd s = 0.
Proof.
  intros Hs Hret. pose proof (return_inv _ _ _ Hs Hret) as H.
  pose proof (ir_gates _ _ _ H) as Hg. pose proof (ir_num _ _ _ H) as Hnum.
  pose proof (ir_main _ _ _ H) as Hm. cbn [main_ok] in Hm.
  destruct Hm as (_ & Hex & Hst & _ & Hall).
  pose proof (ir_desc _ _ _ H) as Hd. cbn [desc_ok] in Hd.
  split; [assumption|]. split; [apply (ir_num _ _ _ H)|].
  split.
  { intros t Ht. assert (E : execs t (trace s) = full c).
    { destruct (Z.eq_dec t 0) as [->|Hne]; [assumption|].
      apply (g_done _ _ Hg). apply Hall. lia. }
    rewrite E. unfold full. apply rev_involutive. }
  split; [|assumption].
  intros t Ht. apply (g_idle _ _ Hg); [lia|].
  pose proof (g_once _ _ Hg t). pose proof (g_wake _ _ Hg t).
  pose proof (g_range _ _ Hg t).
  destruct (posted s t) as [|[|n]] eqn:E; [lia| |lia]. lia.
Qed.

Lemma dones_exact c s :
  InvRun c None s ->
  (forall t, 1 <= t < num c -> signalled s t = 1%nat) /\
  (forall t, ~ 1 <= t < num c -> signalled s t = O) /\
  ThinBarrier.started (started s) = num c - 1.
Proof.
  intros H. pose proof (ir_gates _ _ _ H) as Hg.
  pose proof (ir_num _ _ _ H) as Hnum.
  pose proof (ir_main _ _ _ H) as Hm. cbn [main_ok] in Hm.
  destruct Hm as (_ & _ & _ & Hcnt & Hall).
  split; [assumption|]. split.
  - intros t Ht. pose proof (g_nodup _ _ Hg t).
    destruct (signalled s t) as [|[|n]] eqn:E; [reflexivity| |lia].
    exfalso. apply Ht. apply (g_range _ _ Hg). apply (g_done _ _ Hg t E).
  - unfold counted in Hcnt. rewrite Hcnt.
    pose proof (dones_length c s (proj1 Hnum) Hg) as Hle.
    assert (Hge : (length (seqZ 1 (Z.to_nat (num c - 1))) <=
                   length (dones (trace s)))%nat).
    { apply NoDup_incl_length; [apply seqZ_NoDup|].
      intros x Hx. apply seqZ_In in Hx. apply cnt_In.
      assert (E : signalled s x = 1%nat) by (apply Hall; lia).
      unfold signalled in E. lia. }
    rewrite seqZ_length in Hge. lia.
Qed.

(** C3 (amended): when [runInternal] returns from a round of [k = num c]
    workers, each of the workers 1, ..., k-1 has added one to the barrier
    exactly once, worker 0 (the caller) and the workers from [k] on have
    not, and the counter holds [k - 1]; the caller leaves its wait exactly
    when the counter has reached [k - 1]. *)
Theorem rendezvous_counts_the_woken sched s c :
  exec sched getSystemThreadPool = Some s ->
  (returned c s ->
   (forall t, 1 <= t < num c -> signalled s t = 1%nat) /\
   (forall t, ~ 1 <= t < num c -> signalled s t = O) /\
   ThinBarrier.started (started s) = num c - 1) /\
  (mainpc s = MRun c RWait ->
   (step AMain s <> None <-> num c - 1 <= ThinBarrier.started (started s))).
Proof.
  intros Hs. split.
  - intros Hret. apply dones_exact. eapply return_inv; eassumption.
  - intros Hm.
    assert (Hr : in_round c s) by (left; eexists; eassumption).
    destruct (round_inv _ _ _ Hs Hr) as [pc H].
    pose proof (ir_num _ _ _ H) as Hnum.
    cbn [step]. unfold step_main. rewrite Hm. cbn [step_run].
    unfold ThinBarrier.passes.
    rewrite wrap32_small, sint32_small by lia.
    destruct (Z.ltb_spec (ThinBarrier.started (started s)) (num c - 1));
      cbn [negb]; split; intros Hx; try lia; try discriminate.
    exfalso. apply Hx. reflexivity.
Qed.

(** The constructor has returned and [runInternal] was not called yet. *)
Lemma constructed_inv sched s :
  exec sched getSystemThreadPool = Some s -> mainpc s = MIdle None ->
  Constructed s.
Proof.
  intros Hs Hm. assert (H : Inv s) by (apply Inv_reachable; eexists; eassumption).
  unfold Inv in H. rewrite Hm in H. apply H.
Qed.

Lemma wait_ready_enabled sched s :
  exec sched getSystemThreadPool = Some s -> mainpc s = MWaitReady ->
  (step AMain s <> None <->
   forall t, 0 <= t < maxThreads -> In t (readies (trace s))).
Proof.
  intros Hs Hm. assert (H : Inv s) by (apply Inv_reachable; eexists; eassumption).
  unfold Inv in H. rewrite Hm in H.
  pose proof (ctor_next_bound _ _ _ H) as Hn.
  assert (Hrange : forall x, In x (readies (trace s)) -> 0 <= x < maxThreads).
  { intros x Hx. apply (ic_readies _ _ _ H) in Hx. lia. }
  pose proof (NoDup_range_length _ 0 maxThreads (ic_readies_nodup _ _ _ H) Hrange) as Hle.
  cbn [step]. unfold step_main. rewrite Hm. unfold ThinBarrier.passes.
  rewrite sint32_small by lia. rewrite (ic_started _ _ _ H).
  destruct (Z.ltb_spec (Z.of_nat (length (readies (trace s)))) maxThreads);
    cbn [negb]; split; intros Hx; try discriminate.
  - exfalso. apply Hx. reflexivity.
  - exfalso.
    assert (Hge : (length (seqZ 0 (Z.to_nat maxThreads)) <=
                   length (readies (trace s)))%nat).
    { apply NoDup_incl_length; [apply seqZ_NoDup|].
      intros x Hi. apply seqZ_In in Hi. apply Hx. lia. }
    rewrite seqZ_length in Hge. lia.
  - apply NoDup_range_full; [apply (ic_readies_nodup _ _ _ H)|assumption|lia].
Qed.

(** *** The destructor cannot get stuck, and it ends *)

Lemma list_sum_upd (g g' : Z -> nat) j l :
  (forall x, x <> j -> g' x = g x) -> NoDup l ->
  (In j l -> (list_sum (map g' l) + g j = list_sum (map g l) + g' j)%nat) /\
  (~ In j l -> list_sum (map g' l) = list_sum (map g l)).
Proof.
  intros Hg. unfold list_sum. induction l as [|x l IH]; intros Hnd.
  - split; [intros []|reflexivity].
  - inversion Hnd as [|? ? Hx Hl]; subst. destruct (IH Hl) as [IH1 IH2].
    cbn [map fold_right In]. split.
    + intros [->|Hin].
      * rewrite (IH2 Hx). lia.
      * assert (x <> j) by (intros ->; contradiction).
        rewrite (Hg x) by assumption. specialize (IH1 Hin). lia.
    + intros Hn. assert (x <> j) by tauto. rewrite (Hg x) by assumption.
      rewrite IH2 by tauto. reflexivity.
Qed.

Lemma list_sum_le (g g' : Z -> nat) l :
  (forall x, (g' x <= g x)%nat) ->
  (list_sum (map g' l) <= list_sum (map g l))%nat.
Proof.
  intros Hg. unfold list_sum.
  induction l as [|x l IH]; cbn [map fold_right]; [lia|].
  specialize (Hg x). lia.
Qed.

(** A step of the thread in slot [j] that brings it from [pc] to [pc']
    and leaves the shutdown flag alone. *)
Lemma threads_left_goto s s' j pc' :
  1 <= j < maxThreads ->
  (forall x, thr s' x = upd (thr s) j pc' x) ->
  shutdown s' = shutdown s ->
  (threads_left s' + thread_left (shutdown s) (thr s j) =
   threads_left s + thread_left (shutdown s) pc')%nat.
Proof.
  intros Hj Hthr Hsd. unfold threads_left. rewrite Hsd.
  pose proof (list_sum_upd
                (fun x => thread_left (shutdown s) (thr s x))
                (fun x => thread_left (shutdown s) (thr s' x))
                j (seqZ 1 (Z.to_nat (maxThreads - 1)))) as H.
  assert (Hg : forall x, x <> j ->
             thread_left (shutdown s) (thr s' x) =
             thread_left (shutdown s) (thr s x)).
  { intros x Hx. rewrite Hthr, upd_other by assumption. reflexivity. }
  destruct (H Hg (seqZ_NoDup _ _)) as [H1 _].
  assert (Hin : In j (seqZ 1 (Z.to_nat (maxThreads - 1)))) by (apply seqZ_In; lia).
  specialize (H1 Hin). cbn beta in H1. rewrite Hthr, upd_same in H1. exact H1.
Qed.

Lemma dtor_thread_left pc s j s' :
  InvDtor pc s -> step_thread j s = Some s' ->
  (threads_left s' < threads_left s)%nat /\ shutdown s' = shutdown s.
Proof.
  intros H Hs.
  pose proof (id_ok _ _ H j) as Hown.
  assert (Hj : thr s j = TNone \/ 1 <= j < maxThreads).
  { destruct (thr s j) eqn:E; [left; reflexivity|..]; right;
      apply (id_slots _ _ H); congruence. }
  destruct Hj as [Hj|Hj];
    [unfold step_thread in Hs; rewrite Hj in Hs; discriminate Hs|].
  assert (Hkey : forall pc' s1,
             s' = goto j pc' s1 -> thr s1 = thr s -> shutdown s1 = shutdown s ->
             (thread_left (shutdown s) pc' <
              thread_left (shutdown s) (thr s j))%nat ->
             (threads_left s' < threads_left s)%nat /\
             shutdown s' = shutdown s).
  { intros pc' s1 -> Hthr Hsd Hlt. split; [|exact Hsd].
    pose proof (threads_left_goto s (goto j pc' s1) j pc' Hj) as Hx.
    assert (Ht : forall x, thr (goto j pc' s1) x = upd (thr s) j pc' x)
      by (intros x; psimpl; rewrite Hthr; reflexivity).
    specialize (Hx Ht Hsd). lia. }
  unfold step_thread in Hs.
  destruct (thr s j) eqn:E; cbn [dslot_ok] in Hown; try contradiction;
    try discriminate Hs.
  - (* TLoop *)
    injection Hs as Hs. eapply Hkey; [symmetry; exact Hs|reflexivity..|].
    destruct (shutdown s); cbn; lia.
  - (* TAcquire *)
    destruct (starts s tid); [discriminate Hs|]. injection Hs as Hs.
    eapply Hkey; [symmetry; exact Hs|reflexivity..|]. cbn; lia.
  - (* TCascade *)
    injection Hs as Hs. destruct Hown as [Hi Hsh].
    eapply Hkey; [symmetry; exact Hs| | |].
    + unfold cascade. destruct (_ <? _); reflexivity.
    + unfold cascade. destruct (_ <? _); reflexivity.
    + destruct Hi as [-> | ->]; cbn; lia.
  - (* TPrefix *)
    injection Hs as Hs. eapply Hkey; [symmetry; exact Hs| | |].
    + destruct (tid =? 0); reflexivity.
    + destruct (tid =? 0); reflexivity.
    + cbn; lia.
  - (* TWork *)
    destruct w as [|p|p e]; cbn [doWork] in Hs.
    + injection Hs as Hs. eapply Hkey; [symmetry; exact Hs|reflexivity..|].
      cbn; lia.
    + injection Hs as Hs. eapply Hkey; [symmetry; exact Hs|reflexivity..|].
      cbn; lia.
    + destruct Hown as (-> & -> & Hsh). cbn in Hs. injection Hs as Hs.
      eapply Hkey; [symmetry; exact Hs|reflexivity..|]. cbn; lia.
  - (* TSuffix *)
    injection Hs as Hs. eapply Hkey; [symmetry; exact Hs| | |].
    + destruct (tid =? 0); reflexivity.
    + destruct (tid =? 0); reflexivity.
    + cbn; lia.
  - (* TSignal *)
    injection Hs as Hs. eapply Hkey; [symmetry; exact Hs|reflexivity..|].
    rewrite Hown. cbn; lia.
Qed.

Lemma thread_left_shutdown pc :
  (thread_left true pc <= thread_left false pc)%nat.
Proof.
  destruct pc as [| | | | | | | |t w| | |]; cbn [thread_left];
    try destruct w; lia.
Qed.

Lemma dtor_main_left pc s s' :
  InvDtor (Some pc) s -> step_dtor pc s = Some s' ->
  exists pc', dtor_place s' = Some pc' /\
    (main_left pc' + threads_left s' < main_left (Some pc) + threads_left s)%nat.
Proof.
  intros H Hs.
  pose proof (id_index _ _ H) as Hidx. cbn [dtor_index] in Hidx.
  assert (Hle : forall s1, thr s1 = thr s ->
            (shutdown s1 = shutdown s \/ shutdown s1 = true) ->
            (threads_left s1 <= threads_left s)%nat).
  { intros s1 Hthr Hsd. unfold threads_left. rewrite Hthr.
    apply list_sum_le. intros x. destruct Hsd as [-> | ->]; [lia|].
    destruct (shutdown s); [lia|apply thread_left_shutdown]. }
  assert (Hm : (1 <= Z.to_nat maxThreads)%nat) by lia.
  destruct pc; cbn [step_dtor] in Hs.
  - injection Hs as <-. eexists. split; [reflexivity|].
    specialize (Hle (set_shutdown true s) eq_refl (or_intror eq_refl)).
    unfold threads_left in *. psimpl. cbn [main_left]. lia.
  - injection Hs as <-. eexists. split; [reflexivity|].
    specialize (Hle s eq_refl (or_introl eq_refl)).
    unfold threads_left in *. psimpl. cbn [main_left]. lia.
  - injection Hs as <-. eexists. split; [reflexivity|].
    specialize (Hle s eq_refl (or_introl eq_refl)).
    unfold threads_left in *. psimpl. cbn [main_left]. lia.
  - injection Hs as <-. eexists. split; [reflexivity|].
    specialize (Hle s eq_refl (or_introl eq_refl)).
    unfold threads_left in *. psimpl. cbn [main_left]. lia.
  - destruct (Z.ltb_spec i maxThreads); injection Hs as <-;
      (eexists; split; [reflexivity|]);
      specialize (Hle s eq_refl (or_introl eq_refl));
      unfold threads_left in *; psimpl; cbn [main_left];
      rewrite ?wrap32_small by lia; lia.
  - destruct (Z.ltb_spec i maxThreads).
    + destruct (thr s i); try discriminate Hs. injection Hs as <-.
      eexists. split; [reflexivity|].
      specialize (Hle s eq_refl (or_introl eq_refl)).
      unfold threads_left in *. psimpl. cbn [main_left].
      rewrite ?wrap32_small by lia. lia.
    + injection Hs as <-. eexists. split; [reflexivity|].
      specialize (Hle s eq_refl (or_introl eq_refl)).
      unfold threads_left in *. psimpl. cbn [main_left]. lia.
Qed.

Lemma thread_enabled s j :
  thr s j <> TNone -> thr s j <> TExit ->
  (forall t, thr s j = TAcquire t -> (1 <= starts s t)%nat) ->
  exists s', step_thread j s = Some s'.
Proof.
  intros Hn He Ha. unfold step_thread.
  destruct (thr s j) eqn:E; try congruence; try (eexists; reflexivity).
  - specialize (Ha tid eq_refl). destruct (starts s tid); [lia|].
    eexists; reflexivity.
  - destruct (doWork tid w s). eexists; reflexivity.
Qed.

Lemma dtor_progress pc s :
  InvDtor (Some pc) s -> mainpc s = MDtor pc ->
  exists a s', step a s = Some s'.
Proof.
  intros H Hm.
  assert (Hmain : forall s', step_dtor pc s = Some s' ->
             exists a s', step a s = Some s').
  { intros s' Hs. exists AMain, s'. cbn [step]. unfold step_main.
    rewrite Hm. exact Hs. }
  pose proof (id_index _ _ H) as Hidx. cbn [dtor_index] in Hidx.
  destruct pc; cbn [step_dtor] in Hmain; try (eapply Hmain; reflexivity).
  - destruct (i <? maxThreads); eapply Hmain; reflexivity.
  - destruct (Z.ltb_spec i maxThreads); [|eapply Hmain; reflexivity].
    assert (Hnn : thr s i <> TNone) by (apply (id_slots _ _ H); lia).
    destruct (thr s i) eqn:E; try (eapply Hmain; reflexivity);
      try (exfalso; apply Hnn; reflexivity).
    all: assert (Hen : exists s', step_thread i s = Some s');
      [ apply thread_enabled; try congruence;
        intros t Et; pose proof (id_ok _ _ H i) as Hok; rewrite Et in Hok;
        cbn [dslot_ok kicked] in Hok; apply Hok; exact I
      | destruct Hen as [s' Hs']; exists (AThread i), s'; exact Hs' ].
Qed.

Lemma dtor_inv s pc :
  Inv s -> dtor_place s = Some pc -> InvDtor pc s.
Proof.
  unfold Inv, dtor_place. intros H Hp.
  destruct (mainpc s); try discriminate Hp; injection Hp as <-; exact H.
Qed.

(** Every step taken while the pool is being destroyed brings its end
    nearer. *)
Lemma dtor_step_left a s s' pc :
  Inv s -> dtor_place s = Some pc -> step a s = Some s' ->
  exists pc', dtor_place s' = Some pc' /\ (dtor_left s' < dtor_left s)%nat.
Proof.
  intros H Hp Hs. pose proof (dtor_inv _ _ H Hp) as Hd.
  unfold dtor_left. rewrite Hp.
  destruct a as [n b e| | |j]; cbn [step] in Hs.
  - unfold dtor_place in Hp. destruct (mainpc s); discriminate.
  - unfold dtor_place in Hp. destruct (mainpc s); discriminate.
  - unfold step_main in Hs. unfold dtor_place in Hp.
    destruct (mainpc s) eqn:E; try discriminate Hp; try discriminate Hs.
    injection Hp as <-.
    destruct (dtor_main_left _ _ _ Hd Hs) as (pc' & Hp' & Hlt).
    exists pc'. rewrite Hp'. split; [reflexivity|assumption].
  - destruct (dtor_thread_left _ _ _ _ Hd Hs) as [Hlt Hsd].
    pose proof (step_thread_mainpc _ _ _ Hs) as Hm.
    exists pc. unfold dtor_place in *. rewrite Hm, Hp.
    split; [reflexivity|lia].
Qed.

Lemma dtor_bounded sched : forall s s' pc,
  Inv s -> dtor_place s = Some pc -> exec sched s = Some s' ->
  (length sched + dtor_left s' <= dtor_left s)%nat /\
  dtor_place s' <> None.
Proof.
  induction sched as [|a rest IH]; intros s s' pc H Hp Hs; cbn [exec] in Hs.
  - injection Hs as <-. cbn [length]. split; [lia|congruence].
  - destruct (step a s) as [s1|] eqn:E; [|discriminate Hs].
    destruct (dtor_step_left _ _ _ _ H Hp E) as (pc1 & Hp1 & Hlt).
    destruct (IH s1 s' pc1 (Inv_step _ _ _ H E) Hp1 Hs) as [Hle Hn].
    cbn [length]. split; [lia|assumption].
Qed.

Lemma dtor_completes n : forall s pc,
  Inv s -> dtor_place s = Some pc -> (dtor_left s <= n)%nat ->
  exists sched s', exec sched s = Some s' /\ mainpc s' = MDead.
Proof.
  induction n as [|n IH]; intros s pc H Hp Hn.
  - unfold dtor_place in Hp.
    destruct (mainpc s) as [| | | | | | | |d|] eqn:E; try discriminate Hp.
    + exfalso. injection Hp as <-.
      assert (Hp : dtor_place s = Some (Some d))
        by (unfold dtor_place; rewrite E; reflexivity).
      destruct (dtor_progress d s (dtor_inv _ _ H Hp) E) as (a & s' & Hs).
      destruct (dtor_step_left _ _ _ _ H Hp Hs) as (_ & _ & Hlt). lia.
    + exists [], s. split; [reflexivity|assumption].
  - unfold dtor_place in Hp.
    destruct (mainpc s) as [| | | | | | | |d|] eqn:E; try discriminate Hp.
    + injection Hp as <-.
      assert (Hp : dtor_place s = Some (Some d))
        by (unfold dtor_place; rewrite E; reflexivity).
      destruct (dtor_progress d s (dtor_inv _ _ H Hp) E) as (a & s1 & Hs).
      destruct (dtor_step_left _ _ _ _ H Hp Hs) as (pc1 & Hp1 & Hlt).
      destruct (IH s1 pc1 (Inv_step _ _ _ H Hs) Hp1 ltac:(lia))
        as (sched & s' & Hx & Hd).
      exists (a :: sched), s'. cbn [exec]. rewrite Hs. split; assumption.
    + exists [], s. split; [reflexivity|assumption].
Qed.

(** C7: once the destructor has been entered, what it has done so far is
    the beginning of: set the shutdown flag, clear [workEnd] and
    [workBegin], fence, post the semaphore of every slot 1..maxThreads-1
    once, join every slot 1..maxThreads-1; a slot it has joined holds an
    exited thread; as long as it has not ended some thread can take a step;
    no continuation is longer than [dtor_left s] steps, and one of them
    reaches the end, where every spawned thread has exited. *)
Theorem destructor_joins_all sched s pc :
  exec sched getSystemThreadPool = Some s -> dtor_place s = Some pc ->
  rev (dtor_events (trace s)) = dtor_script pc /\
  (forall j, 1 <= j < maxThreads -> joined pc j -> thr s j = TExit) /\
  (pc <> None -> exists a s', step a s = Some s') /\
  (forall more s', exec more s = Some s' ->
                   (length more <= dtor_left s)%nat) /\
  (exists more s', exec more s = Some s' /\ mainpc s' = MDead /\
     rev (dtor_events (trace s')) = dtor_script None /\
     forall j, 1 <= j < maxThreads -> thr s' j = TExit).
Proof.
  intros Hs Hp.
  assert (H : Inv s) by (apply Inv_reachable; eexists; eassumption).
  pose proof (dtor_inv _ _ H Hp) as Hd.
  split; [apply (id_script _ _ Hd)|].
  split; [apply (id_joined _ _ Hd)|].
  split.
  { intros Hn. unfold dtor_place in Hp.
    destruct (mainpc s) eqn:E; try discriminate Hp; injection Hp as <-.
    - eapply dtor_progress; eassumption.
    - congruence. }
  split.
  { intros more s' Hx.
    destruct (dtor_bounded _ _ _ _ H Hp Hx) as [Hle _]. lia. }
  destruct (dtor_completes (dtor_left s) s pc H Hp (le_n _))
    as (more & s' & Hx & Hdead).
  exists more, s'. split; [assumption|]. split; [assumption|].
  assert (H' : Inv s') by (eapply Inv_exec; eassumption).
  unfold Inv in H'. rewrite Hdead in H'.
  split; [apply (id_script _ _ H')|].
  intros j Hj. apply (id_joined _ _ H'); [assumption|exact I].
Qed.

(** ** Construction *)

Lemma ready_once s t :
  Constructed s -> 0 <= t < maxThreads -> cnt (readies (trace s)) t = 1%nat.
Proof.
  intros H Ht.
  pose proof (proj2 (co_readies _ H t) Ht) as Hin. apply cnt_In in Hin.
  pose proof (proj1 (NoDup_count_occ Z.eq_dec _) (co_nodup _ H) t) as Hle.
  unfold cnt in *. lia.
Qed.

(** A binding of worker [t] in the trace is one of the events of its
    initialisation. *)
Lemma bind_in_inits t p tr :
  In (EvBind t p) tr <-> In (EvBind t p) (inits t tr).
Proof.
  induction tr as [|e tr IH]; [reflexivity|].
  cbn [inits In].
  destruct e; cbn [In];
    repeat match goal with
    | |- context [?a =? t] => destruct (Z.eqb_spec a t); cbn [In]
    end;
    rewrite <- IH; intuition congruence.
Qed.

Lemma bind_constructed sched s t p :
  exec sched getSystemThreadPool = Some s -> mainpc s = MIdle None ->
  0 <= t < maxThreads ->
  (In (EvBind t p) (trace s) <-> In (EvBind t p) (initThread t)).
Proof.
  intros Hs Hm Ht. pose proof (constructed_inv _ _ Hs Hm) as H.
  rewrite bind_in_inits, in_rev, (co_inits _ H t Ht), in_app_iff.
  split; [intros [Hx|[Hx|[]]]; [exact Hx|discriminate Hx]|tauto].
Qed.

Lemma constructor_rendezvous sched s :
  exec sched getSystemThreadPool = Some s ->
  (mainpc s = MWaitReady ->
     (step AMain s <> None <->
      forall t, 0 <= t < maxThreads -> In t (readies (trace s)))) /\
  (mainpc s = MIdle None ->
     ThinBarrier.started (started s) = maxThreads /\
     (forall t, 0 <= t < maxThreads -> cnt (readies (trace s)) t = 1%nat) /\
     (forall t, ~ 0 <= t < maxThreads -> cnt (readies (trace s)) t = O) /\
     (forall t, 0 <= t < maxThreads ->
        rev (inits t (trace s)) = initThread t ++ [EvReady t]) /\
     creates (trace s) = rev (seqZ 1 (Z.to_nat (maxThreads - 1)))).
Proof.
  intros Hs. split; intros Hm.
  - apply (wait_ready_enabled _ _ Hs Hm).
  - pose proof (constructed_inv _ _ Hs Hm) as H.
    split; [apply (co_started _ H)|].
    split; [intros t Ht; apply ready_once; assumption|].
    split; [|split; [apply (co_inits _ H)|apply (co_creates _ H)]].
    intros t Ht. destruct (cnt (readies (trace s)) t) eqn:E; [reflexivity|].
    exfalso. apply Ht. apply (co_readies _ H). apply cnt_In. lia.
Qed.

(** ** The activation count *)

Lemma starting_clamped sched s c pc :
  exec sched getSystemThreadPool = Some s -> mainpc s = MRun c pc ->
  1 <= num c <= maxThreads /\ (pc <> RStoreStarting -> starting s = num c).
Proof.
  intros Hs Hm.
  assert (Hr : in_round c s) by (left; eexists; eassumption).
  assert (H : Inv s) by (apply Inv_reachable; eexists; eassumption).
  unfold Inv in H. rewrite Hm in H.
  split; [apply (ir_num _ _ _ H)|]. intros Hpc.
  pose proof (ir_main _ _ _ H) as Hmain.
  destruct pc; cbn [main_ok] in Hmain; try congruence; tauto.
Qed.

Lemma call_clamps s n b e s' :
  step (ACall n b e) s = Some s' ->
  mainpc s' = MRun (Call (sanitize n) b e) RStoreStarting /\
  1 <= sanitize n <= maxThreads /\
  starting s' = starting s /\ workBegin s' = workBegin s /\
  workEnd s' = workEnd s /\ started s' = started s /\
  starts s' = starts s /\ thr s' = thr s /\ shutdown s' = shutdown s /\
  trace s' = [].
Proof.
  cbn [step]. destruct (mainpc s); try discriminate.
  destruct (is_unsigned n); [|discriminate]. intros Hx. injection Hx as <-.
  split; [reflexivity|]. split; [apply sanitize_range|]. repeat split.
Qed.

Lemma call_zero s b e : step (ACall 0 b e) s = step (ACall 1 b e) s.
Proof. reflexivity. Qed.

Lemma call_above s n b e :
  0 < n -> maxThreads + n < 2 ^ 32 ->
  step (ACall (maxThreads + n) b e) s = step (ACall maxThreads b e) s.
Proof.
  intros Hn Hb. cbn [step]. destruct (mainpc s); try reflexivity.
  assert (E1 : is_unsigned (maxThreads + n) = true).
  { unfold is_unsigned. apply andb_true_intro. split; [apply Z.leb_le|apply Z.ltb_lt]; lia. }
  assert (E2 : is_unsigned maxThreads = true).
  { unfold is_unsigned. apply andb_true_intro. split; [apply Z.leb_le|apply Z.ltb_lt]; lia. }
  rewrite E1, E2. unfold sanitize.
  replace (Z.min (Z.max (maxThreads + n) 1) maxThreads) with maxThreads by lia.
  replace (Z.min (Z.max maxThreads 1) maxThreads) with maxThreads by lia.
  reflexivity.
Qed.

(** ** Further properties of the pool *)

(** X1: as long as the destructor has not been entered the shutdown flag
    is false and no thread has left [launch]. *)
Theorem live_threads_never_exit sched s :
  exec sched getSystemThreadPool = Some s -> dtor_place s = None ->
  shutdown s = false /\ forall j, thr s j <> TExit.
Proof.
  intros Hs Hp. assert (H : Inv s) by (apply Inv_reachable; eexists; eassumption).
  unfold Inv in H. unfold dtor_place in Hp.
  assert (Hc : forall cb mr, InvCtor cb mr s ->
               shutdown s = false /\ forall j, thr s j <> TExit).
  { intros cb mr Hi. split; [apply (ic_shutdown _ _ _ Hi)|].
    intros j Hx. pose proof (ic_pcs _ _ _ Hi j) as Hpc. rewrite Hx in Hpc.
    discriminate Hpc. }
  assert (Hr : forall c pc, InvRun c pc s ->
               shutdown s = false /\ forall j, thr s j <> TExit).
  { intros c pc Hi. split; [apply (ir_shutdown _ _ _ Hi)|].
    intros j Hx. pose proof (ir_slots _ _ _ Hi j) as Hpc. rewrite Hx in Hpc.
    exact Hpc. }
  destruct (mainpc s) as [| | | | | |[c|]| | |]; try discriminate Hp;
    try (match type of H with _ /\ _ => destruct H as [H _] end); eauto.
  rename H into Hq. split; [apply (q_shutdown _ Hq)|].
  intros j Hx.
  assert (Hj : 1 <= j < maxThreads)
    by (apply (tids_slots _ (q_tids _ Hq)); rewrite Hx; discriminate).
  pose proof (q_parked _ Hq j Hj) as Hpc. rewrite Hx in Hpc. discriminate Hpc.
Qed.

(** X2: whenever the main thread is outside the pool (the constructor or
    a call of [runInternal] has returned) every semaphore is zero: no
    post is left over for a later round. *)
Theorem semaphores_zero_at_rest sched s last :
  exec sched getSystemThreadPool = Some s -> mainpc s = MIdle last ->
  forall t, starts s t = O.
Proof.
  intros Hs Hm. assert (H : Inv s) by (apply Inv_reachable; eexists; eassumption).
  unfold Inv in H. rewrite Hm in H. destruct last as [c|].
  - intros t. pose proof (ir_gates _ _ _ H) as Hg.
    pose proof (ir_main _ _ _ H) as Hmain. cbn [main_ok] in Hmain.
    destruct Hmain as (_ & _ & _ & _ & Hall).
    pose proof (g_wake _ _ Hg t) as Hw. pose proof (g_once _ _ Hg t) as Ho.
    destruct (posted s t) as [|[|n]] eqn:E; [lia| |lia].
    apply (g_done _ _ Hg t). apply Hall. apply (g_range _ _ Hg t E).
  - destruct H as [Hq _]. apply (q_starts _ Hq).
Qed.

(** X3: inside [runInternal] nothing is posted, woken or executed before
    the three stores, the fence and the reset are done; and while a
    worker that was posted has not yet signalled, [starting], [workBegin]
    and [workEnd] hold the values of the call. *)
Theorem descriptor_stable sched s c pc :
  exec sched getSystemThreadPool = Some s -> mainpc s = MRun c pc ->
  (In pc [RStoreStarting; RStoreBegin; RStoreEnd; RFence; RReset] ->
     posts (trace s) = [] /\ wakes (trace s) = [] /\
     forall t, execs t (trace s) = []) /\
  (forall t, posted s t = 1%nat -> signalled s t = O ->
     starting s = num c /\ workBegin s = wbegin c /\ workEnd s = wend c).
Proof.
  intros Hs Hm. assert (H : Inv s) by (apply Inv_reachable; eexists; eassumption).
  unfold Inv in H. rewrite Hm in H.
  pose proof (ir_main _ _ _ H) as Hmain. pose proof (ir_desc _ _ _ H) as Hdesc.
  split.
  - intros Hin. cbn [In] in Hin.
    assert (Hsil : silent s).
    { destruct Hin as [<-|[<-|[<-|[<-|[<-|[]]]]]]; cbn [main_ok] in Hmain; tauto. }
    destruct Hsil as (Hp & _ & Hw & He). auto.
  - intros t Hp Hd. pose proof (active_running _ _ _ t H Hp Hd) as Hrun.
    destruct pc; cbn [running] in Hrun; try discriminate Hrun;
      cbn [main_ok desc_ok] in Hmain, Hdesc; tauto.
Qed.

(** Every slot of a pool at rest holds a thread with an id. *)
Lemma slot_has_tid s last j :
  Inv s -> mainpc s = MIdle last -> 1 <= j < maxThreads ->
  exists t, tid_of (thr s j) = Some t.
Proof.
  intros H Hm Hj. unfold Inv in H. rewrite Hm in H. destruct last as [c|].
  - pose proof (ir_slots _ _ _ H j) as Hpc.
    pose proof (proj2 (tids_slots _ (ir_tids _ _ _ H) j) Hj) as Hn.
    destruct (thr s j); cbn [slot_ok] in Hpc; try contradiction;
      cbn [tid_of]; eauto.
  - destruct H as [Hq _]. pose proof (q_parked _ Hq j Hj) as Hpc.
    destruct (thr s j); try discriminate Hpc; cbn [tid_of]; eauto.
Qed.

Lemma rest_tids s last : Inv s -> mainpc s = MIdle last -> Tids s.
Proof.
  intros H Hm. unfold Inv in H. rewrite Hm in H. destruct last as [c|].
  - apply (ir_tids _ _ _ H).
  - apply (q_tids _ (proj1 H)).
Qed.

(** X4: once the pool is built, the ids drawn in [slaunch] are a
    permutation of the slots: every id 1..maxThreads-1 is held by exactly
    one thread, that of a slot 1..maxThreads-1. *)
Theorem ids_are_a_permutation sched s last t :
  exec sched getSystemThreadPool = Some s -> mainpc s = MIdle last ->
  1 <= t < maxThreads ->
  exists j, 1 <= j < maxThreads /\ tid_of (thr s j) = Some t /\
            forall j', tid_of (thr s j') = Some t -> j' = j.
Proof.
  intros Hs Hm Ht.
  assert (H : Inv s) by (apply Inv_reachable; eexists; eassumption).
  pose proof (rest_tids _ _ H Hm) as Htids.
  set (f := fun j => match tid_of (thr s j) with Some x => x | None => 0 end).
  set (slots := seqZ 1 (Z.to_nat (maxThreads - 1))).
  assert (Hf : forall j, In j slots -> tid_of (thr s j) = Some (f j)).
  { intros j Hj. apply seqZ_In in Hj.
    destruct (slot_has_tid s last j H Hm ltac:(lia)) as [x Hx].
    unfold f. rewrite Hx. reflexivity. }
  assert (Hnd : NoDup (map f slots)).
  { apply NoDup_map_NoDup_ForallPairs; [|apply seqZ_NoDup].
    intros a b Ha Hb Hab. apply (tids_inj _ Htids a b (f a)).
    - apply Hf. exact Ha.
    - rewrite Hab. apply Hf. exact Hb. }
  assert (Hrange : forall x, In x (map f slots) -> 1 <= x < maxThreads).
  { intros x Hx. apply in_map_iff in Hx. destruct Hx as (j & <- & Hj).
    apply (tids_range _ Htids j). apply Hf. exact Hj. }
  assert (Hlen : maxThreads - 1 <= Z.of_nat (length (map f slots))).
  { rewrite length_map. unfold slots. rewrite seqZ_length. lia. }
  pose proof (NoDup_range_full _ 1 maxThreads Hnd Hrange Hlen t Ht) as Hin.
  apply in_map_iff in Hin. destruct Hin as (j & Hj & Hjin).
  exists j. split; [apply seqZ_In in Hjin; lia|].
  split; [rewrite <- Hj; apply Hf; exact Hjin|].
  intros j' Hj'. apply (tids_inj _ Htids j' j t); [exact Hj'|].
  rewrite <- Hj. apply Hf. exact Hjin.
Qed.

(** ** A round of one worker *)

Lemma exec_app a : forall b s,
  exec (a ++ b) s =
  match exec a s with Some s' => exec b s' | None => None end.
Proof.
  induction a as [|x a IH]; intros b s; cbn [app exec]; [reflexivity|].
  destruct (step x s); [apply IH|reflexivity].
Qed.








(** ** A call stays the same until it returns *)

Lemma round_keeps_call c a s s' :
  in_round c s -> inner a -> step a s = Some s' -> in_round c s'.
Proof.
  intros Hr Hi Hs. destruct a; cbn [inner] in Hi; try contradiction;
    cbn [step] in Hs.
  - unfold step_main in Hs. destruct Hr as [[pc Hm]|Hm]; rewrite Hm in Hs;
      [|discriminate Hs].
    unfold step_run in Hs. cbv zeta in Hs.
    destruct pc as [| | | | |i|w| | |];
      try (destruct (cascade_next i));
      try (destruct (doWork 0 w s) as [s1 [w1|]]);
      try (destruct (ThinBarrier.passes _ _); [|discriminate Hs]);
      injection Hs as <-;
      first [ left; eexists; reflexivity | right; reflexivity ].
  - unfold in_round. rewrite (step_thread_mainpc _ _ _ Hs). exact Hr.
Qed.

Lemma round_keeps_calls c more : forall s s',
  in_round c s -> Forall inner more -> exec more s = Some s' ->
  in_round c s'.
Proof.
  induction more as [|a more IH]; intros s s' Hr Hi Hs; cbn [exec] in Hs.
  - injection Hs as <-. exact Hr.
  - inversion Hi as [|? ? Ha Hmore]; subst.
    destruct (step a s) as [s1|] eqn:E; [|discriminate Hs].
    apply (IH s1 s'); [eapply round_keeps_call; eassumption|assumption..].
Qed.

(** ** The counter of the barrier during construction *)


Lemma kids_children c s t : kids (num c) t 3 s -> children_posted c s t.
Proof. unfold kids, children_posted. cbn [Z.ltb Z.compare Pos.compare Pos.compare_cont andb]. tauto. Qed.

Lemma starting_at_return sched s c :
  exec sched getSystemThreadPool = Some s -> returned c s ->
  starting s = num c.
Proof.
  intros Hs Hr. pose proof (return_inv _ _ _ Hs Hr) as H.
  pose proof (ir_main _ _ _ H) as Hm. cbn [main_ok] in Hm. tauto.
Qed.

(** A thread that has left its cascade has posted its children. *)
Lemma past_cascade_children c pc s j t :
  InvRun c pc s -> tid_of (thr s j) = Some t ->
  past_cascade (thr s j) = true -> children_posted c s t.
Proof.
  intros H Ht Hp. pose proof (ir_slots _ _ _ H j) as Hslot.
  destruct (thr s j); cbn [past_cascade] in Hp; try discriminate Hp;
    cbn [tid_of] in Ht; injection Ht as ->; cbn [slot_ok] in Hslot;
    apply kids_children; tauto.
Qed.

Lemma after_cascade_children c pc s :
  InvRun c pc s ->
  match pc with Some r => after_cascade r | None => true end = true ->
  children_posted c s 0.
Proof.
  intros H Hp. pose proof (ir_main _ _ _ H) as Hm.
  apply kids_children.
  destruct pc as [[]|]; cbn [after_cascade] in Hp; try discriminate Hp;
    cbn [main_ok] in Hm; tauto.
Qed.

(** ** What a step inside a round adds to the trace *)

Lemma event_posted s s' e :
  trace s' = e :: trace s -> forall t, (posted s t <= posted s' t)%nat.
Proof.
  intros H t. unfold posted. rewrite H.
  destruct e; cbn [posts]; rewrite ?cnt_cons;
    try match goal with |- context [if ?b then _ else _] => destruct b end;
    lia.
Qed.

Lemma event_signalled s s' e :
  trace s' = e :: trace s -> (forall t, e <> EvDone t) ->
  forall t, signalled s' t = signalled s t.
Proof.
  intros H Hne t. unfold signalled. rewrite H.
  destruct e; cbn [dones]; try reflexivity.
  exfalso. eapply Hne. reflexivity.
Qed.

Lemma done_signalled s s' t0 :
  trace s' = EvDone t0 :: trace s ->
  forall t, signalled s' t =
            (if t0 =? t then S (signalled s t) else signalled s t) /\
            posted s' t = posted s t.
Proof.
  intros H t. unfold signalled, posted. rewrite H. cbn [dones posts].
  rewrite cnt_cons. split; reflexivity.
Qed.

Lemma thread_step_event c s j s' :
  slot_ok c s (thr s j) -> step_thread j s = Some s' ->
  trace s' = trace s \/
  exists e, trace s' = e :: trace s /\
            (forall t, e = EvDone t -> thr s j = TSignal t).
Proof.
  unfold step_thread, cascade. intros Hok Hs.
  destruct (thr s j) as [| | | | | | | |tid w| | |]; cbn [slot_ok] in Hok;
    try contradiction; try discriminate Hs;
    try (destruct w as [|p|p e]; cbn [doWork] in Hs; try destruct (p =? e));
    repeat match type of Hs with
    | context [match ?x with _ => _ end] => destruct x
    | context [if ?b then _ else _] => destruct b
    end;
    try discriminate Hs; injection Hs as <-;
    cbn [trace goto set_thr emit set_trace set_starts barrier_release
         set_started];
    first [ left; reflexivity
          | right; eexists; split; [reflexivity|];
            intros t Ht; first [discriminate Ht
                               |injection Ht as ->; reflexivity] ].
Qed.

Lemma thread_step_thr j s s' :
  step_thread j s = Some s' -> forall x, x <> j -> thr s' x = thr s x.
Proof.
  unfold step_thread, cascade. intros Hs x Hx.
  destruct (thr s j) as [| | | | | | | |tid w| | |]; try discriminate Hs;
    try (destruct w as [|p|p e]; cbn [doWork] in Hs; try destruct (p =? e));
    repeat match type of Hs with
    | context [match ?x with _ => _ end] => destruct x
    | context [if ?b then _ else _] => destruct b
    end;
    try discriminate Hs; injection Hs as <-;
    cbn [thr goto set_thr emit emits set_trace set_starts barrier_release
         set_started set_next];
    apply upd_other; exact Hx.
Qed.

Lemma main_step_event c pc s s' :
  step_run c pc s = Some s' ->
  thr s' = thr s /\
  (trace s' = trace s \/
   exists e, trace s' = e :: trace s /\ forall t, e <> EvDone t).
Proof.
  unfold step_run, cascade. cbv zeta. intros Hs.
  destruct pc as [| | | | |i|w| | |];
    try (destruct w as [|p|p e]; cbn [doWork] in Hs; try destruct (p =? e));
    repeat match type of Hs with
    | context [match ?x with _ => _ end] => destruct x
    | context [if ?b then _ else _] => destruct b
    end;
    try discriminate Hs; injection Hs as <-;
    cbn [thr trace set_mainpc emit set_trace set_starts set_started
         set_starting set_workBegin set_workEnd];
    (split; [reflexivity|]);
    first [ left; reflexivity
          | right; eexists; split; [reflexivity|];
            intros t Ht; discriminate Ht ].
Qed.

Lemma thread_step_work j s s' t w :
  step_thread j s = Some s' -> thr s' j = TWork t w ->
  w = WReadBegin \/
  exists w0, thr s j = TWork t w0 /\ work_step (workEnd s) w0 w.
Proof.
  unfold step_thread, cascade. intros Hs Hw.
  destruct (thr s j) as [| | | | | | | |tid w1| | |]; try discriminate Hs;
    try (destruct w1 as [|p|p e]; cbn [doWork] in Hs;
         try destruct (Z.eqb_spec p e));
    repeat match type of Hs with
    | context [match ?x with _ => _ end] => destruct x
    | context [if ?b then _ else _] => destruct b
    end;
    try discriminate Hs; injection Hs as <-;
    cbn [thr goto set_thr emit emits set_trace set_starts barrier_release
         set_started set_next workEnd] in Hw;
    rewrite upd_same in Hw; try discriminate Hw;
    injection Hw as <- <-;
    first [ left; reflexivity
          | right; eexists; split; [reflexivity|]; cbn [work_step];
            first [ reflexivity | left; split; reflexivity
                  | right; eexists; repeat split; assumption ] ].
Qed.

Lemma main_step_work c pc s s' w :
  step_run c pc s = Some s' -> mainpc s' = MRun c (RWork w) ->
  w = WReadBegin \/
  exists w0, pc = RWork w0 /\ work_step (workEnd s) w0 w.
Proof.
  unfold step_run, cascade. cbv zeta. intros Hs Hw.
  destruct pc as [| | | | |i|w1| | |];
    try (destruct w1 as [|p|p e]; cbn [doWork] in Hs;
         try destruct (Z.eqb_spec p e));
    repeat match type of Hs with
    | context [match ?x with _ => _ end] => destruct x
    | context [if ?b then _ else _] => destruct b
    end;
    try discriminate Hs; injection Hs as <-;
    cbn [mainpc set_mainpc] in Hw; try discriminate Hw;
    injection Hw as <-;
    first [ left; reflexivity
          | right; eexists; split; [reflexivity|]; cbn [work_step];
            first [ reflexivity | left; split; reflexivity
                  | right; eexists; repeat split; assumption ] ].
Qed.

(** ** What is kept during a round besides the invariant *)

Lemma children_mono c s s' t :
  Gates c s' -> (forall x, (posted s x <= posted s' x)%nat) ->
  children_posted c s t -> children_posted c s' t.
Proof.
  intros Hg Hmono [H1 H2].
  assert (Hone : forall x,
             posted s x = (if x <? num c then 1%nat else 0%nat) ->
             posted s' x = (if x <? num c then 1%nat else 0%nat)).
  { intros x Hx. pose proof (Hmono x). pose proof (g_once _ _ Hg x).
    pose proof (g_range _ _ Hg x) as Hr.
    destruct (Z.ltb_spec x (num c)); [lia|].
    destruct (posted s' x) as [|[|n]];
      [reflexivity|specialize (Hr eq_refl); lia|lia]. }
  split; apply Hone; assumption.
Qed.

Lemma extra_thread c pc s j s' :
  InvRun c (Some pc) s -> InvRun c (Some pc) s' -> Extra c s ->
  step_thread j s = Some s' -> Extra c s'.
Proof.
  intros H H' Hx Hs.
  pose proof (ir_slots _ _ _ H j) as Hok.
  pose proof (step_thread_mainpc _ _ _ Hs) as Hm.
  constructor.
  - intros t Ht.
    destruct (thread_step_event c s j s' Hok Hs) as [Htr|(e & Htr & Hdone)].
    + apply (children_mono c s s' t (ir_gates _ _ _ H'));
        [intros x; unfold posted; rewrite Htr; lia|].
      apply (x_kids _ _ Hx). unfold signalled in *. rewrite <- Htr. exact Ht.
    + apply (children_mono c s s' t (ir_gates _ _ _ H')
               (event_posted s s' e Htr)).
      assert (Hcase : (forall t0, e <> EvDone t0) \/ exists t0, e = EvDone t0)
        by (destruct e;
            first [ right; eexists; reflexivity
                  | left; intros ? Hd; discriminate Hd ]).
      destruct Hcase as [Hnd|[t0 He]].
      { apply (x_kids _ _ Hx).
        rewrite <- (event_signalled s s' _ Htr Hnd). exact Ht. }
      pose proof (Hdone t0 He) as Hsig. rewrite He in Htr.
      destruct (done_signalled s s' t0 Htr t) as [Hsg _]. rewrite Hsg in Ht.
      destruct (Z.eqb_spec t0 t) as [Heq|Hne]; [subst t0|].
      * rewrite Hsig in Hok. cbn [slot_ok] in Hok. apply kids_children. tauto.
      * apply (x_kids _ _ Hx). exact Ht.
  - intros Hrange j' t w Hw.
    destruct (Z.eq_dec j' j) as [->|Hne].
    + destruct (thread_step_work j s s' t w Hs Hw) as [->|(w0 & Hw0 & Hstep)];
        [exact I|].
      pose proof (x_thr _ _ Hx Hrange j t w0 Hw0) as Hb.
      rewrite Hw0 in Hok. cbn [slot_ok] in Hok.
      destruct Hok as (Hact & _ & Hwork).
      destruct Hact as (Hsg & _ & Hp & _).
      pose proof (active_running _ _ _ t H Hp Hsg) as Hrun.
      pose proof (ir_desc _ _ _ H) as Hdesc.
      assert (Hwe : workEnd s = wend c).
      { destruct pc; cbn [running] in Hrun; try discriminate Hrun;
          cbn [desc_ok] in Hdesc; tauto. }
      destruct w as [|p|p e]; cbn [work_step bounded] in *;
        [contradiction|exact I|].
      destruct Hstep as [[-> ->]|(p0 & -> & -> & Hne)].
      * cbn [work_ok] in Hwork. lia.
      * cbn [work_ok bounded] in Hwork, Hb. lia.
    + rewrite (thread_step_thr j s s' Hs j' Hne) in Hw.
      apply (x_thr _ _ Hx Hrange j' t w Hw).
  - intros Hrange w Hw. rewrite Hm in Hw. apply (x_main _ _ Hx Hrange w Hw).
Qed.

Lemma extra_main c pc pc' s s' :
  InvRun c (Some pc) s -> InvRun c (Some pc') s' -> Extra c s ->
  mainpc s = MRun c pc -> step_run c pc s = Some s' ->
  mainpc s' = MRun c pc' -> Extra c s'.
Proof.
  intros H H' Hx Hm Hs Hm'.
  destruct (main_step_event c pc s s' Hs) as [Hthr Hev].
  constructor.
  - intros t Ht. destruct Hev as [Htr|(e & Htr & Hne)].
    + apply (children_mono c s s' t (ir_gates _ _ _ H'));
        [intros x; unfold posted; rewrite Htr; lia|].
      apply (x_kids _ _ Hx). unfold signalled in *. rewrite <- Htr. exact Ht.
    + apply (children_mono c s s' t (ir_gates _ _ _ H')
               (event_posted s s' e Htr)).
      apply (x_kids _ _ Hx). rewrite <- (event_signalled s s' e Htr Hne).
      exact Ht.
  - intros Hrange j t w Hw. rewrite Hthr in Hw.
    apply (x_thr _ _ Hx Hrange j t w Hw).
  - intros Hrange w Hw.
    destruct (main_step_work c pc s s' w Hs Hw) as [->|(w0 & -> & Hstep)];
      [exact I|].
    pose proof (x_main _ _ Hx Hrange w0 Hm) as Hb.
    pose proof (ir_main _ _ _ H) as Hmain. cbn [main_ok] in Hmain.
    destruct Hmain as (_ & Hwork & _).
    pose proof (ir_desc _ _ _ H) as Hdesc. cbn [desc_ok] in Hdesc.
    destruct w as [|p|p e]; cbn [work_step bounded] in *;
      [contradiction|exact I|].
    destruct Hstep as [[-> ->]|(p0 & -> & -> & Hne)].
    + cbn [work_ok] in Hwork. lia.
    + cbn [work_ok bounded] in Hwork, Hb. lia.
Qed.

(** No thread is inside [doWork] when the main thread is outside the
    pool's code. *)
Lemma idle_no_work s last j t w :
  Inv s -> mainpc s = MIdle last -> thr s j <> TWork t w.
Proof.
  intros H Hm Hw. unfold Inv in H. rewrite Hm in H. destruct last as [c|].
  - pose proof (ir_slots _ _ _ H j) as Hok. rewrite Hw in Hok.
    cbn [slot_ok] in Hok. destruct Hok as ((Hsg & _ & Hp & _) & _).
    pose proof (ir_main _ _ _ H) as Hmain. cbn [main_ok] in Hmain.
    destruct Hmain as (_ & _ & _ & _ & Hall).
    pose proof (Hall t (g_range _ _ (ir_gates _ _ _ H) t Hp)). congruence.
  - destruct H as [Hq _].
    assert (Hj : 1 <= j < maxThreads)
      by (apply (tids_slots _ (q_tids _ Hq)); rewrite Hw; discriminate).
    pose proof (q_parked _ Hq j Hj) as Hp. rewrite Hw in Hp. discriminate Hp.
Qed.

(** Only a step of [runInternal] leads the main thread to a place of
    [runInternal]. *)
Lemma main_step_run s s' c pc' :
  step_main s = Some s' -> mainpc s' = MRun c pc' ->
  exists pc, mainpc s = MRun c pc /\ step_run c pc s = Some s'.
Proof.
  intros Hs Hm.
  destruct (mainpc s) as [| | | |i| |last|c0 pc0|d|] eqn:E.
  8: { assert (Hr : in_round c0 s) by (left; eexists; exact E).
       assert (Hs' : step AMain s = Some s') by exact Hs.
       destruct (round_keeps_call c0 AMain s s' Hr I Hs') as [[pc1 H1]|H1];
         rewrite Hm in H1; [|discriminate H1].
       injection H1 as -> _. exists pc0. split; [reflexivity|].
       unfold step_main in Hs. rewrite E in Hs. exact Hs. }
  all: unfold step_main in Hs; rewrite E in Hs;
    try (unfold step_dtor in Hs; cbv zeta in Hs);
    repeat match type of Hs with
    | context [match ?x with _ => _ end] => destruct x
    | context [if ?b then _ else _] => destruct b
    end;
    try discriminate Hs; injection Hs as <-;
    cbn [mainpc set_mainpc] in Hm; discriminate Hm.
Qed.

Theorem Inv2_step a s s' : Inv s -> Inv2 s -> step a s = Some s' -> Inv2 s'.
Proof.
  intros H H2 Hs. pose proof (Inv_step _ _ _ H Hs) as H'.
  unfold Inv2. destruct (mainpc s') as [| | | | | | |c pc'| |] eqn:Em';
    try exact I.
  assert (Hr' : InvRun c (Some pc') s')
    by (unfold Inv in H'; rewrite Em' in H'; exact H').
  destruct a as [n b e| | |j]; cbn [step] in Hs.
  - destruct (mainpc s) eqn:Em; try discriminate Hs.
    destruct (is_unsigned n); [|discriminate Hs]. injection Hs as <-.
    cbn [mainpc set_mainpc] in Em'. injection Em' as <- <-.
    constructor.
    + intros t Ht. unfold signalled in Ht.
      cbn [trace set_mainpc set_trace dones] in Ht. rewrite cnt_nil in Ht.
      discriminate Ht.
    + intros _ j t w Hw. cbn [thr set_mainpc set_trace] in Hw.
      destruct (idle_no_work s _ j t w H Em Hw).
    + intros _ w Hw. cbn [mainpc set_mainpc] in Hw. discriminate Hw.
  - destruct (mainpc s); try discriminate Hs. injection Hs as <-.
    cbn [mainpc set_mainpc] in Em'. discriminate Em'.
  - destruct (main_step_run s s' c pc' Hs Em') as (pc & Em & Hrun).
    assert (Hr : InvRun c (Some pc) s)
      by (unfold Inv in H; rewrite Em in H; exact H).
    unfold Inv2 in H2. rewrite Em in H2.
    apply (extra_main c pc pc' s s' Hr Hr' H2 Em Hrun Em').
  - pose proof (step_thread_mainpc _ _ _ Hs) as Hm. rewrite Em' in Hm.
    symmetry in Hm.
    assert (Hr : InvRun c (Some pc') s)
      by (unfold Inv in H; rewrite Hm in H; exact H).
    unfold Inv2 in H2. rewrite Hm in H2.
    apply (extra_thread c pc' s j s' Hr Hr' H2 Hs).
Qed.

Lemma Inv2_exec sched : forall s s',
  Inv s -> Inv2 s -> exec sched s = Some s' -> Inv2 s'.
Proof.
  induction sched as [|a rest IH]; intros s s' H H2 Hs; cbn [exec] in Hs.
  - injection Hs as <-. assumption.
  - destruct (step a s) as [s1|] eqn:E; [|discriminate Hs].
    apply (IH s1 s'); [eapply Inv_step|eapply Inv2_step|]; eassumption.
Qed.

Lemma extra_reachable sched s c pc :
  exec sched getSystemThreadPool = Some s -> mainpc s = MRun c pc ->
  Extra c s.
Proof.
  intros Hs Hm.
  assert (H2 : Inv2 s) by (apply (Inv2_exec sched _ _ Inv_init I Hs)).
  unfold Inv2 in H2. rewrite Hm in H2. exact H2.
Qed.

(** ** Every round can be completed *)

Lemma run_slot_has_tid c pc s j :
  InvRun c pc s -> 1 <= j < maxThreads -> exists t, tid_of (thr s j) = Some t.
Proof.
  intros H Hj. pose proof (ir_slots _ _ _ H j) as Hpc.
  pose proof (proj2 (tids_slots _ (ir_tids _ _ _ H) j) Hj) as Hn.
  destruct (thr s j); cbn [slot_ok] in Hpc; try contradiction;
    cbn [tid_of]; eauto.
Qed.

(** Every id has its thread. *)
Lemma run_owner c pc s t :
  InvRun c pc s -> 1 <= t < maxThreads ->
  exists j, 1 <= j < maxThreads /\ tid_of (thr s j) = Some t.
Proof.
  intros H Ht. pose proof (ir_tids _ _ _ H) as Htids.
  set (f := fun j => match tid_of (thr s j) with Some x => x | None => 0 end).
  set (slots := seqZ 1 (Z.to_nat (maxThreads - 1))).
  assert (Hf : forall j, In j slots -> tid_of (thr s j) = Some (f j)).
  { intros j Hj. apply seqZ_In in Hj.
    destruct (run_slot_has_tid c pc s j H ltac:(lia)) as [x Hx].
    unfold f. rewrite Hx. reflexivity. }
  assert (Hnd : NoDup (map f slots)).
  { apply NoDup_map_NoDup_ForallPairs; [|apply seqZ_NoDup].
    intros a b Ha Hb Hab. apply (tids_inj _ Htids a b (f a)).
    - apply Hf. exact Ha.
    - rewrite Hab. apply Hf. exact Hb. }
  assert (Hrange : forall x, In x (map f slots) -> 1 <= x < maxThreads).
  { intros x Hx. apply in_map_iff in Hx. destruct Hx as (j & <- & Hj).
    apply (tids_range _ Htids j). apply Hf. exact Hj. }
  assert (Hlen : maxThreads - 1 <= Z.of_nat (length (map f slots))).
  { rewrite length_map. unfold slots. rewrite seqZ_length. lia. }
  pose proof (NoDup_range_full _ 1 maxThreads Hnd Hrange Hlen t Ht) as Hin.
  apply in_map_iff in Hin. destruct Hin as (j & Hj & Hjin).
  exists j. split; [apply seqZ_In in Hjin; lia|].
  rewrite <- Hj. apply Hf. exact Hjin.
Qed.

(** An id in 1..n that is not in a list shorter than [n]. *)
Lemma find_missing (l : list Z) (n : nat) :
  (length l < n)%nat -> exists t, 1 <= t < 1 + Z.of_nat n /\ ~ In t l.
Proof.
  intros Hlen.
  destruct (Forall_Exists_dec (fun x => In x l)
              (fun x => in_dec Z.eq_dec x l) (seqZ 1 n)) as [Hall|Hex].
  - exfalso.
    assert (Hincl : incl (seqZ 1 n) l)
      by (intros x Hx; rewrite Forall_forall in Hall; apply Hall; exact Hx).
    pose proof (NoDup_incl_length (seqZ_NoDup 1 n) Hincl) as Hle.
    rewrite seqZ_length in Hle. lia.
  - apply Exists_exists in Hex. destruct Hex as (t & Hin & Hnot).
    exists t. split; [apply seqZ_In in Hin; lia|exact Hnot].
Qed.

Lemma todo_same c s s' pc :
  (forall t, tid_of pc = Some t -> signalled s' t = signalled s t) ->
  thread_todo c s' pc = thread_todo c s pc.
Proof.
  intros H. unfold thread_todo.
  destruct (tid_of pc) as [t|]; [rewrite (H t eq_refl)|]; reflexivity.
Qed.

Lemma round_left_main c pc pc' s s' :
  mainpc s = MRun c pc -> mainpc s' = MRun c pc' -> thr s' = thr s ->
  (forall t, signalled s' t = signalled s t) ->
  (run_path c pc' < run_path c pc)%nat ->
  (round_left c s' < round_left c s)%nat.
Proof.
  intros Hm Hm' Hthr Hsg Hlt. unfold round_left. rewrite Hm, Hm', Hthr.
  rewrite (map_ext (fun j => thread_todo c s' (thr s j))
                   (fun j => thread_todo c s (thr s j)))
    by (intros j; apply todo_same; intros; apply Hsg).
  lia.
Qed.

Lemma run_path_cascade c :
  run_path c (RCascade 1) = (Z.to_nat (wend c - wbegin c) + 9)%nat /\
  run_path c (RCascade 2) = (Z.to_nat (wend c - wbegin c) + 8)%nat.
Proof. split; reflexivity. Qed.

Lemma thread_path_cascade c t :
  thread_path c (TCascade t 1) = (Z.to_nat (wend c - wbegin c) + 9)%nat /\
  thread_path c (TCascade t 2) = (Z.to_nat (wend c - wbegin c) + 8)%nat.
Proof. split; reflexivity. Qed.

(** A step of the main thread that is not kept waiting brings the return
    nearer. *)
Lemma main_step_left c pc s :
  InvRun c (Some pc) s -> Extra c s -> wbegin c <= wend c ->
  mainpc s = MRun c pc ->
  (pc = RWait ->
   ThinBarrier.passes (started s) (sint32 (wrap32 (num c - 1))) = true) ->
  exists s', step AMain s = Some s' /\
             (returned c s' \/ (round_left c s' < round_left c s)%nat).
Proof.
  intros H Hx Hrange Hm Hwait.
  pose proof (ir_main _ _ _ H) as Hmain. pose proof (ir_desc _ _ _ H) as Hdesc.
  assert (Hstep : exists s', step_run c pc s = Some s').
  { unfold step_run. cbv zeta.
    destruct pc as [| | | | |i|w| | |]; try (eexists; reflexivity).
    - destruct (doWork 0 w s) as [s1 w1]. eexists; reflexivity.
    - rewrite (Hwait eq_refl). eexists; reflexivity. }
  destruct Hstep as [s' Hs].
  assert (Hs' : step AMain s = Some s')
    by (cbn [step]; unfold step_main; rewrite Hm; exact Hs).
  exists s'. split; [exact Hs'|].
  destruct (main_step_event c pc s s' Hs) as [Hthr Hev].
  assert (Hsg : forall t, signalled s' t = signalled s t).
  { destruct Hev as [Htr|(e & Htr & Hne)]; intros t;
      [unfold signalled; rewrite Htr; reflexivity
      |apply (event_signalled s s' e Htr Hne)]. }
  assert (Hr : in_round c s')
    by (apply (round_keeps_call c AMain s s');
        [left; eexists; exact Hm|exact I|exact Hs']).
  destruct Hr as [[pc' Hm']|Hret]; [|left; exact Hret].
  right. apply (round_left_main c pc pc' s s' Hm Hm' Hthr Hsg).
  destruct (run_path_cascade c) as [Hc1 Hc2].
  unfold step_run in Hs. cbv zeta in Hs.
  destruct pc as [| | | | |i|w| | |]; cbn [main_ok desc_ok] in Hmain, Hdesc.
  - injection Hs as <-. cbn [mainpc set_mainpc] in Hm'. injection Hm' as <-.
    cbn [run_path]. lia.
  - injection Hs as <-. cbn [mainpc set_mainpc] in Hm'. injection Hm' as <-.
    cbn [run_path]. lia.
  - injection Hs as <-. cbn [mainpc set_mainpc] in Hm'. injection Hm' as <-.
    cbn [run_path]. lia.
  - injection Hs as <-. cbn [mainpc set_mainpc] in Hm'. injection Hm' as <-.
    cbn [run_path]. lia.
  - injection Hs as <-. cbn [mainpc set_mainpc] in Hm'. injection Hm' as <-.
    rewrite Hc1. cbn [run_path]. lia.
  - destruct Hmain as (Hi & _). destruct Hi as [Hi|Hi]; subst i.
    + rewrite cascade_next_1 in Hs. injection Hs as <-.
      cbn [mainpc set_mainpc] in Hm'. injection Hm' as <-.
      rewrite Hc1, Hc2. lia.
    + rewrite cascade_next_2 in Hs. injection Hs as <-.
      cbn [mainpc set_mainpc] in Hm'. injection Hm' as <-.
      rewrite Hc2. cbn [run_path work_left]. lia.
  - destruct Hmain as (_ & Hwork & _).
    pose proof (x_main _ _ Hx Hrange w Hm) as Hb.
    destruct w as [|p|p e]; cbn [doWork] in Hs.
    + injection Hs as <-. cbn [mainpc set_mainpc] in Hm'.
      injection Hm' as <-. cbn [run_path work_left]. lia.
    + injection Hs as <-. cbn [mainpc set_mainpc] in Hm'.
      injection Hm' as <-. cbn [run_path work_left work_ok] in *.
      destruct Hdesc as [_ Hwe]. destruct Hwork as [_ Hp].
      rewrite Hwe, Hp. lia.
    + cbn [work_ok bounded] in Hwork, Hb.
      destruct (Z.eqb_spec p e) as [Hpe|Hpe]; injection Hs as <-;
        cbn [mainpc set_mainpc] in Hm'; injection Hm' as <-;
        cbn [run_path work_left]; lia.
  - rewrite (Hwait eq_refl) in Hs. injection Hs as <-.
    cbn [mainpc set_mainpc] in Hm'. injection Hm' as <-. cbn [run_path]. lia.
  - injection Hs as <-. cbn [mainpc set_mainpc] in Hm'. injection Hm' as <-.
    cbn [run_path]. lia.
  - injection Hs as <-. cbn [mainpc set_mainpc] in Hm'. discriminate Hm'.
Qed.

(** Where a step leads the thread that takes it. *)
Lemma thread_step_next j s s' :
  shutdown s = false -> step_thread j s = Some s' ->
  match thr s j with
  | TLoop t => thr s' j = TAcquire t
  | TAcquire t => thr s' j = TCascade t 1
  | TCascade t i =>
      thr s' j = match cascade_next i with
                 | Some i' => TCascade t i'
                 | None => TPrefix t
                 end
  | TPrefix t => thr s' j = TWork t WReadBegin
  | TWork t w =>
      thr s' j = match snd (doWork t w s) with
                 | Some w' => TWork t w'
                 | None => TSuffix t
                 end
  | TSuffix t => thr s' j = TSignal t
  | TSignal t => thr s' j = TLoop t /\ trace s' = EvDone t :: trace s
  | _ => True
  end.
Proof.
  unfold step_thread. intros Hsd Hs. rewrite Hsd in Hs.
  destruct (thr s j) as [| | | | | | | |tid w| | |]; try exact I;
    try (destruct (doWork tid w s) as [s1 w1] eqn:Ew; cbn [snd]);
    try (destruct (starts s tid); [discriminate Hs|]);
    injection Hs as <-;
    cbn [thr goto set_thr trace emit set_trace barrier_release set_started];
    rewrite ?upd_same; auto.
Qed.

(** A step of a worker that has not signalled brings the return nearer. *)
Lemma thread_step_left c pc s j t s' :
  InvRun c (Some pc) s -> Extra c s -> wbegin c <= wend c ->
  mainpc s = MRun c pc -> 1 <= j < maxThreads ->
  tid_of (thr s j) = Some t -> signalled s t = O ->
  step_thread j s = Some s' ->
  (round_left c s' < round_left c s)%nat.
Proof.
  intros H Hx Hrange Hm Hj Ht Hsg Hs.
  pose proof (ir_slots _ _ _ H j) as Hok.
  pose proof (step_thread_mainpc _ _ _ Hs) as Hm'.
  pose proof (thread_step_next j s s' (ir_shutdown _ _ _ H) Hs) as Hnext.
  assert (Hev : (forall x, signalled s' x = signalled s x) \/
                (thr s j = TSignal t /\ trace s' = EvDone t :: trace s)).
  { destruct (thread_step_event c s j s' Hok Hs) as [Htr|(e & Htr & Hdone)].
    - left. intros x. unfold signalled. rewrite Htr. reflexivity.
    - assert (Hcase : (forall t0, e <> EvDone t0) \/ exists t0, e = EvDone t0)
        by (destruct e;
            first [ right; eexists; reflexivity
                  | left; intros ? Hd; discriminate Hd ]).
      destruct Hcase as [Hnd|[t0 He]].
      + left. apply (event_signalled s s' e Htr Hnd).
      + right. pose proof (Hdone t0 He) as Hsig. rewrite Hsig in Ht.
        cbn [tid_of] in Ht. injection Ht as Ht. subst t0.
        split; [exact Hsig|]. rewrite <- He. exact Htr. }
  assert (Hothers : forall x, x <> j ->
             thread_todo c s' (thr s' x) = thread_todo c s (thr s x)).
  { intros x Hxj. rewrite (thread_step_thr j s s' Hs x Hxj). apply todo_same.
    intros t' Ht'.
    assert (Hne : t <> t')
      by (intros ->; apply Hxj;
          apply (tids_inj _ (ir_tids _ _ _ H) x j t' Ht' Ht)).
    destruct Hev as [Hsame|[_ Htr]]; [apply Hsame|].
    destruct (done_signalled s s' t Htr t') as [Hq _]. rewrite Hq.
    destruct (Z.eqb_spec t t'); [contradiction|reflexivity]. }
  assert (Hdec : (thread_todo c s' (thr s' j) < thread_todo c s (thr s j))%nat).
  { destruct (thread_path_cascade c t) as [Hc1 Hc2].
    unfold thread_todo at 2. rewrite Ht, Hsg.
    destruct (thr s j) as [| | | | | |t1 i| |t1 w| | |] eqn:E;
      cbn [slot_ok] in Hok; try contradiction; cbn [tid_of] in Ht;
      try discriminate Ht; injection Ht as Ht; subst;
      try (destruct Hev as [Hsame|[Hsig _]]; [|discriminate Hsig];
           unfold thread_todo).
    - rewrite Hnext. cbn [tid_of]. rewrite Hsame, Hsg. cbn [thread_path]. lia.
    - rewrite Hnext. cbn [tid_of]. rewrite Hsame, Hsg, Hc1.
      cbn [thread_path]. lia.
    - destruct Hok as (Hi & _). destruct Hi as [Hi|Hi]; subst i.
      + rewrite cascade_next_1 in Hnext. rewrite Hnext. cbn [tid_of].
        rewrite Hsame, Hsg, Hc1, Hc2. lia.
      + rewrite cascade_next_2 in Hnext. rewrite Hnext. cbn [tid_of].
        rewrite Hsame, Hsg, Hc2. cbn [thread_path]. lia.
    - rewrite Hnext. cbn [tid_of]. rewrite Hsame, Hsg.
      cbn [thread_path work_left]. lia.
    - destruct Hok as (Hact & _ & Hwork).
      destruct Hact as (_ & _ & Hp & _).
      pose proof (active_running _ _ _ t H Hp Hsg) as Hrun.
      pose proof (ir_desc _ _ _ H) as Hdesc.
      assert (Hwe : workEnd s = wend c).
      { destruct pc; cbn [running] in Hrun; try discriminate Hrun;
          cbn [desc_ok] in Hdesc; tauto. }
      pose proof (x_thr _ _ Hx Hrange j t w E) as Hb.
      destruct w as [|p|p e]; cbn [doWork snd] in Hnext.
      + rewrite Hnext. cbn [tid_of]. rewrite Hsame, Hsg.
        cbn [thread_path work_left]. lia.
      + rewrite Hnext. cbn [tid_of]. rewrite Hsame, Hsg.
        cbn [thread_path work_left work_ok] in *.
        destruct Hwork as [_ Hpb]. rewrite Hwe, Hpb. lia.
      + cbn [work_ok bounded] in Hwork, Hb.
        destruct (Z.eqb_spec p e) as [Hpe|Hpe]; cbn [snd] in Hnext;
          rewrite Hnext; cbn [tid_of]; rewrite Hsame, Hsg;
          cbn [thread_path work_left]; lia.
    - rewrite Hnext. cbn [tid_of]. rewrite Hsame, Hsg. cbn [thread_path]. lia.
    - destruct Hnext as [Hnext Htr]. unfold thread_todo. rewrite Hnext.
      cbn [tid_of]. destruct (done_signalled s s' t Htr t) as [Hq _].
      rewrite Hq, Z.eqb_refl, ?Hsg. cbn [thread_path]. lia. }
  unfold round_left. rewrite Hm', Hm.
  pose proof (list_sum_upd (fun x => thread_todo c s (thr s x))
                (fun x => thread_todo c s' (thr s' x)) j
                (seqZ 1 (Z.to_nat (maxThreads - 1)))) as Hsum.
  destruct (Hsum Hothers (seqZ_NoDup _ _)) as [Hin _].
  assert (HjL : In j (seqZ 1 (Z.to_nat (maxThreads - 1))))
    by (apply seqZ_In; lia).
  specialize (Hin HjL). cbn beta in Hin. lia.
Qed.

(** While the main thread waits, a worker below [num c] that has not
    signalled, or one of its ancestors in the cascade, can take a step. *)
Lemma thread_progress c s :
  InvRun c (Some RWait) s -> Extra c s -> wbegin c <= wend c ->
  mainpc s = MRun c RWait ->
  forall (n : nat) t, 1 <= t < Z.of_nat n -> t < num c ->
    signalled s t = O ->
    exists j s', step (AThread j) s = Some s' /\
                 (round_left c s' < round_left c s)%nat.
Proof.
  intros H Hx Hrange Hm. induction n as [|n IH]; intros t Ht Htk Hsg; [lia|].
  pose proof (ir_num _ _ _ H) as Hnum.
  destruct (run_owner c _ s t H ltac:(lia)) as (j & Hj & Htid).
  pose proof (ir_slots _ _ _ H j) as Hok.
  assert (Hgo : (exists s', step_thread j s = Some s') ->
                exists j s', step (AThread j) s = Some s' /\
                             (round_left c s' < round_left c s)%nat).
  { intros [s' Hs]. exists j, s'. split; [exact Hs|].
    apply (thread_step_left c RWait s j t s' H Hx Hrange Hm Hj Htid Hsg Hs). }
  destruct (thr s j) as [| | | | |t1| | |t1 w| | |] eqn:E;
    cbn [slot_ok] in Hok; try contradiction; cbn [tid_of] in Htid;
    try discriminate Htid; injection Htid as Htid; subst;
    try (apply Hgo; unfold step_thread; rewrite E;
         try (destruct (doWork t w s) as [s1 w1]);
         eexists; reflexivity).
  destruct (starts s t) as [|v] eqn:Est.
  2: { apply Hgo. unfold step_thread. rewrite E, Est. eexists; reflexivity. }
  destruct Hok as [Hone|(_ & Hw & _)]; [congruence|].
  pose proof (g_wake _ _ (ir_gates _ _ _ H) t) as Hwake.
  assert (Hp0 : posted s t = O) by lia.
  assert (Hpar : exists p, 0 <= p < t /\ (t = 2 * p + 1 \/ t = 2 * p + 2)).
  { exists ((t - 1) / 2).
    pose proof (Z.div_mod (t - 1) 2 ltac:(lia)).
    pose proof (Z.mod_pos_bound (t - 1) 2 ltac:(lia)). lia. }
  destruct Hpar as (p & Hp & Hchild).
  assert (Hkids : children_posted c s p -> False).
  { intros [H1 H2]. destruct Hchild as [Hc|Hc]; subst t.
    - destruct (Z.ltb_spec (2 * p + 1) (num c)); [congruence|lia].
    - destruct (Z.ltb_spec (2 * p + 2) (num c)); [congruence|lia]. }
  destruct (Z.eq_dec p 0) as [Hp0'|Hp1].
  - exfalso. apply Hkids. subst p. apply kids_children.
    pose proof (ir_main _ _ _ H) as Hmain. cbn [main_ok] in Hmain. tauto.
  - destruct (signalled s p) as [|[|m]] eqn:Esp.
    + apply (IH p); [lia|lia|exact Esp].
    + exfalso. apply Hkids. apply (x_kids _ _ Hx p Esp).
    + pose proof (g_nodup _ _ (ir_gates _ _ _ H) p). lia.
Qed.

(** In a round on a range [wbegin c <= wend c] some thread can always take
    a step that brings the return nearer. *)
Lemma round_step c pc s :
  InvRun c (Some pc) s -> Extra c s -> wbegin c <= wend c ->
  mainpc s = MRun c pc ->
  exists a s', inner a /\ step a s = Some s' /\
               (returned c s' \/ (round_left c s' < round_left c s)%nat).
Proof.
  intros H Hx Hrange Hm.
  destruct (ThinBarrier.passes (started s) (sint32 (wrap32 (num c - 1))))
    eqn:Ep.
  - destruct (main_step_left c pc s H Hx Hrange Hm (fun _ => Ep))
      as (s' & Hs & Hdec).
    exists AMain, s'. split; [exact I|]. split; assumption.
  - assert (Hcase : pc = RWait \/ pc <> RWait)
      by (destruct pc; first [left; reflexivity|right; discriminate]).
    destruct Hcase as [Hw|Hne].
    + subst pc.
      pose proof (ir_main _ _ _ H) as Hmain. cbn [main_ok] in Hmain.
      destruct Hmain as (_ & _ & _ & Hcount).
      pose proof (ir_num _ _ _ H) as Hnum.
      unfold ThinBarrier.passes in Ep.
      rewrite wrap32_small, sint32_small in Ep by lia.
      apply Bool.negb_false_iff in Ep. apply Z.ltb_lt in Ep.
      unfold counted in Hcount.
      destruct (find_missing (dones (trace s)) (Z.to_nat (num c - 1))
                  ltac:(lia)) as (t & Ht & Hnot).
      assert (Hsg : signalled s t = O).
      { unfold signalled.
        destruct (cnt (dones (trace s)) t) eqn:E; [reflexivity|].
        exfalso. apply Hnot. apply cnt_In. lia. }
      destruct (thread_progress c s H Hx Hrange Hm (Z.to_nat (num c)) t
                  ltac:(lia) ltac:(lia) Hsg) as (j & s' & Hs & Hdec).
      exists (AThread j), s'. split; [exact I|].
      split; [exact Hs|right; exact Hdec].
    + destruct (main_step_left c pc s H Hx Hrange Hm
                  (fun E => match Hne E with end)) as (s' & Hs & Hdec).
      exists AMain, s'. split; [exact I|]. split; assumption.
Qed.

Lemma run_path_positive c pc : (2 <= run_path c pc)%nat.
Proof.
  destruct pc as [| | | | |i|w| | |]; cbn [run_path]; try lia.
  destruct (i =? 1); lia.
Qed.

Lemma round_completes n : forall s c pc,
  Inv s -> Inv2 s -> wbegin c <= wend c -> mainpc s = MRun c pc ->
  (round_left c s <= n)%nat ->
  exists more s', Forall inner more /\ exec more s = Some s' /\ returned c s'.
Proof.
  induction n as [|n IH]; intros s c pc H H2 Hrange Hm Hn.
  - exfalso. unfold round_left in Hn. rewrite Hm in Hn.
    pose proof (run_path_positive c pc). lia.
  - assert (Hr : InvRun c (Some pc) s)
      by (unfold Inv in H; rewrite Hm in H; exact H).
    assert (Hx : Extra c s) by (unfold Inv2 in H2; rewrite Hm in H2; exact H2).
    destruct (round_step c pc s Hr Hx Hrange Hm) as (a & s1 & Ha & Hs & Hdec).
    pose proof (Inv_step _ _ _ H Hs) as H1.
    pose proof (Inv2_step _ _ _ H H2 Hs) as H21.
    assert (Hone : returned c s1 ->
              exists more s', Forall inner more /\ exec more s = Some s' /\
                              returned c s').
    { intros Hret. exists [a], s1. split; [repeat constructor; exact Ha|].
      split; [cbn [exec]; rewrite Hs; reflexivity|exact Hret]. }
    destruct Hdec as [Hret|Hlt]; [exact (Hone Hret)|].
    assert (Hin : in_round c s1)
      by (apply (round_keeps_call c a s s1);
          [left; eexists; exact Hm|exact Ha|exact Hs]).
    destruct Hin as [[pc1 Hm1]|Hret]; [|exact (Hone Hret)].
    destruct (IH s1 c pc1 H1 H21 Hrange Hm1 ltac:(lia))
      as (more & s' & Hi & Hx' & Hret).
    exists (a :: more), s'. split; [constructor; assumption|].
    split; [cbn [exec]; rewrite Hs; exact Hx'|exact Hret].
Qed.

(** At the return every worker has posted its children. *)
Lemma children_at_return c s t :
  InvRun c None s -> 0 <= t -> children_posted c s t.
Proof.
  intros H Ht. pose proof (ir_gates _ _ _ H) as Hg.
  pose proof (ir_main _ _ _ H) as Hm. cbn [main_ok] in Hm.
  destruct Hm as (_ & _ & _ & _ & Hall).
  assert (Hone : forall x, 1 <= x ->
             posted s x = (if x <? num c then 1%nat else 0%nat)).
  { intros x Hx. pose proof (g_once _ _ Hg x).
    pose proof (g_range _ _ Hg x) as Hr.
    destruct (Z.ltb_spec x (num c)).
    - apply (g_done _ _ Hg x). apply Hall. lia.
    - destruct (posted s x) as [|[|m]];
        [reflexivity|specialize (Hr eq_refl); lia|lia]. }
  split; apply Hone; lia.
Qed.

(** C1: in every round of [k = num c] workers the cascade wakes exactly
    the workers 1, ..., k-1 (worker 0 is the caller).  An iteration of
    [cascade] posts the semaphore of the child iff the child is below
    [starting]; no semaphore is ever posted twice; the semaphore of a worker
    outside 1..k-1 is never posted, such a worker is never woken, and a
    worker outside 0..k-1 never calls a work item; for [k = 1] no semaphore
    is posted at all; when [runInternal] returns every worker in 1..k-1
    has been posted and woken exactly once.  Every worker does its part: a
    thread that has left its cascade, a worker that has signalled, and the
    main thread once it has left [cascade(0)], have posted each of their
    two children that is below [k] and no other.  And the round does not
    get stuck: on a range [wbegin c <= wend c], from every state of the
    round some schedule of the threads leads to the return. *)
Theorem cascade_activates_exactly sched s c :
  exec sched getSystemThreadPool = Some s -> in_round c s ->
  (forall t i st,
      posts (trace (cascade t i st)) =
      if child t i <? starting st then child t i :: posts (trace st)
      else posts (trace st)) /\
  (forall t, (posted s t <= 1)%nat /\ (woken s t <= posted s t)%nat) /\
  (forall t, ~ 1 <= t < num c -> posted s t = O /\ woken s t = O) /\
  (forall t, ~ 0 <= t < num c -> execs t (trace s) = []) /\
  (num c = 1 -> posts (trace s) = []) /\
  (returned c s ->
   forall t, 1 <= t < num c -> posted s t = 1%nat /\ woken s t = 1%nat) /\
  (forall j t, tid_of (thr s j) = Some t -> past_cascade (thr s j) = true ->
               children_posted c s t) /\
  (forall t, signalled s t = 1%nat -> children_posted c s t) /\
  ((returned c s \/
    exists pc, mainpc s = MRun c pc /\ after_cascade pc = true) ->
   children_posted c s 0) /\
  (wbegin c <= wend c ->
   exists more s',
     Forall inner more /\ exec more s = Some s' /\ returned c s').
Proof.
  intros Hs Hr. destruct (round_inv _ _ _ Hs Hr) as [pc H].
  assert (HI : Inv s) by (apply Inv_reachable; eexists; eassumption).
  pose proof (ir_gates _ _ _ H) as Hg. pose proof (ir_num _ _ _ H) as Hnum.
  assert (Hout : forall t, ~ 1 <= t < num c -> posted s t = O /\ woken s t = O).
  { intros t Ht. pose proof (g_once _ _ Hg t). pose proof (g_wake _ _ Hg t).
    pose proof (g_range _ _ Hg t).
    destruct (posted s t) as [|[|n]] eqn:E; [lia| |lia].
    exfalso. apply Ht. auto. }
  split; [apply cascade_posts|].
  split; [intros t; pose proof (g_once _ _ Hg t); pose proof (g_wake _ _ Hg t); lia|].
  split; [assumption|].
  split.
  { intros t Ht. apply (g_idle _ _ Hg); [lia|]. apply Hout. lia. }
  split.
  { intros Hk. apply cnt_all_zero. intros t. apply (Hout t). lia. }
  split.
  { intros Hret t Ht.
    pose proof (return_inv _ _ _ Hs Hret) as H0.
    pose proof (ir_main _ _ _ H0) as Hm. cbn [main_ok] in Hm.
    destruct Hm as (_ & _ & _ & _ & Hall).
    pose proof (g_done _ _ (ir_gates _ _ _ H0) t (Hall t Ht)) as (Hp & Hst & _).
    pose proof (g_wake _ _ (ir_gates _ _ _ H0) t). lia. }
  split; [intros j t; apply (past_cascade_children c pc s j t H)|].
  split.
  { intros t Ht. destruct Hr as [[pc1 Hm]|Hret].
    - apply (x_kids _ _ (extra_reachable _ _ _ _ Hs Hm) t Ht).
    - apply (children_at_return c s t (return_inv _ _ _ Hs Hret)).
      pose proof (g_done _ _ Hg t Ht) as (Hp & _).
      pose proof (g_range _ _ Hg t Hp). lia. }
  split.
  { intros [Hret|(pc1 & Hm & Hafter)].
    - apply (children_at_return c s 0 (return_inv _ _ _ Hs Hret)). lia.
    - assert (Hr1 : InvRun c (Some pc1) s)
        by (unfold Inv in HI; rewrite Hm in HI; exact HI).
      apply (after_cascade_children c (Some pc1) s Hr1 Hafter). }
  intros Hrange. destruct Hr as [[pc1 Hm]|Hret].
  - apply (round_completes (round_left c s) s c pc1 HI
             (Inv2_exec sched _ _ Inv_init I Hs) Hrange Hm (le_n _)).
  - exists [], s. split; [constructor|]. split; [reflexivity|exact Hret].
Qed.

End ThreadPool.

(** ** Construction, clamping and binding for every size of the pool *)

(** With [maxThreads = 1] the constructor runs through on its own: six
    steps of the main thread, none of them a [pthread_create]. *)
Lemma ctor_alone EnvCheck :
  exists s, exec 1 EnvCheck (repeat AMain 6) getSystemThreadPool = Some s /\
            mainpc s = MIdle None /\ creates (trace s) = [] /\
            forall j, thr s j = TNone.
Proof.
  eexists. split; [vm_compute; reflexivity|]. split; [reflexivity|]. split.
  - cbn [trace].
    destruct (EnvCheck "GALOIS_DO_NOT_BIND_THREADS"%string),
      (EnvCheck "GALOIS_DO_NOT_BIND_MAIN_THREAD"%string); reflexivity.
  - reflexivity.
Qed.

(** C4: while the constructor waits at [started.acquire(maxThreads)] it can
    go on exactly when every worker 0..maxThreads-1 has signalled; when it
    has returned the counter is [maxThreads], every worker 0..maxThreads-1
    has signalled exactly once and no other id has, what each worker [t]
    did before is, in this order, [initTID(t)], [initPTS()], the binding to
    processor [t] unless an option forbids it, and then its one signal,
    and the slots 1..maxThreads-1 were created, each once; with
    [maxThreads = 1] construction ends after six steps of the main thread
    without any thread created. *)
Theorem constructor_waits_for_all maxThreads EnvCheck sched s :
  1 <= maxThreads < 2 ^ 31 ->
  exec maxThreads EnvCheck sched getSystemThreadPool = Some s ->
  (mainpc s = MWaitReady ->
     (step maxThreads EnvCheck AMain s <> None <->
      forall t, 0 <= t < maxThreads -> In t (readies (trace s)))) /\
  (mainpc s = MIdle None ->
     ThinBarrier.started (started s) = maxThreads /\
     (forall t, 0 <= t < maxThreads -> cnt (readies (trace s)) t = 1%nat) /\
     (forall t, ~ 0 <= t < maxThreads -> cnt (readies (trace s)) t = O) /\
     (forall t, 0 <= t < maxThreads ->
        rev (inits t (trace s)) =
        [EvInitTID t; EvInitPTS t] ++
        (if negb (EnvCheck "GALOIS_DO_NOT_BIND_THREADS"%string) &&
            (negb (t =? 0) ||
             negb (EnvCheck "GALOIS_DO_NOT_BIND_MAIN_THREAD"%string))
         then [EvBind t t] else []) ++
        [EvReady t]) /\
     creates (trace s) = rev (seqZ 1 (Z.to_nat (maxThreads - 1)))) /\
  (maxThreads = 1 ->
     exists s', exec maxThreads EnvCheck (repeat AMain 6) getSystemThreadPool
                = Some s' /\
                mainpc s' = MIdle None /\ creates (trace s') = [] /\
                forall j, thr s' j = TNone).
Proof.
  intros Hr Hs.
  destruct (constructor_rendezvous maxThreads EnvCheck Hr sched s Hs) as [H1 H2].
  split; [exact H1|]. split; [|intros ->; apply ctor_alone].
  intros Hm. destruct (H2 Hm) as (Hc & Hin & Hout & Hinits & Hcr).
  split; [exact Hc|]. split; [exact Hin|]. split; [exact Hout|].
  split; [|exact Hcr].
  intros t Ht. rewrite (Hinits t Ht). unfold initThread.
  destruct (EnvCheck "GALOIS_DO_NOT_BIND_THREADS"%string),
    (EnvCheck "GALOIS_DO_NOT_BIND_MAIN_THREAD"%string), (t =? 0);
    reflexivity.
Qed.

(** C6: the first statement of [runInternal] replaces [num] by
    [min(max(num, 1), maxThreads)]: 0 becomes 1, a count above [maxThreads]
    becomes [maxThreads], a count from 1 to [maxThreads] is kept; a call on
    an idle pool is accepted and changes nothing but the place of the main
    thread, with the clamped count, so a call with 0 takes the very step of
    a call with 1 and a call with [maxThreads + n], [n > 0], the very step
    of a call with [maxThreads]; and whatever the threads do until the call
    returns, the call stays the one with the clamped count, which is
    between 1 and [maxThreads] and is the value of [starting] once that is
    stored. *)
Theorem run_clamps_count maxThreads EnvCheck :
  1 <= maxThreads < 2 ^ 31 ->
  (sanitize maxThreads 0 = 1 /\
   (forall n, 1 <= n <= maxThreads -> sanitize maxThreads n = n) /\
   (forall n, maxThreads <= n -> sanitize maxThreads n = maxThreads)) /\
  (forall s last n b e,
     mainpc s = MIdle last -> is_unsigned n = true ->
     step maxThreads EnvCheck (ACall n b e) s =
     Some (set_mainpc (MRun (Call (sanitize maxThreads n) b e) RStoreStarting)
             (set_trace [] s))) /\
  (forall s b e,
     step maxThreads EnvCheck (ACall 0 b e) s =
     step maxThreads EnvCheck (ACall 1 b e) s) /\
  (forall s n b e, 0 < n -> maxThreads + n < 2 ^ 32 ->
     step maxThreads EnvCheck (ACall (maxThreads + n) b e) s =
     step maxThreads EnvCheck (ACall maxThreads b e) s) /\
  (forall s n b e s',
     step maxThreads EnvCheck (ACall n b e) s = Some s' ->
     mainpc s' = MRun (Call (sanitize maxThreads n) b e) RStoreStarting /\
     1 <= sanitize maxThreads n <= maxThreads /\
     starting s' = starting s /\ workBegin s' = workBegin s /\
     workEnd s' = workEnd s /\ started s' = started s /\
     starts s' = starts s /\ thr s' = thr s /\ shutdown s' = shutdown s /\
     trace s' = []) /\
  (forall sched s n b e more s',
     exec maxThreads EnvCheck sched getSystemThreadPool = Some s ->
     exec maxThreads EnvCheck (ACall n b e :: more) s = Some s' ->
     Forall inner more ->
     in_round (Call (sanitize maxThreads n) b e) s' /\
     1 <= sanitize maxThreads n <= maxThreads /\
     (mainpc s' <>
        MRun (Call (sanitize maxThreads n) b e) RStoreStarting ->
      starting s' = sanitize maxThreads n)).
Proof.
  intros Hr. split.
  { unfold sanitize. repeat split; intros; lia. }
  split.
  { intros s last n b e Hm Hu. cbn [step]. rewrite Hm, Hu. reflexivity. }
  split; [intros; apply call_zero|].
  split; [intros; apply call_above; assumption|].
  split; [intros s n b e s'; apply call_clamps; assumption|].
  intros sched s n b e more s' Hs Hx Hi. cbn [exec] in Hx.
  destruct (step maxThreads EnvCheck (ACall n b e) s) as [s1|] eqn:E;
    [|discriminate Hx].
  destruct (call_clamps maxThreads EnvCheck Hr s n b e s1 E) as (Hm1 & Hn & _).
  assert (Hr1 : in_round (Call (sanitize maxThreads n) b e) s1)
    by (left; eexists; exact Hm1).
  assert (Hr' : in_round (Call (sanitize maxThreads n) b e) s')
    by (eapply round_keeps_calls; try exact Hr; [exact Hr1|exact Hi|exact Hx]).
  split; [exact Hr'|]. split; [exact Hn|].
  assert (Hreach : exec maxThreads EnvCheck (sched ++ ACall n b e :: more)
                     getSystemThreadPool = Some s').
  { rewrite exec_app, Hs. cbn [exec]. rewrite E. exact Hx. }
  intros Hne. destruct Hr' as [[pc Hpc]|Hret].
  - destruct (starting_clamped maxThreads EnvCheck Hr _ s' _ pc Hreach Hpc)
      as [_ Hst].
    apply Hst. intros ->. apply Hne. exact Hpc.
  - apply (starting_at_return maxThreads EnvCheck Hr _ s' _ Hreach Hret).
Qed.

(** C9: [initThread(tid)] binds the thread, and then to processor [tid],
    exactly when GALOIS_DO_NOT_BIND_THREADS is not set and, for [tid = 0],
    GALOIS_DO_NOT_BIND_MAIN_THREAD is not set either; it binds nothing
    else; for [tid <> 0] what it does is the same in two environments that
    differ in GALOIS_DO_NOT_BIND_MAIN_THREAD alone; and in a constructed
    pool the bindings of a worker are those of its [initThread]. *)
Theorem binding_policy (EnvCheck : string -> bool) (tid : Z) :
  (In (EvBind tid tid) (initThread EnvCheck tid) <->
     EnvCheck "GALOIS_DO_NOT_BIND_THREADS"%string = false /\
     (tid = 0 -> EnvCheck "GALOIS_DO_NOT_BIND_MAIN_THREAD"%string = false)) /\
  (forall t p, In (EvBind t p) (initThread EnvCheck tid) ->
               t = tid /\ p = tid) /\
  (tid <> 0 -> forall EnvCheck' : string -> bool,
     (forall name, name <> "GALOIS_DO_NOT_BIND_MAIN_THREAD"%string ->
                   EnvCheck' name = EnvCheck name) ->
     initThread EnvCheck' tid = initThread EnvCheck tid) /\
  (forall maxThreads sched s p,
     1 <= maxThreads < 2 ^ 31 ->
     exec maxThreads EnvCheck sched getSystemThreadPool = Some s ->
     mainpc s = MIdle None -> 0 <= tid < maxThreads ->
     (In (EvBind tid p) (trace s) <->
      In (EvBind tid p) (initThread EnvCheck tid))).
Proof.
  split; [|split; [|split]].
  - unfold initThread.
    destruct (EnvCheck "GALOIS_DO_NOT_BIND_THREADS"%string),
      (EnvCheck "GALOIS_DO_NOT_BIND_MAIN_THREAD"%string),
      (Z.eqb_spec tid 0) as [->|Hne]; cbn;
      intuition (try discriminate; try congruence).
  - intros t p. unfold initThread.
    destruct (EnvCheck "GALOIS_DO_NOT_BIND_THREADS"%string),
      (EnvCheck "GALOIS_DO_NOT_BIND_MAIN_THREAD"%string), (tid =? 0); cbn;
      intuition (try discriminate; try congruence).
  - intros Hne env' Hsame. unfold initThread.
    rewrite (Hsame "GALOIS_DO_NOT_BIND_THREADS"%string) by discriminate.
    destruct (Z.eqb_spec tid 0) as [E|_]; [contradiction|]. reflexivity.
  - intros maxThreads sched s p Hr Hs Hm Ht.
    apply (bind_constructed maxThreads EnvCheck Hr sched s tid p Hs Hm Ht).
Qed.

(** ** The counter of the barrier before its first use *)

(** The constructor of ThinBarrier writes nothing, whatever its
    argument: built in storage whose counter holds 7, a pool of two
    threads returns from its constructor after the signal of worker 0
    alone, while the spawned thread has not yet drawn its id; in the
    zeroed storage of [getSystemThreadPool] the same seven steps of the
    main thread cannot be taken, the last one waits. *)
Theorem thin_barrier_keeps_storage :
  (forall b v, ThinBarrier.ctor b v = b) /\
  (exists s,
     exec 2 (fun _ => false) (repeat AMain 7) (storage 7 0) = Some s /\
     mainpc s = MIdle None /\ readies (trace s) = [0] /\
     thr s 1 = TStart /\ ThinBarrier.started (started s) = 8) /\
  exec 2 (fun _ => false) (repeat AMain 7) getSystemThreadPool = None /\
  (exists s,
     exec 2 (fun _ => false) (repeat AMain 6) getSystemThreadPool = Some s /\
     mainpc s = MWaitReady /\ ThinBarrier.started (started s) = 1).
Proof.
  split; [reflexivity|]. split; [|split].
  - eexists. split; [vm_compute; reflexivity|]. repeat split.
  - vm_compute. reflexivity.
  - eexists. split; [vm_compute; reflexivity|]. repeat split.
Qed.




(** ** Failures of the OS primitives *)

Module Fatal.
Import OS.

Lemma release_loop_dies n : forall good r os,
  Forall Lifecycle.fine good -> (length good < n)%nat -> rc r <> 0 ->
  Semaphore.release_loop n (good ++ r :: os) = Die (Diag 70 "PTHREAD").
Proof.
  induction n as [|n IH]; intros good r os Hg Hl Hr; [inversion Hl|].
  destruct good as [|g good]; cbn [app Semaphore.release_loop].
  - apply Z.eqb_neq in Hr. rewrite Hr. reflexivity.
  - inversion Hg as [|? ? Hf Hg']; subst. unfold Lifecycle.fine in Hf.
    rewrite Hf. cbn [Z.eqb]. apply IH; [assumption|cbn [length] in Hl; lia|assumption].
Qed.

Lemma create_loop_dies n : forall good r os,
  Forall Lifecycle.fine good -> (length good < n)%nat -> rc r <> 0 ->
  Lifecycle.create_loop n (good ++ r :: os) = Die (Diag 180 "PTHREAD").
Proof.
  induction n as [|n IH]; intros good r os Hg Hl Hr; [inversion Hl|].
  destruct good as [|g good]; cbn [app Lifecycle.create_loop].
  - apply Z.eqb_neq in Hr. rewrite Hr. reflexivity.
  - inversion Hg as [|? ? Hf Hg']; subst. unfold Lifecycle.fine in Hf.
    rewrite Hf. cbn [Z.eqb]. apply IH; [assumption|cbn [length] in Hl; lia|assumption].
Qed.

Lemma join_loop_dies n : forall good r os,
  Forall Lifecycle.fine good -> (length good < n)%nat -> rc r <> 0 ->
  Lifecycle.join_loop n (good ++ r :: os) = Die (Diag 193 "PTHREAD").
Proof.
  induction n as [|n IH]; intros good r os Hg Hl Hr; [inversion Hl|].
  destruct good as [|g good]; cbn [app Lifecycle.join_loop].
  - apply Z.eqb_neq in Hr. rewrite Hr. reflexivity.
  - inversion Hg as [|? ? Hf Hg']; subst. unfold Lifecycle.fine in Hf.
    rewrite Hf. cbn [Z.eqb]. apply IH; [assumption|cbn [length] in Hl; lia|assumption].
Qed.

(** The inner loop of [acquire] goes past every interrupted wait and stops
    at the first reply that is not one. *)
Lemma wait_retry_skips intr : forall r os,
  Forall (fun x => Semaphore.interrupted x = true) intr ->
  Semaphore.interrupted r = false ->
  Semaphore.wait_retry (intr ++ r :: os) = Ok (rc r, os).
Proof.
  induction intr as [|i intr IH]; intros r os Hi Hr; cbn [app Semaphore.wait_retry].
  - rewrite Hr. reflexivity.
  - inversion Hi as [|? ? Hx Hi']; subst. rewrite Hx. apply IH; assumption.
Qed.

Lemma rounds_positive n : 0 <= n -> Semaphore.rounds n = Z.to_nat n.
Proof.
  intros Hn. unfold Semaphore.rounds.
  destruct (Z.ltb_spec n 0); [lia|reflexivity].
Qed.

Lemma acquire_dies n intr r os :
  0 < n -> Forall (fun x => Semaphore.interrupted x = true) intr ->
  Semaphore.interrupted r = false -> rc r <> 0 ->
  Semaphore.acquire n (intr ++ r :: os) = Die (Diag 80 "PTHREAD").
Proof.
  intros Hn Hi Hr Hrc. unfold Semaphore.acquire.
  rewrite rounds_positive by lia.
  destruct (Z.to_nat n) as [|m] eqn:E; [lia|].
  cbn [Semaphore.acquire_loop]. rewrite wait_retry_skips by assumption.
  cbn [bind fst snd]. apply Z.eqb_neq in Hrc. rewrite Hrc. reflexivity.
Qed.

Lemma acquire_goes_on n intr r os :
  0 < n -> Forall (fun x => Semaphore.interrupted x = true) intr -> rc r = 0 ->
  Semaphore.acquire n (intr ++ r :: os) = Semaphore.acquire (n - 1) os.
Proof.
  intros Hn Hi Hrc. unfold Semaphore.acquire.
  rewrite !rounds_positive by lia.
  replace (Z.to_nat n) with (S (Z.to_nat (n - 1))) by lia.
  cbn [Semaphore.acquire_loop].
  assert (Hr : Semaphore.interrupted r = false)
    by (unfold Semaphore.interrupted; rewrite Hrc; reflexivity).
  rewrite wait_retry_skips by assumption.
  cbn [bind fst snd]. rewrite Hrc. reflexivity.
Qed.

Lemma die_line_inj p q : die_line p = die_line q -> p = q.
Proof. destruct p, q; cbn; intros H; try reflexivity; discriminate H. Qed.

End Fatal.

(** C8: the first reply of [sem_init], [sem_destroy], [sem_post],
    [pthread_create] or [pthread_join] that is not zero ends the process
    with the diagnostic of that primitive, whatever the OS would answer
    next; [acquire] goes past every [sem_wait] that returns below zero with
    [errno] EINTR, goes on after a wait that returns zero, and ends the
    process at the first other reply; a process that has ended stays so
    whatever was to follow; and the diagnostics of two different
    primitives differ. *)
Theorem primitive_failure_is_fatal :
  (forall r os, OS.rc r <> 0 ->
     Semaphore.ctor (r :: os) =
     OS.Die (OS.Diag (OS.die_line OS.sem_init) "PTHREAD")) /\
  (forall r os, OS.rc r <> 0 ->
     Semaphore.dtor (r :: os) =
     OS.Die (OS.Diag (OS.die_line OS.sem_destroy) "PTHREAD")) /\
  (forall n good r os,
     Forall Lifecycle.fine good -> Z.of_nat (length good) < n ->
     OS.rc r <> 0 ->
     Semaphore.release n (good ++ r :: os) =
     OS.Die (OS.Diag (OS.die_line OS.sem_post) "PTHREAD")) /\
  (forall intr r os,
     Forall (fun x => Semaphore.interrupted x = true) intr ->
     Semaphore.interrupted r = false ->
     Semaphore.wait_retry (intr ++ r :: os) = OS.Ok (OS.rc r, os)) /\
  (forall n intr r os,
     0 < n -> Forall (fun x => Semaphore.interrupted x = true) intr ->
     Semaphore.interrupted r = false -> OS.rc r <> 0 ->
     Semaphore.acquire n (intr ++ r :: os) =
     OS.Die (OS.Diag (OS.die_line OS.sem_wait) "PTHREAD")) /\
  (forall n intr r os,
     0 < n -> Forall (fun x => Semaphore.interrupted x = true) intr ->
     OS.rc r = 0 ->
     Semaphore.acquire n (intr ++ r :: os) = Semaphore.acquire (n - 1) os) /\
  (forall maxThreads good r os,
     Forall Lifecycle.fine good ->
     Z.of_nat (length good) < maxThreads - 1 -> OS.rc r <> 0 ->
     Lifecycle.create_loop (Z.to_nat (maxThreads - 1)) (good ++ r :: os) =
     OS.Die (OS.Diag (OS.die_line OS.pthread_create) "PTHREAD")) /\
  (forall maxThreads good r os,
     Forall Lifecycle.fine good ->
     Z.of_nat (length good) < maxThreads - 1 -> OS.rc r <> 0 ->
     Lifecycle.join_loop (Z.to_nat (maxThreads - 1)) (good ++ r :: os) =
     OS.Die (OS.Diag (OS.die_line OS.pthread_join) "PTHREAD")) /\
  (forall (A B : Type) d (k : A -> OS.outcome B),
     OS.bind (OS.Die d) k = OS.Die d) /\
  (forall p q, OS.die_line p = OS.die_line q -> p = q).
Proof.
  repeat apply conj.
  - intros r os Hr. cbn [Semaphore.ctor]. apply Z.eqb_neq in Hr. rewrite Hr.
    reflexivity.
  - intros r os Hr. cbn [Semaphore.dtor]. apply Z.eqb_neq in Hr. rewrite Hr.
    reflexivity.
  - intros n good r os Hg Hl Hr. unfold Semaphore.release.
    rewrite Fatal.rounds_positive by lia.
    apply Fatal.release_loop_dies; [assumption|lia|assumption].
  - intros intr r os. apply Fatal.wait_retry_skips.
  - intros n intr r os. apply Fatal.acquire_dies.
  - intros n intr r os. apply Fatal.acquire_goes_on.
  - intros maxThreads good r os Hg Hl Hr.
    apply Fatal.create_loop_dies; [assumption|lia|assumption].
  - intros maxThreads good r os Hg Hl Hr.
    apply Fatal.join_loop_dies; [assumption|lia|assumption].
  - reflexivity.
  - apply Fatal.die_line_inj.
Qed.

(** ** The theorems at work on the schedules of [Demo] *)

(** C3, as stated, fails: in a pool of one thread a round of one worker
    returns with the counter at zero, below [starting = 1], and worker 0 has
    not signalled. *)
Lemma initiator_does_not_signal :
  exists s,
    exec 1 Demo.env Demo.round1 getSystemThreadPool = Some s /\
    returned (Call 1 0 0) s /\ starting s = 1 /\
    ~ signalled s 0 = 1%nat /\
    ~ starting s <= ThinBarrier.started (started s).
Proof.
  eexists. split; [vm_compute; reflexivity|].
  split; [reflexivity|]. split; [reflexivity|].
  split; [intros H; vm_compute in H; discriminate H|].
  intros H. vm_compute in H. apply H. reflexivity.
Qed.

Lemma demo_range : 1 <= 3 < 2 ^ 31.
Proof. lia. Defined.

Lemma demo_range4 : 1 <= 4 < 2 ^ 31.
Proof. lia. Defined.

Lemma cascade_activates_exactly_witness :
  (exists s,
     exec 4 Demo.env Demo.round4 getSystemThreadPool = Some s /\
     returned (Call 4 10 12) s /\
     (posted s 1 = 1%nat /\ woken s 1 = 1%nat) /\
     (posted s 3 = 1%nat /\ woken s 3 = 1%nat) /\
     (posted s 4 = O /\ woken s 4 = O) /\
     In (EvPost 1 3) (trace s)) /\
  (exists s,
     exec 4 Demo.env Demo.mid4 getSystemThreadPool = Some s /\
     thr s 1 = TWork 1 WReadBegin /\
     posted s 3 = 1%nat /\ posted s 4 = O /\
     exists more s',
       exec 4 Demo.env more s = Some s' /\ returned (Call 4 10 12) s').
Proof.
  split.
  - eexists. split; [vm_compute; reflexivity|]. split; [reflexivity|].
    pose proof (cascade_activates_exactly 4 Demo.env demo_range4 Demo.round4 _
                  (Call 4 10 12) ltac:(vm_compute; reflexivity)
                  (or_intror eq_refl)) as (_ & _ & Hout & _ & _ & Hret & _).
    split; [apply (Hret eq_refl 1); cbn; lia|].
    split; [apply (Hret eq_refl 3); cbn; lia|].
    split; [apply (Hout 4); cbn; lia|].
    vm_compute. repeat (first [left; reflexivity | right]).
  - eexists. split; [vm_compute; reflexivity|]. split; [reflexivity|].
    pose proof (cascade_activates_exactly 4 Demo.env demo_range4 Demo.mid4 _
                  (Call 4 10 12) ltac:(vm_compute; reflexivity)
                  (or_introl (ex_intro _ RWait eq_refl)))
      as (_ & _ & _ & _ & _ & _ & Hpast & _ & _ & Hgo).
    destruct (Hpast 1 1 eq_refl eq_refl) as [H3 H4].
    split; [exact H3|]. split; [exact H4|].
    destruct (Hgo ltac:(cbn; lia)) as (more & s' & _ & Hx & Hret).
    exists more, s'. split; assumption.
Defined.

Lemma run_executes_all_witness :
  exists s,
    exec 3 Demo.env Demo.round3 getSystemThreadPool = Some s /\
    starting s = 2 /\
    rev (execs 0 (trace s)) = [10; 11] /\
    rev (execs 1 (trace s)) = [10; 11] /\
    execs 2 (trace s) = [] /\
    workBegin s = 0 /\ workEnd s = 0.
Proof.
  eexists. split; [vm_compute; reflexivity|].
  pose proof (run_executes_all 3 Demo.env demo_range Demo.round3 _
                (Call 2 10 12) ltac:(vm_compute; reflexivity) eq_refl)
    as (Hst & _ & Hin & Hout & Hb & He).
  split; [exact Hst|].
  split; [apply (Hin 0); cbn; lia|].
  split; [apply (Hin 1); cbn; lia|].
  split; [apply (Hout 2); cbn; lia|].
  split; [exact Hb|exact He].
Defined.

Lemma rendezvous_counts_the_woken_witness :
  (exists s,
     exec 3 Demo.env Demo.round3 getSystemThreadPool = Some s /\
     signalled s 1 = 1%nat /\ signalled s 0 = O /\
     ThinBarrier.started (started s) = 1) /\
  (exists s,
     exec 3 Demo.env Demo.waiting3 getSystemThreadPool = Some s /\
     mainpc s = MRun (Call 2 10 12) RWait /\
     ~ step 3 Demo.env AMain s <> None).
Proof.
  split.
  - eexists. split; [vm_compute; reflexivity|].
    pose proof (rendezvous_counts_the_woken 3 Demo.env demo_range Demo.round3
                  _ (Call 2 10 12) ltac:(vm_compute; reflexivity))
      as [Hret _].
    destruct (Hret eq_refl) as (Hin & Hout & Hc).
    split; [apply (Hin 1); cbn; lia|].
    split; [apply (Hout 0); cbn; lia|].
    exact Hc.
  - eexists. split; [vm_compute; reflexivity|].
    split; [reflexivity|].
    pose proof (rendezvous_counts_the_woken 3 Demo.env demo_range
                  Demo.waiting3 _ (Call 2 10 12)
                  ltac:(vm_compute; reflexivity)) as [_ Hwait].
    intros Hgo. apply (Hwait eq_refl) in Hgo. vm_compute in Hgo.
    apply Hgo. reflexivity.
Defined.

Lemma destructor_joins_all_witness :
  exists s,
    exec 3 Demo.env Demo.destroy3 getSystemThreadPool = Some s /\
    rev (dtor_events (trace s)) =
      [EvShutdown; EvStoreEnd 0; EvStoreBegin 0; EvFence; EvKick 1; EvKick 2] /\
    (exists a s', step 3 Demo.env a s = Some s') /\
    (exists more s', exec 3 Demo.env more s = Some s' /\ mainpc s' = MDead /\
                     thr s' 1 = TExit /\ thr s' 2 = TExit).
Proof.
  eexists. split; [vm_compute; reflexivity|].
  pose proof (destructor_joins_all 3 Demo.env demo_range Demo.destroy3 _
                (Some (DJoin 1)) ltac:(vm_compute; reflexivity) eq_refl)
    as (Hscript & _ & Hstep & _ & more & s' & Hx & Hdead & _ & Hexit).
  split; [exact Hscript|].
  split; [apply Hstep; discriminate|].
  exists more, s'. split; [exact Hx|]. split; [exact Hdead|].
  split; apply Hexit; lia.
Defined.

Lemma constructor_waits_for_all_witness :
  (exists s,
     exec 3 Demo.env Demo.build3 getSystemThreadPool = Some s /\
     ThinBarrier.started (started s) = 3 /\
     cnt (readies (trace s)) 2 = 1%nat /\
     rev (inits 2 (trace s)) =
       [EvInitTID 2; EvInitPTS 2; EvBind 2 2; EvReady 2] /\
     rev (inits 0 (trace s)) =
       [EvInitTID 0; EvInitPTS 0; EvBind 0 0; EvReady 0] /\
     creates (trace s) = [2; 1]) /\
  (exists s,
     exec 1 Demo.env Demo.build1 getSystemThreadPool = Some s /\
     mainpc s = MIdle None /\ creates (trace s) = []).
Proof.
  split.
  - eexists. split; [vm_compute; reflexivity|].
    pose proof (constructor_waits_for_all 3 Demo.env Demo.build3 _ demo_range
                  ltac:(vm_compute; reflexivity)) as (_ & Hidle & _).
    destruct (Hidle eq_refl) as (Hc & Hin & _ & Hinits & Hcr).
    split; [exact Hc|]. split; [apply (Hin 2); lia|].
    split; [exact (Hinits 2 ltac:(lia))|].
    split; [exact (Hinits 0 ltac:(lia))|exact Hcr].
  - assert (Hr : 1 <= 1 < 2 ^ 31) by lia.
    pose proof (constructor_waits_for_all 1 Demo.env [] _ Hr eq_refl)
      as (_ & _ & Hone).
    destruct (Hone eq_refl) as (s & Hs & Hm & Hcr & _).
    exists s. split; [exact Hs|]. split; [exact Hm|exact Hcr].
Defined.

Lemma run_clamps_count_witness :
  exists s,
    exec 3 Demo.env Demo.build3 getSystemThreadPool = Some s /\
    step 3 Demo.env (ACall 0 10 12) s = step 3 Demo.env (ACall 1 10 12) s /\
    step 3 Demo.env (ACall 0 10 12) s <> None /\
    step 3 Demo.env (ACall (3 + 100) 10 12) s =
      step 3 Demo.env (ACall 3 10 12) s /\
    step 3 Demo.env (ACall 3 10 12) s <> None /\
    (exists s', exec 3 Demo.env [ACall 0 10 12; AMain] s = Some s' /\
                starting s' = 1) /\
    (exists s', exec 3 Demo.env [ACall 2 10 12; AMain] s = Some s' /\
                starting s' = 2) /\
    (exists s', exec 3 Demo.env [ACall 103 10 12; AMain] s = Some s' /\
                starting s' = 3).
Proof.
  pose proof (run_clamps_count 3 Demo.env demo_range)
    as (_ & Hacc & H0 & Habove & _ & Hst).
  assert (Hb : exists s,
             exec 3 Demo.env Demo.build3 getSystemThreadPool = Some s /\
             mainpc s = MIdle None)
    by (eexists; split; [vm_compute; reflexivity|reflexivity]).
  destruct Hb as (s & Hs & Hm).
  exists s. split; [exact Hs|].
  split; [apply H0|].
  split; [rewrite (Hacc s None 0 10 12 Hm eq_refl); discriminate|].
  split; [apply Habove; lia|].
  split; [rewrite (Hacc s None 3 10 12 Hm eq_refl); discriminate|].
  assert (Hin : Forall inner [AMain]) by (repeat constructor).
  assert (Hone : forall n, is_unsigned n = true ->
            exists s', exec 3 Demo.env [ACall n 10 12; AMain] s = Some s' /\
                       starting s' = sanitize 3 n).
  { intros n Hu.
    assert (Hx : exists s',
               exec 3 Demo.env [ACall n 10 12; AMain] s = Some s' /\
               mainpc s' = MRun (Call (sanitize 3 n) 10 12) RStoreBegin).
    { cbn [exec]. rewrite (Hacc s None n 10 12 Hm Hu).
      eexists. split; reflexivity. }
    destruct Hx as (s' & Hx & Hm').
    exists s'. split; [exact Hx|].
    destruct (Hst Demo.build3 s n 10 12 [AMain] s' Hs Hx Hin) as (_ & _ & Heq).
    apply Heq. rewrite Hm'. discriminate. }
  split; [|split].
  - destruct (Hone 0 eq_refl) as (s' & Hx & He).
    exists s'. split; [exact Hx|exact He].
  - destruct (Hone 2 eq_refl) as (s' & Hx & He).
    exists s'. split; [exact Hx|exact He].
  - destruct (Hone 103 eq_refl) as (s' & Hx & He).
    exists s'. split; [exact Hx|exact He].
Defined.

Lemma binding_policy_witness :
  In (EvBind 1 1) (initThread Demo.env 1) /\
  exists s,
    exec 3 Demo.env Demo.build3 getSystemThreadPool = Some s /\
    In (EvBind 1 1) (trace s).
Proof.
  pose proof (binding_policy Demo.env 1) as (Hbind & _ & _ & Htrace).
  assert (Hin : In (EvBind 1 1) (initThread Demo.env 1)).
  { apply Hbind. split; [reflexivity|]. intros H. discriminate H. }
  split; [exact Hin|].
  eexists. split; [vm_compute; reflexivity|].
  apply (Htrace 3 Demo.build3 _ 1 demo_range ltac:(vm_compute; reflexivity)
           eq_refl ltac:(lia)).
  exact Hin.
Defined.

Lemma primitive_failure_is_fatal_witness :
  Semaphore.acquire 1 [OS.Reply (-1) 4; OS.Reply (-1) 22; OS.Reply 0 0] =
    OS.Die (OS.Diag 80 "PTHREAD") /\
  Semaphore.acquire 1 [OS.Reply (-1) 4; OS.Reply 0 0] = OS.Ok [] /\
  Lifecycle.create_loop (Z.to_nat (3 - 1)) [OS.Reply 0 0; OS.Reply 11 0] =
    OS.Die (OS.Diag 180 "PTHREAD").
Proof.
  pose proof primitive_failure_is_fatal
    as (_ & _ & _ & _ & Hacq & Hgo & Hcreate & _).
  split; [|split].
  - apply (Hacq 1 [OS.Reply (-1) 4] (OS.Reply (-1) 22) [OS.Reply 0 0]).
    + lia.
    + repeat constructor.
    + reflexivity.
    + cbn. discriminate.
  - apply (Hgo 1 [OS.Reply (-1) 4] (OS.Reply 0 0) []).
    + lia.
    + repeat constructor.
    + reflexivity.
  - apply (Hcreate 3 [OS.Reply 0 0] (OS.Reply 11 0) []).
    + repeat constructor.
    + cbn. lia.
    + cbn. discriminate.
Defined.

(** ** The calls of libpthread over the life of the pool *)

Module Calls.
Import OS.

Lemma release_one g os :
  Semaphore.release 1 (g :: os) =
  if rc g =? 0 then Ok os else Die (Diag 70 "PTHREAD").
Proof. reflexivity. Qed.

Ltac head_fine Hg :=
  let Hf := fresh "Hf" in
  inversion Hg as [|? ? Hf ?]; subst; unfold Lifecycle.fine in Hf.

Lemma new_semaphores_ok n : forall good os,
  Forall Lifecycle.fine good -> length good = n ->
  Lifecycle.new_semaphores n (good ++ os) = Ok os.
Proof.
  induction n as [|n IH]; intros [|g good] os Hg Hl; try discriminate Hl;
    [reflexivity|].
  head_fine Hg. cbn [app Lifecycle.new_semaphores Semaphore.ctor].
  rewrite Hf. cbn [Z.eqb bind]. apply IH; [assumption|]. cbn [length] in Hl. lia.
Qed.

Lemma new_semaphores_dies n : forall good r os,
  Forall Lifecycle.fine good -> (length good < n)%nat -> rc r <> 0 ->
  Lifecycle.new_semaphores n (good ++ r :: os) = Die (Diag 58 "PTHREAD").
Proof.
  induction n as [|n IH]; intros good r os Hg Hl Hr; [inversion Hl|].
  destruct good as [|g good]; cbn [app Lifecycle.new_semaphores Semaphore.ctor].
  - apply Z.eqb_neq in Hr. rewrite Hr. reflexivity.
  - head_fine Hg. rewrite Hf. cbn [Z.eqb bind].
    apply IH; [assumption|cbn [length] in Hl; lia|assumption].
Qed.

Lemma delete_semaphores_ok n : forall good os,
  Forall Lifecycle.fine good -> length good = n ->
  Lifecycle.delete_semaphores n (good ++ os) = Ok os.
Proof.
  induction n as [|n IH]; intros [|g good] os Hg Hl; try discriminate Hl;
    [reflexivity|].
  head_fine Hg. cbn [app Lifecycle.delete_semaphores Semaphore.dtor].
  rewrite Hf. cbn [Z.eqb bind]. apply IH; [assumption|]. cbn [length] in Hl. lia.
Qed.

Lemma create_loop_ok n : forall good os,
  Forall Lifecycle.fine good -> length good = n ->
  Lifecycle.create_loop n (good ++ os) = Ok os.
Proof.
  induction n as [|n IH]; intros [|g good] os Hg Hl; try discriminate Hl;
    [reflexivity|].
  head_fine Hg. cbn [app Lifecycle.create_loop].
  rewrite Hf. cbn [Z.eqb]. apply IH; [assumption|]. cbn [length] in Hl. lia.
Qed.

Lemma join_loop_ok n : forall good os,
  Forall Lifecycle.fine good -> length good = n ->
  Lifecycle.join_loop n (good ++ os) = Ok os.
Proof.
  induction n as [|n IH]; intros [|g good] os Hg Hl; try discriminate Hl;
    [reflexivity|].
  head_fine Hg. cbn [app Lifecycle.join_loop].
  rewrite Hf. cbn [Z.eqb]. apply IH; [assumption|]. cbn [length] in Hl. lia.
Qed.

Lemma release_all_ok n : forall good os,
  Forall Lifecycle.fine good -> length good = n ->
  Lifecycle.release_all n (good ++ os) = Ok os.
Proof.
  induction n as [|n IH]; intros [|g good] os Hg Hl; try discriminate Hl;
    [reflexivity|].
  head_fine Hg. cbn [app Lifecycle.release_all]. rewrite release_one.
  rewrite Hf. cbn [Z.eqb bind]. apply IH; [assumption|]. cbn [length] in Hl. lia.
Qed.

Lemma release_all_dies n : forall good r os,
  Forall Lifecycle.fine good -> (length good < n)%nat -> rc r <> 0 ->
  Lifecycle.release_all n (good ++ r :: os) = Die (Diag 70 "PTHREAD").
Proof.
  induction n as [|n IH]; intros good r os Hg Hl Hr; [inversion Hl|].
  destruct good as [|g good]; cbn [app Lifecycle.release_all];
    rewrite release_one.
  - apply Z.eqb_neq in Hr. rewrite Hr. reflexivity.
  - head_fine Hg. rewrite Hf. cbn [Z.eqb bind].
    apply IH; [assumption|cbn [length] in Hl; lia|assumption].
Qed.



End Calls.

(** X5: the constructor calls [sem_init] [maxThreads] times and then
    [pthread_create] [maxThreads - 1] times: when all of them succeed it
    returns having used exactly these replies; when a [sem_init] fails the
    process ends there, before any thread is created; when a
    [pthread_create] fails the process ends there. *)
Theorem constructor_calls maxThreads :
  1 <= maxThreads ->
  (forall sems threads os,
     Forall Lifecycle.fine sems -> Forall Lifecycle.fine threads ->
     Z.of_nat (length sems) = maxThreads ->
     Z.of_nat (length threads) = maxThreads - 1 ->
     Lifecycle.ctor maxThreads (sems ++ threads ++ os) = OS.Ok os) /\
  (forall sems r os,
     Forall Lifecycle.fine sems -> Z.of_nat (length sems) < maxThreads ->
     OS.rc r <> 0 ->
     Lifecycle.ctor maxThreads (sems ++ r :: os) =
     OS.Die (OS.Diag (OS.die_line OS.sem_init) "PTHREAD")) /\
  (forall sems threads r os,
     Forall Lifecycle.fine sems -> Forall Lifecycle.fine threads ->
     Z.of_nat (length sems) = maxThreads ->
     Z.of_nat (length threads) < maxThreads - 1 -> OS.rc r <> 0 ->
     Lifecycle.ctor maxThreads (sems ++ threads ++ r :: os) =
     OS.Die (OS.Diag (OS.die_line OS.pthread_create) "PTHREAD")).
Proof.
  intros Hm. unfold Lifecycle.ctor. repeat apply conj.
  - intros sems threads os Hs Ht Hls Hlt.
    rewrite Calls.new_semaphores_ok by (assumption || lia). cbn [OS.bind].
    apply Calls.create_loop_ok; [assumption|lia].
  - intros sems r os Hs Hl Hr.
    rewrite Calls.new_semaphores_dies by (assumption || lia). reflexivity.
  - intros sems threads r os Hs Ht Hls Hlt Hr.
    rewrite Calls.new_semaphores_ok by (assumption || lia). cbn [OS.bind].
    apply Fatal.create_loop_dies; [assumption|lia|assumption].
Qed.

Lemma constructor_calls_witness :
  Lifecycle.ctor 2 [OS.Reply 0 0; OS.Reply 0 0; OS.Reply 0 0; OS.Reply 7 0] =
    OS.Ok [OS.Reply 7 0] /\
  Lifecycle.ctor 2 [OS.Reply 0 0; OS.Reply (-1) 28; OS.Reply 0 0] =
    OS.Die (OS.Diag 58 "PTHREAD") /\
  Lifecycle.ctor 2 [OS.Reply 0 0; OS.Reply 0 0; OS.Reply 11 0] =
    OS.Die (OS.Diag 180 "PTHREAD").
Proof.
  assert (Hm : 1 <= 2) by lia.
  pose proof (constructor_calls 2 Hm) as (Hok & Hsem & Hthread).
  split; [|split].
  - apply (Hok [OS.Reply 0 0; OS.Reply 0 0] [OS.Reply 0 0] [OS.Reply 7 0]);
      try (repeat constructor); reflexivity.
  - apply (Hsem [OS.Reply 0 0] (OS.Reply (-1) 28) [OS.Reply 0 0]);
      [repeat constructor|cbn; lia|cbn; discriminate].
  - apply (Hthread [OS.Reply 0 0; OS.Reply 0 0] [] (OS.Reply 11 0) []);
      [repeat constructor|constructor|reflexivity|cbn; lia|cbn; discriminate].
Defined.

(** X6: the destructor calls [sem_post] [maxThreads - 1] times, then
    [pthread_join] [maxThreads - 1] times, then [sem_destroy] [maxThreads]
    times: when all succeed it returns having used exactly these replies;
    when a [sem_post] fails no thread is joined, and when a [pthread_join]
    fails no semaphore is destroyed: the process ends at the failure. *)
Theorem destructor_calls maxThreads :
  1 <= maxThreads ->
  (forall posts joins sems os,
     Forall Lifecycle.fine posts -> Forall Lifecycle.fine joins ->
     Forall Lifecycle.fine sems ->
     Z.of_nat (length posts) = maxThreads - 1 ->
     Z.of_nat (length joins) = maxThreads - 1 ->
     Z.of_nat (length sems) = maxThreads ->
     Lifecycle.dtor maxThreads (posts ++ joins ++ sems ++ os) = OS.Ok os) /\
  (forall posts r os,
     Forall Lifecycle.fine posts ->
     Z.of_nat (length posts) < maxThreads - 1 -> OS.rc r <> 0 ->
     Lifecycle.dtor maxThreads (posts ++ r :: os) =
     OS.Die (OS.Diag (OS.die_line OS.sem_post) "PTHREAD")) /\
  (forall posts joins r os,
     Forall Lifecycle.fine posts -> Forall Lifecycle.fine joins ->
     Z.of_nat (length posts) = maxThreads - 1 ->
     Z.of_nat (length joins) < maxThreads - 1 -> OS.rc r <> 0 ->
     Lifecycle.dtor maxThreads (posts ++ joins ++ r :: os) =
     OS.Die (OS.Diag (OS.die_line OS.pthread_join) "PTHREAD")).
Proof.
  intros Hm. unfold Lifecycle.dtor. repeat apply conj.
  - intros posts joins sems os Hp Hj Hs Hlp Hlj Hls.
    rewrite Calls.release_all_ok by (assumption || lia). cbn [OS.bind].
    rewrite Calls.join_loop_ok by (assumption || lia). cbn [OS.bind].
    apply Calls.delete_semaphores_ok; [assumption|lia].
  - intros posts r os Hp Hl Hr.
    rewrite Calls.release_all_dies by (assumption || lia). reflexivity.
  - intros posts joins r os Hp Hj Hlp Hlj Hr.
    rewrite Calls.release_all_ok by (assumption || lia). cbn [OS.bind].
    rewrite Fatal.join_loop_dies by (assumption || lia). reflexivity.
Qed.

Lemma destructor_calls_witness :
  Lifecycle.dtor 2 [OS.Reply 0 0; OS.Reply 0 0; OS.Reply 0 0; OS.Reply 0 0] =
    OS.Ok [] /\
  Lifecycle.dtor 2 [OS.Reply 0 0; OS.Reply 3 0; OS.Reply 0 0; OS.Reply 0 0] =
    OS.Die (OS.Diag 193 "PTHREAD").
Proof.
  assert (Hm : 1 <= 2) by lia.
  pose proof (destructor_calls 2 Hm) as (Hok & _ & Hjoin).
  split.
  - apply (Hok [OS.Reply 0 0] [OS.Reply 0 0] [OS.Reply 0 0; OS.Reply 0 0] []);
      try (repeat constructor); reflexivity.
  - apply (Hjoin [OS.Reply 0 0] [] (OS.Reply 3 0) [OS.Reply 0 0; OS.Reply 0 0]);
      [repeat constructor|constructor|reflexivity|cbn; lia|cbn; discriminate].
Defined.



(** ** The further properties on the schedules of [Demo] *)

Lemma live_threads_never_exit_witness :
  exists s,
    exec 3 Demo.env Demo.round3 getSystemThreadPool = Some s /\
    shutdown s = false /\ thr s 1 <> TExit /\ thr s 2 <> TExit.
Proof.
  eexists. split; [vm_compute; reflexivity|].
  pose proof (live_threads_never_exit 3 Demo.env demo_range Demo.round3 _
                ltac:(vm_compute; reflexivity) eq_refl) as [Hsd Hex].
  split; [exact Hsd|]. split; apply Hex.
Defined.

Lemma semaphores_zero_at_rest_witness :
  exists s,
    exec 3 Demo.env Demo.round3 getSystemThreadPool = Some s /\
    starts s 1 = O /\ starts s 2 = O.
Proof.
  eexists. split; [vm_compute; reflexivity|].
  pose proof (semaphores_zero_at_rest 3 Demo.env demo_range Demo.round3 _
                (Some (Call 2 10 12)) ltac:(vm_compute; reflexivity) eq_refl)
    as Hz.
  split; apply Hz.
Defined.

Lemma descriptor_stable_witness :
  exists s,
    exec 3 Demo.env Demo.waiting3 getSystemThreadPool = Some s /\
    starting s = 2 /\ workBegin s = 10 /\ workEnd s = 12.
Proof.
  eexists. split; [vm_compute; reflexivity|].
  pose proof (descriptor_stable 3 Demo.env demo_range Demo.waiting3 _
                (Call 2 10 12) RWait ltac:(vm_compute; reflexivity) eq_refl)
    as [_ Hd].
  apply (Hd 1); vm_compute; reflexivity.
Defined.

Lemma ids_are_a_permutation_witness :
  exists s,
    exec 3 Demo.env Demo.build3 getSystemThreadPool = Some s /\
    tid_of (thr s 1) = Some 2 /\ tid_of (thr s 2) = Some 1 /\
    exists j, 1 <= j < 3 /\ tid_of (thr s j) = Some 2.
Proof.
  eexists. split; [vm_compute; reflexivity|].
  split; [reflexivity|]. split; [reflexivity|].
  destruct (ids_are_a_permutation 3 Demo.env demo_range Demo.build3 _ None 2
              ltac:(vm_compute; reflexivity) eq_refl ltac:(lia))
    as (j & Hj & Ht & _).
  exists j. split; [exact Hj|exact Ht].
Defined.

